(** * Residual-load scenario engine: a shallow embedding of [engine.py]
      and of the parts of [metdesk_db.py] it calls.

    pandas/numpy columns hold float64 values.  The development is written
    over a small numeric interface [Num] with two instances:
    - [Float64]: Rocq's primitive binary64 floats, NaN included, i.e. the
      arithmetic the program actually performs;
    - [Exact]: exact rationals, [None] standing for NaN (and for the
      non-finite results of a division by zero).

    A pandas DataFrame keyed by [utc_datetime] is a [frame]: the list of
    its other column names and its rows, each row being the timestamp
    (seconds since the epoch, UTC) with the cells of the other columns. *)

From Stdlib Require Import ZArith QArith Qround List String Ascii Bool Lia Lqa.
From Stdlib Require Import Floats Sorted Permutation.
Import ListNotations.

Local Open Scope nat_scope.
Local Open Scope list_scope.

(* ------------------------------------------------------------------ *)
(** ** Numbers *)

Class Num (V : Type) := {
  v_nan : V;
  v_is_nan : V -> bool;
  v_of_Z : Z -> V;
  v_add : V -> V -> V;
  v_sub : V -> V -> V;
  v_mul : V -> V -> V;
  v_div : V -> V -> V;
  v_opp : V -> V;
  v_leb : V -> V -> bool;
  v_ltb : V -> V -> bool;
  v_sqrt : V -> V
}.

(** binary64, as numpy computes. *)
Definition float_of_Z (z : Z) : float :=
  if (z <? 0)%Z then PrimFloat.opp (PrimFloat.of_uint63 (Uint63.of_Z (- z)))
  else PrimFloat.of_uint63 (Uint63.of_Z z).

#[global] Instance Float64 : Num float := {
  v_nan := PrimFloat.nan;
  v_is_nan := PrimFloat.is_nan;
  v_of_Z := float_of_Z;
  v_add := PrimFloat.add;
  v_sub := PrimFloat.sub;
  v_mul := PrimFloat.mul;
  v_div := PrimFloat.div;
  v_opp := PrimFloat.opp;
  v_leb := PrimFloat.leb;
  v_ltb := PrimFloat.ltb;
  v_sqrt := PrimFloat.sqrt
}.

(** Exact reading: reduced rationals, [None] for NaN. *)
Definition q_lift2 (f : Q -> Q -> Q) (a b : option Q) : option Q :=
  match a, b with
  | Some x, Some y => Some (Qred (f x y))
  | _, _ => None
  end.

Definition q_div (a b : option Q) : option Q :=
  match a, b with
  | Some x, Some y => if Qeq_bool y 0%Q then None else Some (Qred (x / y))
  | _, _ => None
  end.

Definition q_cmp (f : Q -> Q -> bool) (a b : option Q) : bool :=
  match a, b with
  | Some x, Some y => f x y
  | _, _ => false
  end.

(** The square root only feeds the [ens_std] column; it is read here with
    six decimal places, truncated. *)
Definition q_sqrt (a : option Q) : option Q :=
  match a with
  | Some x =>
      if Qle_bool 0%Q x
      then Some (Qred (Z.sqrt (Qnum x * Zpos (Qden x) * 10 ^ 12)%Z
                       # (Qden x * 1000000)%positive))
      else None
  | None => None
  end.

#[global] Instance Exact : Num (option Q) := {
  v_nan := None;
  v_is_nan := fun a => match a with None => true | Some _ => false end;
  v_of_Z := fun z => Some (inject_Z z);
  v_add := q_lift2 Qplus;
  v_sub := q_lift2 Qminus;
  v_mul := q_lift2 Qmult;
  v_div := q_div;
  v_opp := fun a => match a with Some x => Some (Qred (- x)%Q) | None => None end;
  v_leb := q_cmp Qle_bool;
  v_ltb := q_cmp (fun x y => negb (Qle_bool y x));
  v_sqrt := q_sqrt
}.

(* ------------------------------------------------------------------ *)
(** ** Strings: formatting, parsing, case *)

Local Open Scope string_scope.

Fixpoint str_nat_aux (fuel n : nat) (acc : string) : string :=
  match fuel with
  | O => acc
  | S f =>
      let acc' := String (ascii_of_nat (48 + n mod 10)%nat) acc in
      if Nat.ltb n 10 then acc' else str_nat_aux f (n / 10) acc'
  end.

(** [str(n)] for a non-negative int. *)
Definition str_nat (n : nat) : string := str_nat_aux (S n) n "".

(** [f"{n:02d}"] for a non-negative int. *)
Definition fmt02 (n : nat) : string :=
  if Nat.ltb n 10 then "0" ++ str_nat n else str_nat n.

Definition digit_val (c : ascii) : option nat :=
  let k := nat_of_ascii c in
  if andb (Nat.leb 48 k) (Nat.leb k 57) then Some (k - 48)%nat else None.

Fixpoint parse_digits (s : string) (acc : nat) : option nat :=
  match s with
  | EmptyString => Some acc
  | String c t =>
      match digit_val c with
      | Some d => parse_digits t (acc * 10 + d)%nat
      | None => None
      end
  end.

(** [int(s)] on the member labels the ensemble query selects (decimal
    digits); [None] is the [ValueError] branch. *)
Definition parse_int (s : string) : option nat :=
  match s with
  | EmptyString => None
  | _ => parse_digits s 0
  end.

Definition ascii_upper (c : ascii) : ascii :=
  let k := nat_of_ascii c in
  if andb (Nat.leb 97 k) (Nat.leb k 122) then ascii_of_nat (k - 32)%nat else c.

Definition ascii_lower (c : ascii) : ascii :=
  let k := nat_of_ascii c in
  if andb (Nat.leb 65 k) (Nat.leb k 90) then ascii_of_nat (k + 32)%nat else c.

Fixpoint str_map (f : ascii -> ascii) (s : string) : string :=
  match s with
  | EmptyString => EmptyString
  | String c t => String (f c) (str_map f t)
  end.

Definition upper := str_map ascii_upper.
Definition lower := str_map ascii_lower.

Local Close Scope string_scope.

(* ------------------------------------------------------------------ *)
(** ** Lists: membership, sorting *)

Fixpoint index_of (s : string) (l : list string) : option nat :=
  match l with
  | [] => None
  | x :: t =>
      if String.eqb s x then Some 0
      else option_map S (index_of s t)
  end.

Definition mem (s : string) (l : list string) : bool :=
  existsb (String.eqb s) l.

Fixpoint insert_by {A} (le : A -> A -> bool) (x : A) (l : list A) : list A :=
  match l with
  | [] => [x]
  | y :: t => if le x y then x :: l else y :: insert_by le x t
  end.

(** A stable sort (insertion sort). *)
Definition sort_by {A} (le : A -> A -> bool) (l : list A) : list A :=
  fold_right (insert_by le) [] l.

Fixpoint dedup_sorted {A} (eqb : A -> A -> bool) (l : list A) : list A :=
  match l with
  | x :: (y :: _) as t => if eqb x y then dedup_sorted eqb t else x :: dedup_sorted eqb t
  | _ => l
  end.

(** Sorted distinct values, as pandas builds a union index or a groupby key. *)
Definition uniq_Z (l : list Z) : list Z := dedup_sorted Z.eqb (sort_by Z.leb l).
Definition uniq_str (l : list string) : list string :=
  dedup_sorted String.eqb (sort_by String.leb l).

Fixpoint list_eqb {A} (eqb : A -> A -> bool) (l1 l2 : list A) : bool :=
  match l1, l2 with
  | [], [] => true
  | x :: t1, y :: t2 => eqb x y && list_eqb eqb t1 t2
  | _, _ => false
  end.

(* ------------------------------------------------------------------ *)
(** ** Raised exceptions *)

Inductive exn := KeyError (key : string).

Inductive res (A : Type) : Type :=
| Ok (a : A)
| Err (e : exn).
Arguments Ok {A} a.
Arguments Err {A} e.

Definition bind {A B} (m : res A) (k : A -> res B) : res B :=
  match m with
  | Ok a => k a
  | Err e => Err e
  end.

Notation "x <- m ;; k" := (bind m (fun x => k))
  (at level 61, m at next level, right associativity).

(* ------------------------------------------------------------------ *)
(** ** Configuration ([config.py]) *)

Local Open Scope string_scope.

Definition COUNTRY : string := "FR".

Record model_desc := { label : string; n_members : nat }.

Definition AVAILABLE_MODELS (model : string) : option model_desc :=
  if String.eqb model "eceps" then Some {| label := "ECMWF ENS (eceps)"; n_members := 50 |}
  else if String.eqb model "ec46" then Some {| label := "ECMWF Extended (ec46)"; n_members := 99 |}
  else if String.eqb model "gfsens" then Some {| label := "GFS Ensemble (gfsens)"; n_members := 30 |}
  else if String.eqb model "ecaifsens" then Some {| label := "ECMWF AIFS ENS (ecaifsens)"; n_members := 50 |}
  else None.

(** [AVAILABLE_MODELS[model]]: a [KeyError] for an unknown key. *)
Definition model_of (model : string) : res model_desc :=
  match AVAILABLE_MODELS model with
  | Some d => Ok d
  | None => Err (KeyError model)
  end.

Local Close Scope string_scope.

(* ------------------------------------------------------------------ *)
(** ** DataFrames keyed by [utc_datetime] *)

(** [key_col] says whether the [utc_datetime] column exists; [cols] are
    the other columns, in order; a row is its timestamp with one cell per
    column of [cols]. *)
Record frame (V : Type) := mk_frame {
  key_col : bool;
  cols : list string;
  rows : list (Z * list V)
}.
Arguments mk_frame {V} key_col cols rows.
Arguments key_col {V} f.
Arguments cols {V} f.
Arguments rows {V} f.

(** One row of a query result in long form: [(utc_datetime, member, value)]. *)
Definition long_row (V : Type) : Type := (Z * string * V)%type.

Section Frames.
Context {V : Type} `{Num V}.

(** [pd.DataFrame()]: no column at all. *)
Definition bare : frame V := mk_frame false [] [].

(** [df.empty]: no row, or no column. *)
Definition df_empty (f : frame V) : bool :=
  match rows f with
  | [] => true
  | _ => negb (key_col f) && match cols f with [] => true | _ => false end
  end.

Definition cell (vs : list V) (i : nat) : V := nth i vs v_nan.

Definition times (f : frame V) : list Z := map fst (rows f).

(** The cell of column [name] in row [r] of [f]. *)
Definition get (f : frame V) (r : Z * list V) (name : string) : V :=
  match index_of name (cols f) with
  | Some i => cell (snd r) i
  | None => v_nan
  end.

(** [df[name]] where the column is known to exist. *)
Definition col (f : frame V) (name : string) : list V :=
  map (fun r => get f r name) (rows f).

(** [df[name]], raising [KeyError] for a missing column. *)
Definition col_vals (f : frame V) (name : string) : res (list V) :=
  match index_of name (cols f) with
  | Some i => Ok (map (fun r => cell (snd r) i) (rows f))
  | None => Err (KeyError name)
  end.

Fixpoint replace_nth (i : nat) (x : V) (l : list V) : list V :=
  match l, i with
  | [], _ => []
  | _ :: t, O => x :: t
  | y :: t, S j => y :: replace_nth j x t
  end.

(** [df[name] = vals] with [vals] aligned on the rows: overwrite the column
    if it exists, append it otherwise. *)
Definition set_col (f : frame V) (name : string) (vals : list V) : frame V :=
  match index_of name (cols f) with
  | Some i =>
      mk_frame (key_col f) (cols f)
        (map (fun '(r, v) => (fst r, replace_nth i v (snd r))) (combine (rows f) vals))
  | None =>
      mk_frame (key_col f) (cols f ++ [name])
        (map (fun '(r, v) => (fst r, snd r ++ [v])) (combine (rows f) vals))
  end.

(** [df.rename(columns=...)]. *)
Definition rename_cols (g : string -> string) (f : frame V) : frame V :=
  mk_frame (key_col f) (map g (cols f)) (rows f).

(** [df[["utc_datetime"] + names]]. *)
Definition select (f : frame V) (names : list string) : frame V :=
  mk_frame (key_col f) names (map (fun r => (fst r, map (get f r) names)) (rows f)).

Definition fill0 (v : V) : V := if v_is_nan v then v_of_Z 0 else v.

(** [df.fillna(0)]. *)
Definition fillna0 (f : frame V) : frame V :=
  mk_frame (key_col f) (cols f) (map (fun r => (fst r, map fill0 (snd r))) (rows f)).

(** [df.sort_values("utc_datetime")]. *)
Definition sort_rows (f : frame V) : frame V :=
  mk_frame (key_col f) (cols f) (sort_by (fun a b => Z.leb (fst a) (fst b)) (rows f)).

Definition rows_at (f : frame V) (t : Z) : list (Z * list V) :=
  filter (fun r => Z.eqb (fst r) t) (rows f).

(** Column names of a merge: a name present on both sides gets the suffix
    of its side. *)
Definition merge_cols (lc rc : list string) (sl sr : string) : list string :=
  map (fun c => if mem c rc then (c ++ sl)%string else c) lc
  ++ map (fun c => if mem c lc then (c ++ sr)%string else c) rc.

(** [l.merge(r, on="utc_datetime", how="inner")]: left rows in order, each
    followed by its matches on the right. *)
Definition merge_inner (l r : frame V) (sl sr : string) : frame V :=
  mk_frame true (merge_cols (cols l) (cols r) sl sr)
    (flat_map (fun lr => map (fun rr => (fst lr, snd lr ++ snd rr)) (rows_at r (fst lr)))
       (rows l)).

(** [l.merge(r, on="utc_datetime", how="outer")]: the sorted union of the
    keys; the cells of a side without the key are NaN. *)
Definition merge_outer (l r : frame V) (sl sr : string) : frame V :=
  let nl := repeat v_nan (List.length (cols l)) in
  let nr := repeat v_nan (List.length (cols r)) in
  mk_frame true (merge_cols (cols l) (cols r) sl sr)
    (flat_map (fun t =>
       match rows_at l t, rows_at r t with
       | [], rs => map (fun rr => (t, nl ++ snd rr)) rs
       | ls, [] => map (fun lr => (t, snd lr ++ nr)) ls
       | ls, rs => flat_map (fun lr => map (fun rr => (t, snd lr ++ snd rr)) rs) ls
       end)
     (uniq_Z (times l ++ times r))).

(** [df.pivot_table(index="utc_datetime", columns="member", values="value",
    aggfunc="first").reset_index()]: groups with a NaN value only are
    dropped, index and columns are sorted, a cell holds the first non-NaN
    value of its group. *)
Definition pivot_first (long : list (long_row V)) : frame V :=
  let kept := filter (fun '(_, _, v) => negb (v_is_nan v)) long in
  let idx := uniq_Z (map (fun '(t, _, _) => t) kept) in
  let ms := uniq_str (map (fun '(_, m, _) => m) kept) in
  let first t m :=
    match find (fun '(t', m', _) => Z.eqb t t' && String.eqb m m') kept with
    | Some (_, _, v) => v
    | None => v_nan
    end in
  mk_frame true ms (map (fun t => (t, map (first t) ms)) idx).

(* ------------------------------------------------------------------ *)
(** ** numpy reductions over one row, ignoring NaN *)

Definition non_nan (vs : list V) : list V := filter (fun v => negb (v_is_nan v)) vs.

Definition v_len (vs : list V) : V := v_of_Z (Z.of_nat (List.length vs)).

(** numpy's [pairwise_sum] over a contiguous run of [n] doubles: fewer than
    8 are added in order to [0.]; up to 128 go through eight accumulators
    [r[0..7]] (the tail of [n mod 8] added in order after them); longer runs
    are split at [n/2] rounded down to a multiple of 8.  [fuel] bounds the
    splits (the caller passes [n]). *)
Fixpoint pw_blocks (r : list V) (a : list V) (k : nat) : list V :=
  match k with
  | O => r
  | S k' => pw_blocks (map (fun '(x, y) => v_add x y) (combine r (firstn 8 a))) (skipn 8 a) k'
  end.

Fixpoint pairwise_sum (fuel : nat) (a : list V) : V :=
  let n := List.length a in
  if Nat.ltb n 8 then fold_left v_add a (v_of_Z 0) else
  if Nat.leb n 128 then
    let r := pw_blocks (firstn 8 a) (skipn 8 a) (n / 8 - 1) in
    let r_ j := nth j r v_nan in
    let res := v_add (v_add (v_add (r_ 0) (r_ 1)) (v_add (r_ 2) (r_ 3)))
                     (v_add (v_add (r_ 4) (r_ 5)) (v_add (r_ 6) (r_ 7))) in
    fold_left v_add (skipn (n - n mod 8) a) res
  else
    match fuel with
    | O => v_nan
    | S fuel' =>
        let n2 := n / 2 in
        let n2 := n2 - n2 mod 8 in
        v_add (pairwise_sum fuel' (firstn n2 a)) (pairwise_sum fuel' (skipn n2 a))
    end.

(** [np.sum(values, axis=1)] for one row of the 2-d array [values]: the
    output starts at the identity [0.]; when the row is the contiguous axis
    ([pw]) the row goes through [pairwise_sum], otherwise (a Fortran-ordered
    array of several rows, as [DataFrame.values] is) the columns are added
    one after the other. *)
Definition row_sum (pw : bool) (vs : list V) : V :=
  if pw then v_add (v_of_Z 0) (pairwise_sum (List.length vs) vs)
  else fold_left v_add vs (v_of_Z 0).

(** [np.nanmean(values, axis=1)] on one row: NaN replaced by 0 in a copy
    that keeps the layout, the sum divided by the count of non-NaN values
    (0/0 is NaN). *)
Definition nanmean (pw : bool) (vs : list V) : V :=
  v_div (row_sum pw (map fill0 vs)) (v_len (non_nan vs)).

(** [np.nanstd(values, axis=1)] (ddof = 0) through [np.nanvar]: the mean as
    above, the deviations with the NaN positions reset to 0, squared, summed
    and divided by the count; a count of 0 gives NaN; then the square root. *)
Definition nanstd (pw : bool) (vs : list V) : V :=
  let cnt := v_len (non_nan vs) in
  let avg := v_div (row_sum pw (map fill0 vs)) cnt in
  let sqr := map (fun v => let d := if v_is_nan v then v_of_Z 0 else v_sub v avg in
                           v_mul d d) vs in
  match non_nan vs with
  | [] => v_nan
  | _ => v_sqrt (v_div (row_sum pw sqr) cnt)
  end.

(** [np.nanmin], [np.nanmax]. *)
Definition nanmin (vs : list V) : V :=
  match non_nan vs with
  | [] => v_nan
  | x :: xs => fold_left (fun a b => if v_ltb b a then b else a) xs x
  end.

Definition nanmax (vs : list V) : V :=
  match non_nan vs with
  | [] => v_nan
  | x :: xs => fold_left (fun a b => if v_ltb a b then b else a) xs x
  end.

(** numpy's [_lerp]: [a + (b-a) t], computed from [b] when [t >= 0.5]. *)
Definition lerp (a b t : V) : V :=
  let d := v_sub b a in
  if v_leb (v_div (v_of_Z 1) (v_of_Z 2)) t
  then v_sub b (v_mul d (v_sub (v_of_Z 1) t))
  else v_add a (v_mul d t).

(** [np.floor] of a virtual index [vi] with [0 <= vi < m]: the number of
    [k] in [1..m] with [k <= vi]. *)
Definition floor_index (vi : V) (m : nat) : nat :=
  List.length (filter (fun k => v_leb (v_of_Z (Z.of_nat k)) vi) (seq 1 m)).

(** [np.nanpercentile(row, p)], method "linear": the NaN are removed and
    the rest sorted; [q = p / 100.] and the virtual index [vi = (n-1) * q]
    are computed in the number type.  When [vi >= n-1] both neighbours are
    the last value and [gamma = vi - (-1)]; otherwise the neighbours are
    [floor vi] and the next index and [gamma = vi - floor vi]. *)
Definition nanpercentile (vs : list V) (p : nat) : V :=
  match sort_by v_leb (non_nan vs) with
  | [] => v_nan
  | xs =>
      let n := List.length xs in
      let q := v_div (v_of_Z (Z.of_nat p)) (v_of_Z 100) in
      let vi := v_mul (v_of_Z (Z.of_nat (n - 1))) q in
      if v_leb (v_of_Z (Z.of_nat (n - 1))) vi then
        let last := nth (n - 1) xs v_nan in
        lerp last last (v_sub vi (v_of_Z (-1)))
      else
        let lo := floor_index vi (n - 1) in
        lerp (nth lo xs v_nan) (nth (lo + 1) xs v_nan) (v_sub vi (v_of_Z (Z.of_nat lo)))
  end.

End Frames.

Definition zip_with {A B C} (f : A -> B -> C) (l1 : list A) (l2 : list B) : list C :=
  map (fun '(a, b) => f a b) (combine l1 l2).

(* ------------------------------------------------------------------ *)
(** ** The forecast store ([metdesk_db.py]'s SQL queries)

    Each field is the result set of one parameterised query; [None] is a
    query that raised. *)

Record store (V : Type) := {
  (** [SELECT MAX(issue) ... WHERE location, model, element]; the client
      turns a failure into [None] as well. *)
  q_latest_issue : string -> string -> string -> option Z;
  (** the ensemble-member query of [get_ensemble_forecasts]:
      model, element, issue, location, member labels. *)
  q_ensemble : string -> string -> Z -> string -> list string -> option (list (long_row V));
  (** the query of [get_ensemble_by_issue_and_time]:
      model, element, issue, location, valid_start, valid_end. *)
  q_issue_time : string -> string -> Z -> string -> Z -> Z -> option (list (long_row V));
  (** the [silver.eq_consumption] query of [get_eq_consumption], by location. *)
  q_consumption : string -> option (list (Z * V))
}.
Arguments q_latest_issue {V} s.
Arguments q_ensemble {V} s.
Arguments q_issue_time {V} s.
Arguments q_consumption {V} s.

Section Client.
Context {V : Type} `{Num V}.
Local Open Scope string_scope.

(** [MetDeskDBClient._get_latest_issue]. *)
Definition get_latest_issue (st : store V) (model element : string) (location : option string)
  : option Z :=
  let location := match location with Some l => l | None => COUNTRY end in
  q_latest_issue st model element location.

(** The renaming of [get_ensemble_forecasts]: ["1"] becomes ["ens_01"]. *)
Definition ens_name (c : string) : string :=
  match parse_int c with
  | Some k => "ens_" ++ fmt02 k
  | None => "ens_" ++ c
  end.

(** [MetDeskDBClient.get_ensemble_forecasts]. *)
Definition get_ensemble_forecasts (st : store V) (model element : string)
    (issue : option Z) (location : option string) : res (frame V) :=
  let location := match location with Some l => l | None => COUNTRY end in
  let issue := match issue with
               | Some i => Some i
               | None => get_latest_issue st model element None
               end in
  match issue with
  | None => Ok bare
  | Some iss =>
      d <- model_of model;;
      let numeric_members := map str_nat (seq 1 (n_members d)) in
      match q_ensemble st model element iss location numeric_members with
      | None => Ok bare
      | Some [] => Ok bare
      | Some long => Ok (sort_rows (rename_cols ens_name (pivot_first long)))
      end
  end.

Definition wind_name (i : nat) : string := "wind_ens_" ++ fmt02 i.
Definition solar_name (i : nat) : string := "solar_ens_" ++ fmt02 i.
Definition total_name (i : nat) : string := "total_ren_ens_" ++ fmt02 i.

(** One step of the member loop of [get_renewable_ensembles]. *)
Definition add_total (df : frame V) (i : nat) : frame V :=
  if mem (wind_name i) (cols df) && mem (solar_name i) (cols df)
  then set_col df (total_name i) (zip_with v_add (col df (wind_name i)) (col df (solar_name i)))
  else df.

(** [get_renewable_ensembles] after its two fetches. *)
Definition combine_ensembles (model : string) (wind solar : frame V) : res (frame V) :=
  if df_empty wind && df_empty solar then Ok bare else
  let wind_renamed :=
    if negb (df_empty wind) then rename_cols (fun c => "wind_" ++ c) wind else bare in
  let solar_renamed :=
    if negb (df_empty solar) then rename_cols (fun c => "solar_" ++ c) solar else bare in
  if df_empty wind_renamed then Ok solar_renamed
  else if df_empty solar_renamed then Ok wind_renamed
  else
    let df := fillna0 (merge_outer wind_renamed solar_renamed "_x" "_y") in
    d <- model_of model;;
    Ok (fold_left add_total (seq 1 (n_members d)) df).

(** [MetDeskDBClient.get_renewable_ensembles]. *)
Definition get_renewable_ensembles (st : store V) (model : string) (issue : option Z)
    (location : option string) : res (frame V) :=
  wind <- get_ensemble_forecasts st model "wind" issue location;;
  solar <- get_ensemble_forecasts st model "solar" issue location;;
  combine_ensembles model wind solar.

(** [MetDeskDBClient.get_eq_consumption]; every failure is caught. *)
Definition get_eq_consumption (st : store V) (issue : option Z) (location : option string)
  : frame V :=
  let location := match location with Some l => l | None => "fr" end in
  let none := mk_frame true ["consumption_mw"] [] in
  match q_consumption st location with
  | None => none
  | Some [] => none
  | Some rs => sort_rows (mk_frame true ["consumption_mw"] (map (fun '(t, v) => (t, [v])) rs))
  end.

(** [MetDeskDBClient.get_ensemble_by_issue_and_time]; every failure is
    caught. *)
Definition get_ensemble_by_issue_and_time (st : store V) (model element : string) (issue : Z)
    (valid_start valid_end : Z) (location : option string) : frame V :=
  let location := match location with Some l => l | None => COUNTRY end in
  match q_issue_time st model element issue location valid_start valid_end with
  | None => bare
  | Some [] => bare
  | Some long =>
      let pivot := rename_cols (fun c => "ens_" ++ c) (pivot_first long) in
      let ens_cols := filter (String.prefix "ens_") (cols pivot) in
      match ens_cols with
      | [] => pivot
      | _ =>
          (* [DataFrame.mean(axis=1)] goes to [nanops.nanmean] on the
             Fortran-ordered values; with a NaN among them it sums a
             C-ordered copy, so each row is then the contiguous axis. *)
          let cells := flat_map (fun r => map (get pivot r) ens_cols) (rows pivot) in
          let pw := Nat.eqb (List.length (rows pivot)) 1 || existsb v_is_nan cells in
          set_col pivot "ens_mean"
            (map (fun r => nanmean pw (map (get pivot r) ens_cols)) (rows pivot))
      end
  end.

End Client.

(* ------------------------------------------------------------------ *)
(** ** The engine ([engine.py]) *)

Record run_metadata := {
  m_model : string;
  m_model_label : string;
  m_issue : option Z;
  m_updated_at : Z;
  m_n_members : nat;
  m_countries : list string
}.

(** The non-empty scenario dictionary of [update]. *)
Record bundle (V : Type) := {
  residual_scenarios : frame V;
  consumption : frame V;
  renewables_ens : frame V;
  metadata : run_metadata
}.
Arguments residual_scenarios {V} b.
Arguments consumption {V} b.
Arguments renewables_ens {V} b.
Arguments metadata {V} b.

(** The fields of a [ResidualLoadEngine]; [scenarios = None] is the empty
    dictionary [{}].  The client handle is stateless here: its queries are
    the [store] passed to each call. *)
Record engine (V : Type) := mk_engine {
  last_update : option Z;
  current_model : option string;
  scenarios : option (bundle V)
}.
Arguments mk_engine {V} last_update current_model scenarios.
Arguments last_update {V} e.
Arguments current_model {V} e.
Arguments scenarios {V} e.

Definition init_engine {V} : engine V := mk_engine None None None.

Section Engine.
Context {V : Type} `{Num V}.
Local Open Scope string_scope.

Definition residual_name (i : nat) : string := "residual_ens_" ++ fmt02 i.

(** [range(0, 101, 5)]. *)
Definition pct_levels : list nat := map (fun k => 5 * k)%nat (seq 0 21).

Definition pct_name (p : nat) : string := "ens_P" ++ str_nat p.

(** The member loop of [_compute_residual_scenarios]; [acc] is
    [(result, ens_cols)]. *)
Fixpoint add_residuals (merged : frame V) (idx : list nat) (acc : frame V * list string)
  : res (frame V * list string) :=
  match idx with
  | [] => Ok acc
  | i :: idx' =>
      let '(result, ens_cols) := acc in
      if mem (total_name i) (cols merged) then
        c <- col_vals merged "consumption_mw";;
        r <- col_vals merged (total_name i);;
        add_residuals merged idx'
          (set_col result (residual_name i) (zip_with v_sub c r), (ens_cols ++ [residual_name i])%list)
      else add_residuals merged idx' acc
  end.

(** The statistics block of [_compute_residual_scenarios]. *)
Definition add_stats (result : frame V) (ens_cols : list string) : frame V :=
  let values := map (fun r => map (get result r) ens_cols) (rows result) in
  (* [result[ens_cols].values] is Fortran-ordered: its rows are contiguous
     only when there is one row. *)
  let pw := Nat.eqb (List.length values) 1 in
  let result := set_col result "ens_mean" (map (nanmean pw) values) in
  let result := set_col result "ens_std" (map (nanstd pw) values) in
  let result := set_col result "ens_min" (map nanmin values) in
  let result := set_col result "ens_max" (map nanmax values) in
  fold_left (fun acc p => set_col acc (pct_name p) (map (fun vs => nanpercentile vs p) values))
    pct_levels result.

(** [ResidualLoadEngine._compute_residual_scenarios]. *)
Definition compute_residual_scenarios (cons ren_ens : frame V) (model : string)
  : res (frame V) :=
  if df_empty cons then Ok bare else
  if df_empty ren_ens then Ok bare else
  let merged := merge_inner cons ren_ens "_x" "_y" in
  if df_empty merged then Ok bare else
  let result := mk_frame true [] (map (fun r => (fst r, [])) (rows merged)) in
  d <- model_of model;;
  acc <- add_residuals merged (seq 1 (n_members d)) (result, []);;
  let '(result, ens_cols) := acc in
  match ens_cols with
  | [] => Ok result
  | _ => Ok (add_stats result ens_cols)
  end.

(** [a.add(b, fill_value=0)] on two frames indexed by [utc_datetime]: the
    index and the columns are aligned (unions, sorted unless equal); a
    cell missing on one side counts as 0, on both sides stays NaN. *)
Definition add_fill (a b : V) : V :=
  if v_is_nan a && v_is_nan b then v_nan else v_add (fill0 a) (fill0 b).

Definition lookup (f : frame V) (t : Z) (c : string) : V :=
  match find (fun r => Z.eqb (fst r) t) (rows f) with
  | Some r => get f r c
  | None => v_nan
  end.

Definition frame_add (f g : frame V) : frame V :=
  let idx := if list_eqb Z.eqb (times f) (times g) then times f
             else uniq_Z (times f ++ times g) in
  let cs := if list_eqb String.eqb (cols f) (cols g) then cols f
            else uniq_str (cols f ++ cols g) in
  mk_frame true cs
    (map (fun t => (t, map (fun c => add_fill (lookup f t c) (lookup g t c)) cs)) idx).

(** The loop of [update] that fetches the renewables per country and keeps
    the non-empty tables. *)
Fixpoint fetch_renewables (st : store V) (model : string) (issue : option Z)
    (countries : list string) : res (list (frame V)) :=
  match countries with
  | [] => Ok []
  | c :: cs =>
      df <- get_renewable_ensembles st model issue (Some (upper c));;
      rest <- fetch_renewables st model issue cs;;
      Ok (if df_empty df then rest else df :: rest)
  end.

(** One step of pandas' [group_sum] for one group: a NaN value is skipped;
    otherwise Kahan summation with the compensation reset to 0 when it is
    NaN (an infinite value). *)
Definition kahan_step (acc : V * V) (v : V) : V * V :=
  let '(sumx, comp) := acc in
  if v_is_nan v then acc else
  let y := v_sub v comp in
  let t := v_add sumx y in
  let comp' := v_sub (v_sub t sumx) y in
  (t, if v_is_nan comp' then v_of_Z 0 else comp').

Definition kahan_sum (vs : list V) : V := fst (fold_left kahan_step vs (v_of_Z 0, v_of_Z 0)).

(** [pd.concat(cons_list).groupby("utc_datetime", as_index=False)
    ["consumption_mw"].sum()]: each group's values, in row order, go
    through [kahan_sum]. *)
Definition sum_consumption (cons_list : list (frame V)) : res (frame V) :=
  if existsb (fun f => mem "consumption_mw" (cols f)) cons_list then
    let pairs := flat_map (fun f => map (fun r => (fst r, get f r "consumption_mw")) (rows f))
                   cons_list in
    let keys := uniq_Z (map fst pairs) in
    Ok (mk_frame true ["consumption_mw"]
          (map (fun t => (t, [kahan_sum (map snd (filter (fun p => Z.eqb (fst p) t) pairs))]))
             keys))
  else Err (KeyError "consumption_mw").

(** [if countries is None or len(countries) == 0: countries = [COUNTRY]]. *)
Definition default_countries (countries : option (list string)) : list string :=
  match countries with
  | None | Some [] => [COUNTRY]
  | Some cs => cs
  end.

(** The body of [update] after [self.current_model = model]: [Ok None] is
    an early [return {}], [Ok (Some b)] the new [self.scenarios]. *)
Definition update_body (st : store V) (model : string) (issue : option Z)
    (countries : option (list string)) (now : Z) : res (option (bundle V)) :=
  let countries := default_countries countries in
  ren_list <- fetch_renewables st model issue countries;;
  match ren_list with
  | [] => Ok None
  | f0 :: fs =>
      let ren_ens := fold_left frame_add fs f0 in
      let cons_list :=
        filter (fun f => negb (df_empty f))
          (map (fun c => get_eq_consumption st issue (Some (lower c))) countries) in
      match cons_list with
      | [] => Ok None
      | _ =>
          consumption <- sum_consumption cons_list;;
          if df_empty consumption then Ok None else
          residual <- compute_residual_scenarios consumption ren_ens model;;
          let first_loc := match countries with c :: _ => upper c | [] => upper COUNTRY end in
          let actual_issue := match issue with
                              | None => get_latest_issue st model "wind" (Some first_loc)
                              | Some i => Some i
                              end in
          d <- model_of model;;
          Ok (Some {| residual_scenarios := residual;
                      consumption := consumption;
                      renewables_ens := ren_ens;
                      metadata := {| m_model := model;
                                     m_model_label := label d;
                                     m_issue := actual_issue;
                                     m_updated_at := now;
                                     m_n_members := n_members d;
                                     m_countries := countries |} |})
      end
  end.

(** [ResidualLoadEngine.update]: the new engine fields and the returned
    dictionary, or the exception raised.  The source reads the clock twice:
    [now] is the [datetime.utcnow()] stored as the metadata's [updated_at],
    [now'] the later one stored in [self.last_update]; [_save_to_disk]
    writes CSV files and changes no field. *)
Definition update (e : engine V) (st : store V) (model : string) (issue : option Z)
    (countries : option (list string)) (now now' : Z) : engine V * res (option (bundle V)) :=
  let e1 := mk_engine (last_update e) (Some model) (scenarios e) in
  match update_body st model issue countries now with
  | Err x => (e1, Err x)
  | Ok None => (e1, Ok None)
  | Ok (Some b) => (mk_engine (Some now') (Some model) (Some b), Ok (Some b))
  end.

(** The literal [0.1]. *)
Definition tenth : V := v_div (v_of_Z 1) (v_of_Z 10).

Definition default_location (countries : option (list string)) (location : option string)
  : string :=
  let location := match location, countries with
                  | None, Some (c :: _) => Some c
                  | l, _ => l
                  end in
  match location with Some l => l | None => COUNTRY end.

(** [ResidualLoadEngine.compute_forecast_delta]. *)
Definition compute_forecast_delta (st : store V) (model element : string)
    (issue_new issue_old valid_start valid_end : Z)
    (countries : option (list string)) (location : option string) : frame V :=
  let location := upper (default_location countries location) in
  let old_df := get_ensemble_by_issue_and_time st model element issue_old
                  valid_start valid_end (Some location) in
  let new_df := get_ensemble_by_issue_and_time st model element issue_new
                  valid_start valid_end (Some location) in
  if df_empty old_df || df_empty new_df then bare else
  let comparison := merge_inner (select old_df ["ens_mean"]) (select new_df ["ens_mean"])
                      "_old" "_new" in
  if df_empty comparison then bare else
  let comparison := set_col comparison "delta"
        (zip_with v_sub (col comparison "ens_mean_new") (col comparison "ens_mean_old")) in
  let comparison := set_col comparison "delta_pct"
        (zip_with (fun d o => v_mul (v_div d (v_add o tenth)) (v_of_Z 100))
           (col comparison "delta") (col comparison "ens_mean_old")) in
  rename_cols (fun c => if String.eqb c "ens_mean_old" then "old_mean"
                        else if String.eqb c "ens_mean_new" then "new_mean" else c)
    comparison.

Definition rename1 (a b : string) (f : frame V) : frame V :=
  rename_cols (fun c => if String.eqb c a then b else c) f.

(** [ResidualLoadEngine.compute_residual_load_delta]. *)
Definition compute_residual_load_delta (st : store V) (model : string)
    (issue_new issue_old valid_start valid_end : Z)
    (countries : option (list string)) (location : option string) : frame V :=
  let location := default_location countries location in
  let wind_delta := compute_forecast_delta st model "wind" issue_new issue_old
                      valid_start valid_end countries (Some location) in
  let solar_delta := compute_forecast_delta st model "solar" issue_new issue_old
                       valid_start valid_end countries (Some location) in
  if df_empty wind_delta && df_empty solar_delta then bare else
  let w := rename1 "delta" "wind_delta" (select wind_delta ["delta"]) in
  let s := rename1 "delta" "solar_delta" (select solar_delta ["delta"]) in
  let result :=
    if negb (df_empty wind_delta) && negb (df_empty solar_delta)
    then merge_outer w s "_x" "_y"
    else if negb (df_empty wind_delta)
    then set_col w "solar_delta" (map (fun _ => v_of_Z 0) (rows w))
    else set_col s "wind_delta" (map (fun _ => v_of_Z 0) (rows s)) in
  if df_empty result then bare else
  let result := sort_rows result in
  let result := set_col result "wind_delta" (map fill0 (col result "wind_delta")) in
  let result := set_col result "solar_delta" (map fill0 (col result "solar_delta")) in
  let result := set_col result "residual_delta"
        (zip_with (fun a b => v_opp (v_add a b))
           (col result "wind_delta") (col result "solar_delta")) in
  set_col result "residual_delta_pct"
    (map (fun r => v_mul (v_div r (v_of_Z 100)) (v_of_Z 100)) (col result "residual_delta")).

End Engine.

(* ------------------------------------------------------------------ *)
(** ** The percentile forecasts and the issue list ([metdesk_db.py]) *)

(** A query of [get_percentile_forecasts] (model, element, issue, location,
    member labels) and the query of [get_available_issues] (model, element,
    location, [n]); [None] is a query that raised. *)
Definition pct_query (V : Type) : Type :=
  string -> string -> Z -> string -> list string -> option (list (long_row V)).
Definition issues_query : Type := string -> string -> string -> nat -> option (list Z).

Local Open Scope string_scope.

(** [METDESK_PERCENTILE_MEMBERS], [METDESK_SPECIAL_MEMBERS]. *)
Definition METDESK_PERCENTILE_MEMBERS : list string :=
  ["0%"; "10%"; "25%"; "40%"; "60%"; "75%"; "90%"; "100%"].
Definition METDESK_SPECIAL_MEMBERS : list string := ["control"; "mean"; "median"].

Local Close Scope string_scope.

Section Percentiles.
Context {V : Type} `{Num V}.
Local Open Scope string_scope.

(** [MetDeskDBClient.get_percentile_forecasts]; [None] when its query
    raises (the method does not catch it).  The latest issue is looked up
    with the default location, whatever [location] is. *)
Definition get_percentile_forecasts (st : store V) (qp : pct_query V) (model element : string)
    (issue : option Z) (location : option string) : option (frame V) :=
  let issue := match issue with
               | Some i => Some i
               | None => get_latest_issue st model element None
               end in
  match issue with
  | None => Some bare
  | Some iss =>
      let members := (METDESK_PERCENTILE_MEMBERS ++ METDESK_SPECIAL_MEMBERS)%list in
      let location := match location with Some l => l | None => COUNTRY end in
      match qp model element iss location members with
      | None => None
      | Some [] => Some bare
      | Some long => Some (sort_rows (pivot_first long))
      end
  end.

(** One step of the percentile loop of [get_renewable_percentiles]. *)
Definition add_total_pct (df : frame V) (pct : string) : frame V :=
  let w_col := "wind_" ++ pct in
  let s_col := "solar_" ++ pct in
  if mem w_col (cols df) && mem s_col (cols df)
  then set_col df ("total_ren_" ++ pct) (zip_with v_add (col df w_col) (col df s_col))
  else df.

(** [MetDeskDBClient.get_renewable_percentiles]. *)
Definition get_renewable_percentiles (st : store V) (qp : pct_query V) (model : string)
    (issue : option Z) : option (frame V) :=
  match get_percentile_forecasts st qp model "wind" issue None with
  | None => None
  | Some wind =>
  match get_percentile_forecasts st qp model "solar" issue None with
  | None => None
  | Some solar =>
      if df_empty wind && df_empty solar then Some bare else
      let wind := if negb (df_empty wind) then rename_cols (fun c => "wind_" ++ c) wind else wind in
      let solar := if negb (df_empty solar) then rename_cols (fun c => "solar_" ++ c) solar else solar in
      if df_empty wind then Some solar
      else if df_empty solar then Some wind
      else
        let df := fillna0 (merge_outer wind solar "_x" "_y") in
        Some (fold_left add_total_pct (METDESK_PERCENTILE_MEMBERS ++ METDESK_SPECIAL_MEMBERS)%list df)
  end
  end.

End Percentiles.

Local Open Scope string_scope.

(** [MetDeskDBClient.get_available_issues]; [None] when its query raises.
    [n_latest] is the non-negative [LIMIT]. *)
Definition get_available_issues (qi : issues_query) (model : string) (element : string)
    (n_latest : nat) (location : option string) : option (list Z) :=
  let location := match location with Some l => l | None => COUNTRY end in
  qi model element location n_latest.

(** [ResidualLoadEngine.get_available_issues]: [if location:] is false for
    [None] and for the empty string; a raised query gives [[]]. *)
Definition engine_get_available_issues (qi : issues_query) (model : string)
    (location : option string) : list Z :=
  let location := match location with
                  | Some l => if String.eqb l "" then Some l else Some (upper l)
                  | None => None
                  end in
  match get_available_issues qi model "wind" 10 location with
  | Some l => l
  | None => []
  end.

Local Close Scope string_scope.

(* ------------------------------------------------------------------ *)
(** ** The SQL of [metdesk_db.py] over in-memory tables

    The queries of the client, read as list programs over the rows of
    [silver.metdesk_forecasts] and [silver.eq_consumption].  Timestamps are
    seconds (UTC); [now] is [CURRENT_TIMESTAMP]. *)

(** A row of [silver.metdesk_forecasts]. *)
Record md_row (V : Type) := mk_md_row {
  md_location : string;
  md_model : string;
  md_element : string;
  md_issue : Z;
  md_utc : Z;
  md_member : string;
  md_value : V
}.
Arguments mk_md_row {V}.
Arguments md_location {V}.
Arguments md_model {V}.
Arguments md_element {V}.
Arguments md_issue {V}.
Arguments md_utc {V}.
Arguments md_member {V}.
Arguments md_value {V}.

(** A row of [silver.eq_consumption]; [None] is SQL [NULL]. *)
Record eq_row (V : Type) := mk_eq_row {
  eq_country : string;
  eq_utc : Z;
  eq_fcst_latest : option V;
  eq_act : option V
}.
Arguments mk_eq_row {V}.
Arguments eq_country {V}.
Arguments eq_utc {V}.
Arguments eq_fcst_latest {V}.
Arguments eq_act {V}.

(** [INTERVAL '2 days'] in seconds. *)
Definition two_days : Z := 172800.

Section Sql.
Context {V : Type} `{Num V}.

(** [WHERE location = :location AND model = :model AND element = :element]. *)
Definition md_where (location model element : string) (r : md_row V) : bool :=
  String.eqb (md_location r) location && String.eqb (md_model r) model
  && String.eqb (md_element r) element.

(** [SELECT MAX(issue) ... LIMIT 1]: [NULL] when no row matches. *)
Definition sql_latest_issue (tbl : list (md_row V)) (model element location : string) : option Z :=
  match map md_issue (filter (md_where location model element) tbl) with
  | [] => None
  | i :: is => Some (fold_left Z.max is i)
  end.

(** [SELECT utc_datetime, member, value]. *)
Definition long_of (r : md_row V) : long_row V := (md_utc r, md_member r, md_value r).

(** [ORDER BY utc_datetime, member]; rows equal on both keys keep the
    order of the table. *)
Definition by_time_member (a b : long_row V) : bool :=
  let '(t1, m1, _) := a in
  let '(t2, m2, _) := b in
  Z.ltb t1 t2 || (Z.eqb t1 t2 && String.leb m1 m2).

(** The query of [get_ensemble_forecasts]. *)
Definition sql_ensemble (tbl : list (md_row V)) (now : Z) (model element : string) (issue : Z)
    (location : string) (members : list string) : list (long_row V) :=
  firstn 50000 (sort_by by_time_member (map long_of (filter (fun r =>
    md_where location model element r && Z.eqb (md_issue r) issue
    && mem (md_member r) members && Z.leb (now - two_days) (md_utc r)) tbl))).

(** The query of [get_ensemble_by_issue_and_time]. *)
Definition sql_issue_time (tbl : list (md_row V)) (model element : string) (issue : Z)
    (location : string) (valid_start valid_end : Z) : list (long_row V) :=
  firstn 50000 (sort_by by_time_member (map long_of (filter (fun r =>
    md_where location model element r && Z.eqb (md_issue r) issue
    && Z.leb valid_start (md_utc r) && Z.leb (md_utc r) valid_end) tbl))).

(** The query of [get_percentile_forecasts]. *)
Definition sql_percentiles (tbl : list (md_row V)) (model element : string) (issue : Z)
    (location : string) (members : list string) : list (long_row V) :=
  sort_by by_time_member (map long_of (filter (fun r =>
    md_where location model element r && Z.eqb (md_issue r) issue
    && mem (md_member r) members) tbl)).

(** The query of [get_available_issues]: [SELECT DISTINCT issue ...
    ORDER BY issue DESC LIMIT :n]. *)
Definition sql_issues (tbl : list (md_row V)) (model element location : string) (n : nat)
  : list Z :=
  firstn n (rev (uniq_Z (map md_issue (filter (md_where location model element) tbl)))).

(** [COALESCE(consumption_fcst_latest, consumption_act)]; [NULL] reads as NaN. *)
Definition coalesce (a b : option V) : V :=
  match a with
  | Some x => x
  | None => match b with Some y => y | None => v_nan end
  end.

(** The query of [get_eq_consumption]: the rows of the last two days,
    [ORDER BY utc_datetime DESC LIMIT 500]. *)
Definition sql_consumption (tbl : list (eq_row V)) (now : Z) (location : string)
  : list (Z * V) :=
  firstn 500 (sort_by (fun a b => Z.leb (fst b) (fst a))
    (map (fun r => (eq_utc r, coalesce (eq_fcst_latest r) (eq_act r)))
       (filter (fun r => String.eqb (lower (eq_country r)) location
                         && Z.leb (now - two_days) (eq_utc r)) tbl))).

(** The client's queries answered from the two tables at time [now]. *)
Definition metdesk_store (tbl : list (md_row V)) (eqt : list (eq_row V)) (now : Z) : store V := {|
  q_latest_issue := fun model element location => sql_latest_issue tbl model element location;
  q_ensemble := fun model element issue location members =>
    Some (sql_ensemble tbl now model element issue location members);
  q_issue_time := fun model element issue location vs ve =>
    Some (sql_issue_time tbl model element issue location vs ve);
  q_consumption := fun location => Some (sql_consumption eqt now location) |}.

Definition metdesk_pct_query (tbl : list (md_row V)) : pct_query V :=
  fun model element issue location members =>
    Some (sql_percentiles tbl model element issue location members).

End Sql.

Definition metdesk_issues_query {V} (tbl : list (md_row V)) : issues_query :=
  fun model element location n => Some (sql_issues tbl model element location n).

(* ================================================================== *)
(** * Vocabulary of the properties *)

Section Vocabulary.
Context {V : Type} `{Num V}.
Local Open Scope string_scope.

(** The shape invariant of a DataFrame: every row has one cell per column. *)
Definition wf (f : frame V) : Prop :=
  Forall (fun r => List.length (snd r) = List.length (cols f)) (rows f).

(** A DataFrame with its [utc_datetime] column and rows of the right width. *)
Definition table_ok (f : frame V) : Prop := key_col f = true /\ wf f.

(** The column the member loop of [_compute_residual_scenarios] writes for
    member [i]: [merged["consumption_mw"] - merged[f"total_ren_ens_{i:02d}"]]. *)
Definition residual_of (merged : frame V) (i : nat) : list V :=
  zip_with v_sub (col merged "consumption_mw") (col merged (total_name i)).

(** [update] returns [{}] early: every requested country's renewables fetch
    gives an empty table, or every fetch succeeds and every consumption
    fetch gives an empty table. *)
Definition update_aborts (st : store V) (model : string) (issue : option Z)
    (countries : option (list string)) : Prop :=
  let cs := default_countries countries in
  (forall c, In c cs ->
     exists f, get_renewable_ensembles st model issue (Some (upper c)) = Ok f /\ df_empty f = true)
  \/ ((forall c, In c cs -> exists f, get_renewable_ensembles st model issue (Some (upper c)) = Ok f)
      /\ (forall c, In c cs -> df_empty (get_eq_consumption st issue (Some (lower c))) = true)).

(** A frame as every fetch of the client returns it: strictly increasing
    timestamps, and rows of the right width. *)
Definition shaped (f : frame V) : Prop := Sorted Z.lt (times f) /\ wf f.

(** One step of the loops that add [total_ren_*] columns: the column [tn k]
    is [w k + s k] when both exist. *)
Definition total_step {K} (w s tn : K -> string) (df : frame V) (k : K) : frame V :=
  if mem (w k) (cols df) && mem (s k) (cols df)
  then set_col df (tn k) (zip_with v_add (col df (w k)) (col df (s k)))
  else df.

End Vocabulary.

(** The non-NaN values of a row, in order. *)
Definition some_vals (vs : list (option Q)) : list Q :=
  flat_map (fun v => match v with Some x => [x] | None => [] end) vs.


(* ------------------------------------------------------------------ *)
(** ** Concrete inputs *)

Section Inputs.
Local Open Scope string_scope.

(** Consumption 100, 110, 120, 130 MW at hours 0..3. *)
Definition cons1 : frame float :=
  mk_frame true ["consumption_mw"]
    [(0%Z, [100%float]); (1%Z, [110%float]); (2%Z, [120%float]); (3%Z, [130%float])].

(** Two members with constant renewables totals 10 and 20 at hours 0..3. *)
Definition ren1 : frame float :=
  mk_frame true ["total_ren_ens_01"; "total_ren_ens_02"]
    [(0%Z, [10%float; 20%float]); (1%Z, [10%float; 20%float]);
     (2%Z, [10%float; 20%float]); (3%Z, [10%float; 20%float])].


(** The same hour with a consumption of 5. *)
Definition cons5q : frame (option Q) := mk_frame true ["consumption_mw"] [(0%Z, [Some 5%Q])].



(** A store whose every query finds nothing. *)
Definition empty_store {V : Type} : store V := {|
  q_latest_issue := fun _ _ _ => None;
  q_ensemble := fun _ _ _ _ _ => None;
  q_issue_time := fun _ _ _ _ _ _ => None;
  q_consumption := fun _ => None |}.

(** Wind member 1 at hour 0 (10 MW), no solar row, consumption 100 MW. *)
Definition wind_only_store : store float := {|
  q_latest_issue := fun _ _ _ => Some 0%Z;
  q_ensemble := fun _ el _ _ _ =>
    if String.eqb el "wind" then Some [(0%Z, "1", 10%float)] else Some [];
  q_issue_time := fun _ _ _ _ _ _ => None;
  q_consumption := fun _ => Some [(0%Z, 100%float)] |}.

(** Member 1 of the wind and solar runs of issue 1 (old) and issue 2 (new),
    as [(hour, value)] rows. *)
Definition delta_store (w_old w_new s_old s_new : list (Z * float)) : store float := {|
  q_latest_issue := fun _ _ _ => Some 0%Z;
  q_ensemble := fun _ _ _ _ _ => None;
  q_issue_time := fun _ el iss _ _ _ =>
    let vs := if String.eqb el "wind" then (if Z.eqb iss 1 then w_old else w_new)
              else (if Z.eqb iss 1 then s_old else s_new) in
    Some (map (fun '(t, v) => (t, "1", v)) vs);
  q_consumption := fun _ => None |}.

(** An engine holding the scenarios of an [eceps] run. *)
Definition bundle_eceps : bundle float := {|
  residual_scenarios := bare;
  consumption := bare;
  renewables_ens := bare;
  metadata := {| m_model := "eceps"; m_model_label := "ECMWF ENS (eceps)";
                 m_issue := Some 0%Z; m_updated_at := 0%Z; m_n_members := 50;
                 m_countries := ["FR"] |} |}.

Definition engine_eceps : engine float := mk_engine (Some 0%Z) (Some "eceps") (Some bundle_eceps).

(** One wind row of member 1 at hour 0 (10 MW) in the forecasts table. *)
Definition one_row_tbl : list (md_row float) :=
  [mk_md_row "FR" "eceps" "wind" 0%Z 0%Z "1" 10%float].

(** Wind member 1 at hour 0 (10 MW), solar member 1 at hour 1 (5 MW). *)
Definition both_store : store float := {|
  q_latest_issue := fun _ _ _ => Some 0%Z;
  q_ensemble := fun _ el _ _ _ =>
    if String.eqb el "wind" then Some [(0%Z, "1", 10%float)] else Some [(1%Z, "1", 5%float)];
  q_issue_time := fun _ _ _ _ _ _ => None;
  q_consumption := fun _ => Some [(0%Z, 100%float)] |}.

(** The [10%] member of the wind (1 MW) and solar (2 MW) runs at hour 0. *)
Definition pct_tbl : list (md_row float) :=
  [mk_md_row "FR" "eceps" "wind" 0%Z 0%Z "10%" 1%float;
   mk_md_row "FR" "eceps" "solar" 0%Z 0%Z "10%" 2%float].

End Inputs.

(* ================================================================== *)
(** * Lemmas on frames *)

Section FrameLemmas.
Context {V : Type} `{Num V}.

Lemma index_of_lt n l i : index_of n l = Some i -> i < List.length l.
Proof.
  revert i; induction l as [|x t IH]; simpl; intros i Hi; [discriminate|].
  destruct (String.eqb n x); [injection Hi as <-; lia|].
  destruct (index_of n t) eqn:E; simpl in Hi; [|discriminate].
  injection Hi as <-. specialize (IH _ eq_refl). lia.
Qed.

Lemma index_of_spec n l i : index_of n l = Some i -> nth_error l i = Some n.
Proof.
  revert i; induction l as [|x t IH]; simpl; intros i Hi; [discriminate|].
  destruct (String.eqb n x) eqn:E.
  - injection Hi as <-. apply String.eqb_eq in E. now subst.
  - destruct (index_of n t) eqn:E2; simpl in Hi; [|discriminate].
    injection Hi as <-. simpl. now apply IH.
Qed.

Lemma index_of_None n l : index_of n l = None <-> ~ In n l.
Proof.
  induction l as [|x t IH]; simpl; [tauto|].
  destruct (String.eqb n x) eqn:E.
  - apply String.eqb_eq in E; subst. split; [discriminate|]. intros C; now elim C; left.
  - apply String.eqb_neq in E. destruct (index_of n t); simpl.
    + split; [discriminate|]. intros C. exfalso. apply C. right.
      destruct (in_dec String.string_dec n t) as [Hin|Hin]; [exact Hin|].
      apply IH in Hin. discriminate.
    + split; [|reflexivity]. intros _ [C|C]; [now apply E|]. now apply IH in C.
Qed.

Lemma mem_In n l : mem n l = true <-> In n l.
Proof.
  unfold mem. rewrite existsb_exists. split.
  - intros [x [Hx E]]. apply String.eqb_eq in E. now subst.
  - intros Hn. exists n. split; [exact Hn|]. apply String.eqb_refl.
Qed.

Lemma index_of_app_new n l : ~ In n l -> index_of n (l ++ [n]) = Some (List.length l).
Proof.
  induction l as [|x t IH]; simpl; intros Hn.
  - now rewrite String.eqb_refl.
  - destruct (String.eqb n x) eqn:E.
    + apply String.eqb_eq in E. subst. exfalso. apply Hn. now left.
    + rewrite IH; [reflexivity|]. intros C; apply Hn; now right.
Qed.

Lemma index_of_app_other m n l : m <> n -> index_of m (l ++ [n]) = index_of m l.
Proof.
  intros Hmn. induction l as [|x t IH]; simpl.
  - apply String.eqb_neq in Hmn. now rewrite Hmn.
  - destruct (String.eqb m x); [reflexivity|]. now rewrite IH.
Qed.

Lemma index_of_inj m n l i : index_of m l = Some i -> index_of n l = Some i -> m = n.
Proof.
  intros Hm Hn. apply index_of_spec in Hm, Hn. congruence.
Qed.

Lemma length_replace_nth i (x : V) l : List.length (replace_nth i x l) = List.length l.
Proof. revert i; induction l; intros [|i]; simpl; auto. Qed.

Lemma cell_replace_same i (x : V) l : i < List.length l -> cell (replace_nth i x l) i = x.
Proof.
  unfold cell. revert i; induction l as [|y t IH]; intros [|i]; simpl; intros Hi; try lia; auto.
  apply IH. lia.
Qed.

Lemma cell_replace_other i j (x : V) l : i <> j -> cell (replace_nth i x l) j = cell l j.
Proof.
  unfold cell. revert i j; induction l as [|y t IH]; intros [|i] [|j]; simpl; intros Hij;
    auto; try lia; apply IH; lia.
Qed.

Lemma cell_app_lt (l : list V) x i : i < List.length l -> cell (l ++ [x]) i = cell l i.
Proof. intros Hi. unfold cell. now rewrite app_nth1. Qed.

Lemma cell_app_end (l : list V) x : cell (l ++ [x]) (List.length l) = x.
Proof. unfold cell. rewrite app_nth2 by lia. now rewrite Nat.sub_diag. Qed.

Lemma length_col (f : frame V) n : List.length (col f n) = List.length (rows f).
Proof. unfold col. now rewrite length_map. Qed.

Lemma times_set_col (f : frame V) n vals :
  List.length vals = List.length (rows f) -> times (set_col f n vals) = times f.
Proof.
  unfold times, set_col. intros Hl.
  destruct (index_of n (cols f)); simpl; rewrite map_map;
  (revert vals Hl; induction (rows f) as [|r t IH]; intros [|v vs] Hl; simpl in *;
    try discriminate; auto; f_equal; apply IH; lia).
Qed.

Lemma length_rows_set_col (f : frame V) n vals :
  List.length vals = List.length (rows f) ->
  List.length (rows (set_col f n vals)) = List.length (rows f).
Proof.
  intros Hl. pose proof (times_set_col f n vals Hl) as E. unfold times in E.
  rewrite <- (length_map fst (rows (set_col f n vals))), E. apply length_map.
Qed.

Lemma cols_set_col_In (f : frame V) n m vals : In m (cols f) -> In m (cols (set_col f n vals)).
Proof.
  unfold set_col. destruct (index_of n (cols f)); simpl; auto.
  intros. apply in_or_app; now left.
Qed.

Lemma cols_set_col_self (f : frame V) n vals : In n (cols (set_col f n vals)).
Proof.
  unfold set_col. destruct (index_of n (cols f)) eqn:E; simpl.
  - apply index_of_spec in E. eapply nth_error_In; eauto.
  - apply in_or_app; right; now left.
Qed.

Lemma cols_set_col_inv (f : frame V) n m vals : In m (cols (set_col f n vals)) -> In m (cols f) \/ m = n.
Proof.
  unfold set_col. destruct (index_of n (cols f)); simpl; auto.
  intros Hm. apply in_app_or in Hm as [Hm|[Hm|[]]]; auto.
Qed.

Lemma key_col_set_col (f : frame V) n vals : key_col (set_col f n vals) = key_col f.
Proof. unfold set_col. now destruct (index_of n (cols f)). Qed.

Lemma wf_set_col (f : frame V) n vals :
  wf f -> List.length vals = List.length (rows f) -> wf (set_col f n vals).
Proof.
  unfold wf, set_col. intros Hwf Hl.
  destruct (index_of n (cols f)) eqn:E; simpl.
  - revert vals Hl; induction Hwf as [|r rs Hr Hrs IH]; intros [|v vs] Hl; simpl in *;
      try discriminate; constructor; auto.
    simpl. now rewrite length_replace_nth.
  - revert vals Hl; induction Hwf as [|r rs Hr Hrs IH]; intros [|v vs] Hl; simpl in *;
      try discriminate; constructor; auto.
    simpl. rewrite !length_app, Hr. reflexivity.
Qed.

Lemma col_set_col_same (f : frame V) n vals :
  wf f -> List.length vals = List.length (rows f) -> col (set_col f n vals) n = vals.
Proof.
  unfold wf, col, get, set_col. intros Hwf Hl.
  destruct (index_of n (cols f)) eqn:E; simpl.
  - rewrite E. apply index_of_lt in E.
    revert vals Hl; induction Hwf as [|r rs Hr Hrs IH]; intros [|v vs] Hl; simpl in *;
      try discriminate; auto.
    f_equal; [apply cell_replace_same; lia|]. apply IH; lia.
  - rewrite index_of_app_new by (now apply index_of_None).
    revert vals Hl; induction Hwf as [|r rs Hr Hrs IH]; intros [|v vs] Hl; simpl in *;
      try discriminate; auto.
    f_equal; [rewrite <- Hr; apply cell_app_end|]. apply IH; lia.
Qed.

Lemma col_set_col_other (f : frame V) n m vals :
  wf f -> List.length vals = List.length (rows f) -> m <> n ->
  col (set_col f n vals) m = col f m.
Proof.
  unfold wf, col, get, set_col. intros Hwf Hl Hmn.
  destruct (index_of n (cols f)) eqn:E; simpl.
  - destruct (index_of m (cols f)) eqn:Em.
    + assert (n0 <> n1) by (intros ->; apply Hmn; eapply index_of_inj; eauto).
      revert vals Hl; induction Hwf as [|r rs Hr Hrs IH]; intros [|v vs] Hl; simpl in *;
        try discriminate; auto.
      f_equal; [now apply cell_replace_other|]. apply IH; lia.
    + revert vals Hl; induction Hwf as [|r rs Hr Hrs IH]; intros [|v vs] Hl; simpl in *;
        try discriminate; auto.
      f_equal. apply IH; lia.
  - rewrite index_of_app_other by exact Hmn.
    destruct (index_of m (cols f)) eqn:Em.
    + apply index_of_lt in Em.
      revert vals Hl; induction Hwf as [|r rs Hr Hrs IH]; intros [|v vs] Hl; simpl in *;
        try discriminate; auto.
      f_equal; [apply cell_app_lt; lia|]. apply IH; lia.
    + revert vals Hl; induction Hwf as [|r rs Hr Hrs IH]; intros [|v vs] Hl; simpl in *;
        try discriminate; auto.
      f_equal. apply IH; lia.
Qed.

End FrameLemmas.

(* ------------------------------------------------------------------ *)
(** ** Structure of [_compute_residual_scenarios] *)

Section ResidualLemmas.
Context {V : Type} `{Num V}.
Local Open Scope string_scope.

Lemma wf_merge_inner (l r : frame V) sl sr :
  wf l -> wf r -> wf (merge_inner l r sl sr).
Proof.
  unfold wf, merge_inner, merge_cols; simpl. intros Hl Hr.
  apply Forall_forall. intros x Hx. apply in_flat_map in Hx as [lr [Hlr Hx]].
  apply in_map_iff in Hx as [rr [<- Hrr]]. unfold rows_at in Hrr.
  apply filter_In in Hrr as [Hrr _]. simpl.
  rewrite Forall_forall in Hl, Hr.
  rewrite length_app, (Hl _ Hlr), (Hr _ Hrr), length_app, !length_map. reflexivity.
Qed.

Lemma col_vals_In (f : frame V) n : In n (cols f) -> col_vals f n = Ok (col f n).
Proof.
  unfold col_vals, col, get. intros Hn.
  destruct (index_of n (cols f)) eqn:E; [reflexivity|].
  apply index_of_None in E. contradiction.
Qed.

Lemma nth_error_col (f : frame V) m k r :
  nth_error (rows f) k = Some r -> nth_error (col f m) k = Some (get f r m).
Proof. unfold col. intros E. now rewrite nth_error_map, E. Qed.

Lemma length_zip_with {A B C} (g : A -> B -> C) l1 l2 :
  List.length (zip_with g l1 l2) = Nat.min (List.length l1) (List.length l2).
Proof. unfold zip_with. now rewrite length_map, length_combine. Qed.

Lemma residual_name_inj_total i j : residual_name i = residual_name j -> total_name i = total_name j.
Proof.
  unfold residual_name, total_name. simpl. intros E.
  repeat (injection E as E). now rewrite E.
Qed.

Lemma residual_name_not_ens i x : residual_name i <> "ens_" ++ x.
Proof. unfold residual_name. simpl. discriminate. Qed.

Lemma add_residuals_spec (merged : frame V) idx (result : frame V) ecs :
  wf merged -> In "consumption_mw" (cols merged) -> wf result ->
  List.length (rows result) = List.length (rows merged) ->
  (forall i, In (residual_name i) (cols result) -> col result (residual_name i) = residual_of merged i) ->
  exists result',
    add_residuals merged idx (result, ecs)
      = Ok (result', (ecs ++ map residual_name (filter (fun i => mem (total_name i) (cols merged)) idx))%list)
    /\ wf result'
    /\ List.length (rows result') = List.length (rows merged)
    /\ times result' = times result
    /\ (forall m, In m (cols result) -> In m (cols result'))
    /\ (forall i, In i idx -> In (total_name i) (cols merged) -> In (residual_name i) (cols result'))
    /\ (forall i, In (residual_name i) (cols result') -> col result' (residual_name i) = residual_of merged i).
Proof.
  intros Hm Hc. revert result ecs.
  induction idx as [|i idx IH]; intros result ecs Hwf Hlen Hinv.
  - exists result. simpl. rewrite app_nil_r. repeat split; auto. intros i [].
  - simpl. destruct (mem (total_name i) (cols merged)) eqn:Ei.
    + assert (Ht : In (total_name i) (cols merged)) by now apply mem_In.
      rewrite (col_vals_In _ _ Hc), (col_vals_In _ _ Ht). simpl.
      set (vals := zip_with v_sub (col merged "consumption_mw") (col merged (total_name i))).
      assert (Hvl : List.length vals = List.length (rows result)).
      { unfold vals. rewrite length_zip_with, !length_col. lia. }
      destruct (IH (set_col result (residual_name i) vals) (ecs ++ [residual_name i])%list)
        as [r' [Hr' [Hwf' [Hlen' [Ht' [Hsub [Hin Hinv']]]]]]].
      * now apply wf_set_col.
      * rewrite length_rows_set_col; auto.
      * intros j Hj. destruct (String.string_dec (residual_name j) (residual_name i)) as [E|E].
        -- rewrite E, col_set_col_same by auto. unfold residual_of.
           now rewrite (residual_name_inj_total _ _ E).
        -- rewrite col_set_col_other by auto. apply Hinv.
           destruct (cols_set_col_inv _ _ _ _ Hj) as [Hj'|Hj']; [exact Hj'|contradiction].
      * exists r'. rewrite Hr', <- app_assoc. repeat split; auto.
        -- rewrite Ht'. now apply times_set_col.
        -- intros m Hm'. apply Hsub. now apply cols_set_col_In.
        -- intros j [<-|Hj] Hjt; [|now apply Hin].
           apply Hsub, cols_set_col_self.
    + destruct (IH result ecs Hwf Hlen Hinv)
        as [r' [Hr' [Hwf' [Hlen' [Ht' [Hsub [Hin Hinv']]]]]]].
      exists r'. rewrite Hr'. repeat split; auto.
      intros j [<-|Hj] Hjt; [|now apply Hin].
      apply mem_In in Hjt. congruence.
Qed.

(** Setting several columns in a row, each name once. *)
Lemma fold_set_col_spec (ps : list nat) (name : nat -> string) (F : nat -> list V) (acc : frame V) :
  wf acc -> NoDup (map name ps) ->
  (forall p, List.length (F p) = List.length (rows acc)) ->
  let acc' := fold_left (fun a p => set_col a (name p) (F p)) ps acc in
  wf acc' /\ times acc' = times acc
  /\ (forall m, In m (cols acc) -> In m (cols acc'))
  /\ (forall p, In p ps -> In (name p) (cols acc') /\ col acc' (name p) = F p)
  /\ (forall m, ~ In m (map name ps) -> col acc' m = col acc m).
Proof.
  revert acc. induction ps as [|p ps IH]; intros acc Hwf Hnd HF; simpl.
  - split; [auto|]. split; [auto|]. split; [auto|]. split; [intros ? []|auto].
  - inversion Hnd as [|? ? Hp Hnd']; subst.
    set (a1 := set_col acc (name p) (F p)).
    assert (Hl1 : List.length (rows a1) = List.length (rows acc)) by (apply length_rows_set_col, HF).
    destruct (IH a1) as [Hwf' [Ht' [Hsub [Hps Hoth]]]]; auto.
    { now apply wf_set_col. }
    { intros q. rewrite Hl1. apply HF. }
    split; [exact Hwf'|]. split; [|split; [|split]].
    + rewrite Ht'. apply times_set_col, HF.
    + intros m Hm. apply Hsub. now apply cols_set_col_In.
    + intros q [<-|Hq]; [|now apply Hps]. split; [apply Hsub, cols_set_col_self|].
      rewrite Hoth by exact Hp. apply col_set_col_same; auto.
    + intros m Hm. rewrite Hoth by (intros C; apply Hm; now right).
      apply col_set_col_other; [auto|auto|]. intros ->. apply Hm. now left.
Qed.

Lemma pct_names_nodup : NoDup (map pct_name pct_levels).
Proof. vm_compute. repeat constructor; simpl; intuition discriminate. Qed.

Lemma residual_name_not_pct i p : residual_name i <> pct_name p.
Proof. unfold residual_name, pct_name. simpl. discriminate. Qed.

Lemma length_rows_times (f g : frame V) :
  times f = times g -> List.length (rows f) = List.length (rows g).
Proof.
  unfold times. intros E. rewrite <- (length_map fst (rows f)), E. apply length_map.
Qed.

Lemma add_stats_spec (result : frame V) ecs :
  wf result -> Forall (fun m => exists i, m = residual_name i) ecs ->
  let res := add_stats result ecs in
  wf res /\ times res = times result
  /\ (forall m, In m (cols result) -> In m (cols res))
  /\ (forall i, col res (residual_name i) = col result (residual_name i))
  /\ (forall p, In p pct_levels ->
        In (pct_name p) (cols res)
        /\ forall k r, nth_error (rows res) k = Some r ->
             get res r (pct_name p) = nanpercentile (map (get res r) ecs) p).
Proof.
  intros Hwf Hecs res.
  set (values := map (fun r => map (get result r) ecs) (rows result)).
  assert (Hv : forall (g : list V -> V), List.length (map g values) = List.length (rows result)).
  { intros g. unfold values. now rewrite !length_map. }
  set (pw := Nat.eqb (List.length values) 1).
  set (r1 := set_col result "ens_mean" (map (nanmean pw) values)).
  set (r2 := set_col r1 "ens_std" (map (nanstd pw) values)).
  set (r3 := set_col r2 "ens_min" (map nanmin values)).
  set (r4 := set_col r3 "ens_max" (map nanmax values)).
  assert (L1 : List.length (rows r1) = List.length (rows result)) by (apply length_rows_set_col, Hv).
  assert (L2 : List.length (rows r2) = List.length (rows result)).
  { rewrite <- L1. unfold r2. apply length_rows_set_col. rewrite L1. apply Hv. }
  assert (L3 : List.length (rows r3) = List.length (rows result)).
  { rewrite <- L2. unfold r3. apply length_rows_set_col. rewrite L2. apply Hv. }
  assert (L4 : List.length (rows r4) = List.length (rows result)).
  { rewrite <- L3. unfold r4. apply length_rows_set_col. rewrite L3. apply Hv. }
  assert (W1 : wf r1) by (apply wf_set_col; auto).
  assert (W2 : wf r2) by (apply wf_set_col; [exact W1|rewrite L1; apply Hv]).
  assert (W3 : wf r3) by (apply wf_set_col; [exact W2|rewrite L2; apply Hv]).
  assert (W4 : wf r4) by (apply wf_set_col; [exact W3|rewrite L3; apply Hv]).
  assert (T4 : times r4 = times result).
  { transitivity (times r3). { unfold r4. apply times_set_col. rewrite L3. apply Hv. }
    transitivity (times r2). { unfold r3. apply times_set_col. rewrite L2. apply Hv. }
    transitivity (times r1). { unfold r2. apply times_set_col. rewrite L1. apply Hv. }
    unfold r1. apply times_set_col. apply Hv. }
  assert (C4 : forall i, col r4 (residual_name i) = col result (residual_name i)).
  { intros i.
    transitivity (col r3 (residual_name i)).
    { unfold r4. apply col_set_col_other; [exact W3|rewrite L3; apply Hv|].
      apply (residual_name_not_ens i "max"). }
    transitivity (col r2 (residual_name i)).
    { unfold r3. apply col_set_col_other; [exact W2|rewrite L2; apply Hv|].
      apply (residual_name_not_ens i "min"). }
    transitivity (col r1 (residual_name i)).
    { unfold r2. apply col_set_col_other; [exact W1|rewrite L1; apply Hv|].
      apply (residual_name_not_ens i "std"). }
    unfold r1. apply col_set_col_other; [exact Hwf|apply Hv|].
    apply (residual_name_not_ens i "mean"). }
  assert (S4 : forall m, In m (cols result) -> In m (cols r4)).
  { intros m Hm. unfold r4, r3, r2, r1. now do 4 apply cols_set_col_In. }
  destruct (fold_set_col_spec pct_levels pct_name
              (fun p => map (fun vs => nanpercentile vs p) values) r4 W4 pct_names_nodup)
    as [Wf [Tf [Sf [Pf Of]]]].
  { intros p. rewrite L4. apply Hv. }
  assert (Eres : res = fold_left (fun a p => set_col a (pct_name p)
                        (map (fun vs => nanpercentile vs p) values)) pct_levels r4)
    by reflexivity.
  rewrite <- Eres in Wf, Tf, Sf, Pf, Of. clearbody res.
  assert (Cres : forall i, col res (residual_name i) = col result (residual_name i)).
  { intros i. rewrite Of; [apply C4|]. intros Hin. apply in_map_iff in Hin as [p [Hp _]].
    now apply (residual_name_not_pct i p). }
  split; [exact Wf|]. split; [congruence|]. split; [auto|]. split; [exact Cres|].
  intros p Hp. destruct (Pf p Hp) as [Hin Hcol]. split; [exact Hin|].
  intros k r Hk.
  assert (Hlt : k < List.length (rows result)).
  { rewrite <- (length_rows_times res result) by congruence.
    apply nth_error_Some. congruence. }
  destruct (nth_error (rows result) k) as [r0|] eqn:E0;
    [|apply nth_error_None in E0; lia].
  pose proof (nth_error_col res (pct_name p) k r Hk) as E1.
  rewrite Hcol, nth_error_map in E1. unfold values in E1.
  rewrite nth_error_map, E0 in E1. simpl in E1. injection E1 as E1. rewrite <- E1.
  f_equal. apply map_ext_in. intros m Hm. rewrite Forall_forall in Hecs.
  destruct (Hecs m Hm) as [i ->].
  pose proof (nth_error_col result (residual_name i) k r0 E0) as A.
  pose proof (nth_error_col res (residual_name i) k r Hk) as B.
  rewrite Cres in B. congruence.
Qed.

Lemma df_empty_false (f : frame V) : key_col f = true -> rows f <> [] -> df_empty f = false.
Proof. unfold df_empty. intros Hk Hr. destruct (rows f); [congruence|]. now rewrite Hk. Qed.

Lemma merge_inner_rows_nonempty (l r : frame V) sl sr :
  rows (merge_inner l r sl sr) <> [] -> rows l <> [] /\ rows r <> [].
Proof.
  unfold merge_inner; simpl. intros Hne. split.
  - intros E. apply Hne. now rewrite E.
  - intros E. apply Hne. unfold rows_at. rewrite E. simpl. clear Hne.
    induction (rows l) as [|a t IH]; simpl; auto.
Qed.

Lemma In_merge_cols_left c lc rc sl sr :
  In c lc -> ~ In c rc -> In c (merge_cols lc rc sl sr).
Proof.
  intros Hl Hr. unfold merge_cols. apply in_or_app. left.
  apply in_map_iff. exists c. split; [|exact Hl].
  destruct (mem c rc) eqn:E; [apply mem_In in E; contradiction|reflexivity].
Qed.

Lemma compute_residual_spec (cons ren : frame V) model d :
  table_ok cons -> table_ok ren ->
  In "consumption_mw" (cols cons) -> ~ In "consumption_mw" (cols ren) ->
  AVAILABLE_MODELS model = Some d ->
  rows (merge_inner cons ren "_x" "_y") <> [] ->
  let merged := merge_inner cons ren "_x" "_y" in
  let ens_cols := map residual_name
                    (filter (fun i => mem (total_name i) (cols merged)) (seq 1 (n_members d))) in
  exists res,
    compute_residual_scenarios cons ren model = Ok res
    /\ wf res /\ times res = times merged
    /\ (forall i, 1 <= i <= n_members d -> In (total_name i) (cols merged) ->
          In (residual_name i) (cols res) /\ col res (residual_name i) = residual_of merged i)
    /\ (ens_cols <> [] -> forall p, In p pct_levels ->
          In (pct_name p) (cols res)
          /\ forall k r, nth_error (rows res) k = Some r ->
               get res r (pct_name p) = nanpercentile (map (get res r) ens_cols) p).
Proof.
  intros [Hkc Hwc] [Hkr Hwr] Hcc Hcr Hd Hne merged ens_cols.
  destruct (merge_inner_rows_nonempty _ _ _ _ Hne) as [Hnc Hnr].
  unfold compute_residual_scenarios.
  rewrite (df_empty_false cons Hkc Hnc), (df_empty_false ren Hkr Hnr).
  fold merged. rewrite (df_empty_false merged eq_refl Hne).
  assert (Hmo : model_of model = Ok d) by (unfold model_of; now rewrite Hd).
  rewrite Hmo. cbn [bind].
  set (result0 := mk_frame (V:=V) true [] (map (fun r : Z * list V => (fst r, [])) (rows merged))).
  assert (Hwm : wf merged) by (apply wf_merge_inner; auto).
  assert (Hcm : In "consumption_mw" (cols merged)).
  { unfold merged, merge_inner; simpl. now apply In_merge_cols_left. }
  assert (W0 : wf result0).
  { unfold wf, result0; simpl. apply Forall_forall. intros x Hx.
    apply in_map_iff in Hx as [? [<- _]]. reflexivity. }
  assert (L0 : List.length (rows result0) = List.length (rows merged)).
  { unfold result0; simpl. apply length_map. }
  assert (T0 : times result0 = times merged).
  { unfold times, result0; simpl. now rewrite map_map. }
  destruct (add_residuals_spec merged (seq 1 (n_members d)) result0 [] Hwm Hcm W0 L0)
    as [r' [Hr' [Wr [Lr [Tr [Sr [Inr Cr]]]]]]].
  { intros i []. }
  rewrite Hr'. cbn [bind app]. fold ens_cols.
  assert (Hres : forall i, 1 <= i <= n_members d -> In (total_name i) (cols merged) ->
            In (residual_name i) (cols r') /\ col r' (residual_name i) = residual_of merged i).
  { intros i Hi Ht. assert (Hin : In (residual_name i) (cols r')).
    { apply Inr; [apply in_seq; lia|exact Ht]. }
    split; [exact Hin|]. now apply Cr. }
  destruct ens_cols as [|e es] eqn:Hec.
  - exists r'. split; [reflexivity|]. split; [exact Wr|]. split; [rewrite Tr; exact T0|].
    split; [exact Hres|]. intros C; now elim C.
  - assert (Hf : Forall (fun m => exists i, m = residual_name i) (e :: es)).
    { rewrite <- Hec. unfold ens_cols. apply Forall_forall. intros m Hm.
      apply in_map_iff in Hm as [i [<- _]]. now exists i. }
    destruct (add_stats_spec r' (e :: es) Wr Hf) as [Ws [Ts [Ss [Cs Ps]]]].
    exists (add_stats r' (e :: es)). split; [reflexivity|]. split; [exact Ws|].
    split; [rewrite Ts, Tr; exact T0|]. split.
    + intros i Hi Ht. destruct (Hres i Hi Ht) as [Hin Hc]. split; [now apply Ss|].
      transitivity (col r' (residual_name i)); [exact (Cs i)|exact Hc].
    + intros _. exact Ps.
Qed.

End ResidualLemmas.

(* ------------------------------------------------------------------ *)
(** ** Percentiles in exact arithmetic *)

Section PercentileExact.

Lemma non_nan_exact (vs : list (option Q)) : non_nan vs = map Some (some_vals vs).
Proof.
  unfold non_nan. induction vs as [|[x|] t IH]; [reflexivity| |]; simpl in IH |- *; now rewrite IH.
Qed.




























Lemma nanpercentile_all_nan (vs : list (option Q)) p :
  some_vals vs = [] -> nanpercentile vs p = None.
Proof. intros E. unfold nanpercentile. now rewrite non_nan_exact, E. Qed.
End PercentileExact.

(* ------------------------------------------------------------------ *)
(** ** The inner merge and the rows of the scenario table *)

Section MergeLemmas.
Context {V : Type} `{Num V}.

Lemma rows_at_In (f : frame V) t r : In r (rows_at f t) -> In r (rows f) /\ fst r = t.
Proof. unfold rows_at. intros Hr. apply filter_In in Hr as [Hr E]. split; [exact Hr|]. now apply Z.eqb_eq. Qed.

Lemma rows_at_small (f : frame V) t : NoDup (times f) -> List.length (rows_at f t) <= 1.
Proof.
  unfold rows_at, times. induction (rows f) as [|a l IH]; simpl; [lia|].
  intros Hn. inversion Hn as [|? ? Ha Hl]; subst.
  destruct (Z.eqb (fst a) t) eqn:E; simpl; [|now apply IH].
  apply Z.eqb_eq in E. subst t.
  enough (filter (fun r => Z.eqb (fst r) (fst a)) l = []) as -> by (simpl; lia).
  destruct (filter (fun r => Z.eqb (fst r) (fst a)) l) as [|b k] eqn:F; [reflexivity|].
  exfalso. assert (Hb : In b (filter (fun r => Z.eqb (fst r) (fst a)) l)) by (rewrite F; now left).
  apply filter_In in Hb as [Hb Eb]. apply Z.eqb_eq in Eb. apply Ha. rewrite <- Eb. now apply in_map.
Qed.

Lemma merge_inner_times_In (l r : frame V) sl sr t :
  In t (times (merge_inner l r sl sr)) -> In t (times l) /\ In t (times r).
Proof.
  unfold times, merge_inner; simpl. intros Ht.
  apply in_map_iff in Ht as [x [<- Hx]]. apply in_flat_map in Hx as [lr [Hlr Hx]].
  apply in_map_iff in Hx as [rr [<- Hrr]]. apply rows_at_In in Hrr as [Hrr E]. simpl.
  split; apply in_map_iff; eauto.
Qed.

Lemma merge_inner_nodup (l r : frame V) sl sr :
  NoDup (times l) -> NoDup (times r) -> NoDup (times (merge_inner l r sl sr)).
Proof.
  intros Hl Hr. unfold merge_inner, times in *; simpl.
  induction (rows l) as [|a t IH]; simpl; [constructor|].
  inversion Hl as [|? ? Ha Ht]; subst.
  rewrite map_app. apply NoDup_app.
  - pose proof (rows_at_small r (fst a) Hr) as Hs.
    destruct (rows_at r (fst a)) as [|b [|c k]]; simpl in *; [constructor| |lia].
    repeat constructor. intros [].
  - now apply IH.
  - intros x Hx1 Hx2.
    apply in_map_iff in Hx1 as [y [<- Hy]]. apply in_map_iff in Hy as [rr [<- _]].
    apply in_map_iff in Hx2 as [z [Ez Hz]]. apply in_flat_map in Hz as [lr [Hlr Hz]].
    apply in_map_iff in Hz as [rr' [<- _]]. simpl in Ez.
    apply Ha. rewrite <- Ez. now apply in_map.
Qed.

Lemma merge_inner_length (l r : frame V) sl sr :
  NoDup (times l) -> NoDup (times r) ->
  List.length (rows (merge_inner l r sl sr)) <= Nat.min (List.length (rows l)) (List.length (rows r)).
Proof.
  intros Hl Hr. pose proof (merge_inner_nodup l r sl sr Hl Hr) as Hn.
  assert (E : forall f : frame V, List.length (rows f) = List.length (times f))
    by (intros f; unfold times; now rewrite length_map).
  rewrite !E. apply Nat.min_glb; apply NoDup_incl_length; auto;
    intros t Ht; now apply merge_inner_times_In in Ht.
Qed.


Lemma col_vals_length (f : frame V) n c : col_vals f n = Ok c -> List.length c = List.length (rows f).
Proof.
  unfold col_vals. destruct (index_of n (cols f)); intros E; inversion E; subst.
  apply length_map.
Qed.

Lemma add_residuals_times (merged : frame V) idx result ecs r' ecs' :
  List.length (rows result) = List.length (rows merged) ->
  add_residuals merged idx (result, ecs) = Ok (r', ecs') -> times r' = times result.
Proof.
  revert result ecs. induction idx as [|i idx IH]; intros result ecs Hl E; simpl in E.
  - now inversion E.
  - destruct (mem (total_name i) (cols merged)); [|eapply IH; eauto].
    destruct (col_vals merged "consumption_mw") as [c|] eqn:Ec; [|discriminate].
    destruct (col_vals merged (total_name i)) as [v|] eqn:Ev; [|discriminate].
    simpl in E. apply col_vals_length in Ec, Ev.
    assert (Hz : List.length (zip_with v_sub c v) = List.length (rows result)).
    { unfold zip_with. rewrite length_map, length_combine. lia. }
    rewrite <- (times_set_col result (residual_name i) _ Hz).
    eapply IH; [|exact E]. rewrite length_rows_set_col; auto.
Qed.

Lemma fold_set_col_times (ps : list nat) (nm : nat -> string) (vals : nat -> list V) (f : frame V) :
  (forall p, List.length (vals p) = List.length (rows f)) ->
  times (fold_left (fun a p => set_col a (nm p) (vals p)) ps f) = times f.
Proof.
  revert f. induction ps as [|p ps IH]; intros f Hv; simpl; [reflexivity|].
  rewrite IH.
  - apply times_set_col, Hv.
  - intros q. rewrite length_rows_set_col; [apply Hv|apply Hv].
Qed.

Lemma add_stats_times (result : frame V) ecs : times (add_stats result ecs) = times result.
Proof.
  unfold add_stats.
  set (values := map (fun r => map (get result r) ecs) (rows result)).
  assert (Hv : forall (g : list V -> V), List.length (map g values) = List.length (rows result)).
  { intros g. unfold values. now rewrite !length_map. }
  set (pw := Nat.eqb (List.length values) 1).
  set (r1 := set_col result "ens_mean" (map (nanmean pw) values)).
  set (r2 := set_col r1 "ens_std" (map (nanstd pw) values)).
  set (r3 := set_col r2 "ens_min" (map nanmin values)).
  set (r4 := set_col r3 "ens_max" (map nanmax values)).
  assert (L1 : List.length (rows r1) = List.length (rows result)) by (apply length_rows_set_col, Hv).
  assert (L2 : List.length (rows r2) = List.length (rows result)).
  { rewrite <- L1. unfold r2. apply length_rows_set_col. rewrite L1. apply Hv. }
  assert (L3 : List.length (rows r3) = List.length (rows result)).
  { rewrite <- L2. unfold r3. apply length_rows_set_col. rewrite L2. apply Hv. }
  assert (T4 : times r4 = times result).
  { transitivity (times r3). { unfold r4. apply times_set_col. rewrite L3. apply Hv. }
    transitivity (times r2). { unfold r3. apply times_set_col. rewrite L2. apply Hv. }
    transitivity (times r1). { unfold r2. apply times_set_col. rewrite L1. apply Hv. }
    unfold r1. apply times_set_col. apply Hv. }
  rewrite fold_set_col_times; [exact T4|].
  intros p. rewrite (length_rows_times r4 result T4). apply Hv.
Qed.

(** Whatever [_compute_residual_scenarios] returns has no row, or exactly the
    timestamps of the inner merge. *)
Lemma compute_residual_times (cons ren : frame V) model res :
  compute_residual_scenarios cons ren model = Ok res ->
  rows res = [] \/ times res = times (merge_inner cons ren "_x" "_y").
Proof.
  unfold compute_residual_scenarios.
  destruct (df_empty cons); [intros E; inversion E; now left|].
  destruct (df_empty ren); [intros E; inversion E; now left|].
  destruct (df_empty (merge_inner cons ren "_x" "_y")); [intros E; inversion E; now left|].
  destruct (model_of model) as [d|]; [|discriminate]. cbn [bind].
  set (merged := merge_inner cons ren "_x" "_y").
  set (result0 := mk_frame (V:=V) true [] (map (fun r : Z * list V => (fst r, [])) (rows merged))).
  assert (L0 : List.length (rows result0) = List.length (rows merged)).
  { unfold result0; simpl. apply length_map. }
  assert (T0 : times result0 = times merged).
  { unfold times, result0; simpl. now rewrite map_map. }
  destruct (add_residuals merged (seq 1 (n_members d)) (result0, [])) as [[r' ecs]|] eqn:E;
    [|discriminate].
  cbn [bind]. apply add_residuals_times in E; [|exact L0].
  intros Eo. right. destruct ecs; inversion Eo; subst.
  - rewrite E. exact T0.
  - rewrite add_stats_times, E. exact T0.
Qed.
End MergeLemmas.

(* ------------------------------------------------------------------ *)
(** ** The delta tables *)

Section DeltaLemmas.
Context {V : Type} `{Num V}.
Local Open Scope string_scope.

Lemma wf_select (f : frame V) names : wf (select f names).
Proof.
  unfold wf, select; simpl. apply Forall_forall. intros x Hx.
  apply in_map_iff in Hx as [r [<- _]]. simpl. apply length_map.
Qed.

Lemma wf_rename g (f : frame V) : wf f -> wf (rename_cols g f).
Proof. unfold wf, rename_cols; simpl. now rewrite length_map. Qed.

Lemma In_insert_by {A} (le : A -> A -> bool) a x l : In x (insert_by le a l) <-> a = x \/ In x l.
Proof.
  induction l as [|b t IH]; simpl; [tauto|].
  destruct (le a b); simpl; [tauto|]. rewrite IH. tauto.
Qed.

Lemma In_sort_by {A} (le : A -> A -> bool) x l : In x (sort_by le l) <-> In x l.
Proof.
  induction l as [|b t IH]; [reflexivity|]. unfold sort_by in *; simpl.
  rewrite In_insert_by, IH. tauto.
Qed.

Lemma wf_sort_rows (f : frame V) : wf f -> wf (sort_rows f).
Proof.
  unfold wf, sort_rows; simpl. rewrite !Forall_forall. intros Hf x Hx.
  apply Hf. now apply In_sort_by in Hx.
Qed.

Lemma wf_merge_outer (l r : frame V) sl sr : wf l -> wf r -> wf (merge_outer l r sl sr).
Proof.
  unfold wf, merge_outer, merge_cols; simpl. rewrite !Forall_forall. intros Hl Hr x Hx.
  rewrite length_app, !length_map.
  apply in_flat_map in Hx as [t [_ Hx]].
  destruct (rows_at l t) as [|a k] eqn:El.
  - apply in_map_iff in Hx as [rr [<- Hrr]]. apply rows_at_In in Hrr as [Hrr _]. simpl.
    rewrite length_app, repeat_length, (Hr _ Hrr). reflexivity.
  - destruct (rows_at r t) as [|b m] eqn:Er.
    + change (In x (map (fun lr => (t, (snd lr ++ repeat v_nan (List.length (cols r)))%list))
                        (a :: k))) in Hx.
      apply in_map_iff in Hx as [lr [<- Hlr]].
      assert (Hin : In lr (rows_at l t)) by (rewrite El; exact Hlr).
      apply rows_at_In in Hin as [Hin _]. simpl.
      rewrite length_app, repeat_length, (Hl _ Hin). reflexivity.
    + change (In x (flat_map (fun lr => map (fun rr => (t, (snd lr ++ snd rr)%list)) (b :: m))
                        (a :: k))) in Hx.
      apply in_flat_map in Hx as [lr [Hlr Hx]]. apply in_map_iff in Hx as [rr [<- Hrr]].
      assert (Hin : In lr (rows_at l t)) by (rewrite El; exact Hlr).
      assert (Hin' : In rr (rows_at r t)) by (rewrite Er; exact Hrr).
      apply rows_at_In in Hin as [Hin _]. apply rows_at_In in Hin' as [Hin' _]. simpl.
      rewrite length_app, (Hl _ Hin), (Hr _ Hin'). reflexivity.
Qed.

Lemma col_rename g (f : frame V) n m :
  index_of n (map g (cols f)) = index_of m (cols f) -> col (rename_cols g f) n = col f m.
Proof. intros E. unfold col, get, rename_cols; simpl. now rewrite E. Qed.

Lemma col_bare n : col (bare (V:=V)) n = [].
Proof. reflexivity. Qed.

Lemma cols_set_col_new (f : frame V) n vals :
  ~ In n (cols f) -> cols (set_col f n vals) = (cols f ++ [n])%list.
Proof. intros Hn. unfold set_col. apply index_of_None in Hn. now rewrite Hn. Qed.


Lemma residual_delta_tail (result out : frame V) :
  wf result ->
  out = (if df_empty result then bare else
         let result := sort_rows result in
         let result := set_col result "wind_delta" (map fill0 (col result "wind_delta")) in
         let result := set_col result "solar_delta" (map fill0 (col result "solar_delta")) in
         let result := set_col result "residual_delta"
               (zip_with (fun a b => v_opp (v_add a b))
                  (col result "wind_delta") (col result "solar_delta")) in
         set_col result "residual_delta_pct"
           (map (fun r => v_mul (v_div r (v_of_Z 100)) (v_of_Z 100)) (col result "residual_delta"))) ->
  col out "residual_delta"
    = zip_with (fun a b => v_opp (v_add a b)) (col out "wind_delta") (col out "solar_delta")
  /\ col out "residual_delta_pct"
    = map (fun r => v_mul (v_div r (v_of_Z 100)) (v_of_Z 100)) (col out "residual_delta").
Proof.
  intros Hw ->. destruct (df_empty result); [split; reflexivity|]. cbv zeta.
  set (f0 := sort_rows result).
  assert (W0 : wf f0) by (apply wf_sort_rows, Hw).
  set (f1 := set_col f0 "wind_delta" (map fill0 (col f0 "wind_delta"))).
  assert (L1 : List.length (map fill0 (col f0 "wind_delta")) = List.length (rows f0))
    by (now rewrite length_map, length_col).
  assert (W1 : wf f1) by (apply wf_set_col; auto).
  assert (R1 : List.length (rows f1) = List.length (rows f0)) by (apply length_rows_set_col; auto).
  set (f2 := set_col f1 "solar_delta" (map fill0 (col f1 "solar_delta"))).
  assert (L2 : List.length (map fill0 (col f1 "solar_delta")) = List.length (rows f1))
    by (now rewrite length_map, length_col).
  assert (W2 : wf f2) by (apply wf_set_col; auto).
  assert (R2 : List.length (rows f2) = List.length (rows f1)) by (apply length_rows_set_col; auto).
  set (vals3 := zip_with (fun a b => v_opp (v_add a b)) (col f2 "wind_delta") (col f2 "solar_delta")).
  set (f3 := set_col f2 "residual_delta" vals3).
  assert (L3 : List.length vals3 = List.length (rows f2)).
  { unfold vals3. rewrite length_zip_with, !length_col. lia. }
  assert (W3 : wf f3) by (apply wf_set_col; auto).
  set (vals4 := map (fun r => v_mul (v_div r (v_of_Z 100)) (v_of_Z 100)) (col f3 "residual_delta")).
  assert (L4 : List.length vals4 = List.length (rows f3)).
  { unfold vals4. now rewrite length_map, length_col. }
  assert (Ew : col (set_col f3 "residual_delta_pct" vals4) "wind_delta" = col f2 "wind_delta").
  { rewrite col_set_col_other by (auto; discriminate).
    unfold f3. apply col_set_col_other; auto; discriminate. }
  assert (Es : col (set_col f3 "residual_delta_pct" vals4) "solar_delta" = col f2 "solar_delta").
  { rewrite col_set_col_other by (auto; discriminate).
    unfold f3. apply col_set_col_other; auto; discriminate. }
  assert (Er : col (set_col f3 "residual_delta_pct" vals4) "residual_delta" = vals3).
  { rewrite col_set_col_other by (auto; discriminate).
    unfold f3. apply col_set_col_same; auto. }
  split.
  - rewrite Ew, Es, Er. reflexivity.
  - rewrite col_set_col_same by auto. rewrite Er. unfold vals4, f3.
    rewrite col_set_col_same by auto. reflexivity.
Qed.

Lemma residual_load_delta_cols (st : store V) model issue_new issue_old valid_start valid_end
    countries location :
  let res := compute_residual_load_delta st model issue_new issue_old valid_start valid_end
               countries location in
  col res "residual_delta"
    = zip_with (fun a b => v_opp (v_add a b)) (col res "wind_delta") (col res "solar_delta")
  /\ col res "residual_delta_pct"
    = map (fun r => v_mul (v_div r (v_of_Z 100)) (v_of_Z 100)) (col res "residual_delta").
Proof.
  intros res. unfold res, compute_residual_load_delta.
  set (wd := compute_forecast_delta st model "wind" _ _ _ _ _ _).
  set (sd := compute_forecast_delta st model "solar" _ _ _ _ _ _).
  clearbody wd sd.
  destruct (df_empty wd) eqn:Ew; destruct (df_empty sd) eqn:Es; cbv beta iota delta [negb andb];
    [split; reflexivity| | |].
  - eapply residual_delta_tail; [|reflexivity].
    apply wf_set_col; [apply wf_rename, wf_select|]. now rewrite length_map.
  - eapply residual_delta_tail; [|reflexivity].
    apply wf_set_col; [apply wf_rename, wf_select|]. now rewrite length_map.
  - eapply residual_delta_tail; [|reflexivity].
    apply wf_merge_outer; apply wf_rename, wf_select.
Qed.

Lemma forecast_delta_tail (o n out : frame V) :
  out = (let comparison := merge_inner (select o ["ens_mean"]) (select n ["ens_mean"]) "_old" "_new" in
         if df_empty comparison then bare else
         let comparison := set_col comparison "delta"
               (zip_with v_sub (col comparison "ens_mean_new") (col comparison "ens_mean_old")) in
         let comparison := set_col comparison "delta_pct"
               (zip_with (fun d o => v_mul (v_div d (v_add o tenth)) (v_of_Z 100))
                  (col comparison "delta") (col comparison "ens_mean_old")) in
         rename_cols (fun c => if String.eqb c "ens_mean_old" then "old_mean"
                               else if String.eqb c "ens_mean_new" then "new_mean" else c)
           comparison) ->
  col out "delta" = zip_with v_sub (col out "new_mean") (col out "old_mean")
  /\ col out "delta_pct"
     = zip_with (fun d o => v_mul (v_div d (v_add o tenth)) (v_of_Z 100))
         (col out "delta") (col out "old_mean").
Proof.
  intros ->. cbv zeta.
  set (c0 := merge_inner (select o ["ens_mean"]) (select n ["ens_mean"]) "_old" "_new").
  destruct (df_empty c0); [split; reflexivity|].
  assert (Hc0 : cols c0 = ["ens_mean_old"; "ens_mean_new"]) by reflexivity.
  assert (W0 : wf c0) by (apply wf_merge_inner; apply wf_select).
  set (vals1 := zip_with v_sub (col c0 "ens_mean_new") (col c0 "ens_mean_old")).
  assert (L1 : List.length vals1 = List.length (rows c0)).
  { unfold vals1. rewrite length_zip_with, !length_col. lia. }
  set (c1 := set_col c0 "delta" vals1).
  assert (W1 : wf c1) by (apply wf_set_col; auto).
  assert (R1 : List.length (rows c1) = List.length (rows c0)) by (apply length_rows_set_col; auto).
  assert (Hc1 : cols c1 = ["ens_mean_old"; "ens_mean_new"; "delta"]).
  { unfold c1. rewrite cols_set_col_new; rewrite Hc0; [reflexivity|].
    simpl. intuition discriminate. }
  set (vals2 := zip_with (fun d o => v_mul (v_div d (v_add o tenth)) (v_of_Z 100))
                  (col c1 "delta") (col c1 "ens_mean_old")).
  assert (L2 : List.length vals2 = List.length (rows c1)).
  { unfold vals2. rewrite length_zip_with, !length_col. lia. }
  set (c2 := set_col c1 "delta_pct" vals2).
  assert (Hc2 : cols c2 = ["ens_mean_old"; "ens_mean_new"; "delta"; "delta_pct"]).
  { unfold c2. rewrite cols_set_col_new; rewrite Hc1; [reflexivity|].
    simpl. intuition discriminate. }
  set (g := fun c => if String.eqb c "ens_mean_old" then "old_mean"
                     else if String.eqb c "ens_mean_new" then "new_mean" else c).
  rewrite (col_rename g c2 "delta" "delta") by (rewrite Hc2; reflexivity).
  rewrite (col_rename g c2 "delta_pct" "delta_pct") by (rewrite Hc2; reflexivity).
  rewrite (col_rename g c2 "new_mean" "ens_mean_new") by (rewrite Hc2; reflexivity).
  rewrite (col_rename g c2 "old_mean" "ens_mean_old") by (rewrite Hc2; reflexivity).
  assert (D2 : col c2 "delta" = col c1 "delta") by (apply col_set_col_other; auto; discriminate).
  assert (N2 : col c2 "ens_mean_new" = col c1 "ens_mean_new") by (apply col_set_col_other; auto; discriminate).
  assert (O2 : col c2 "ens_mean_old" = col c1 "ens_mean_old") by (apply col_set_col_other; auto; discriminate).
  assert (D1 : col c1 "delta" = vals1) by (apply col_set_col_same; auto).
  assert (N1 : col c1 "ens_mean_new" = col c0 "ens_mean_new") by (apply col_set_col_other; auto; discriminate).
  assert (O1 : col c1 "ens_mean_old" = col c0 "ens_mean_old") by (apply col_set_col_other; auto; discriminate).
  split.
  - rewrite D2, N2, O2, D1, N1, O1. reflexivity.
  - unfold c2 at 1. rewrite col_set_col_same by auto. rewrite D2, O2. reflexivity.
Qed.

Lemma forecast_delta_cols (st : store V) model element issue_new issue_old valid_start valid_end
    countries location :
  let res := compute_forecast_delta st model element issue_new issue_old valid_start valid_end
               countries location in
  col res "delta" = zip_with v_sub (col res "new_mean") (col res "old_mean")
  /\ col res "delta_pct"
     = zip_with (fun d o => v_mul (v_div d (v_add o tenth)) (v_of_Z 100))
         (col res "delta") (col res "old_mean").
Proof.
  intros res. unfold res, compute_forecast_delta. cbv zeta.
  set (od := get_ensemble_by_issue_and_time st model element issue_old _ _ _).
  set (nd := get_ensemble_by_issue_and_time st model element issue_new _ _ _).
  clearbody od nd.
  destruct (df_empty od || df_empty nd); [split; reflexivity|].
  eapply forecast_delta_tail. reflexivity.
Qed.
End DeltaLemmas.

(* ------------------------------------------------------------------ *)
(** ** [update] *)

Section UpdateLemmas.
Context {V : Type} `{Num V}.

Lemma fetch_renewables_empty (st : store V) model issue cs :
  (forall c, In c cs ->
     exists f, get_renewable_ensembles st model issue (Some (upper c)) = Ok f /\ df_empty f = true) ->
  fetch_renewables st model issue cs = Ok [].
Proof.
  induction cs as [|c cs IH]; intros Hc; [reflexivity|]. simpl.
  destruct (Hc c (or_introl eq_refl)) as [f [E D]]. rewrite E. simpl.
  rewrite IH by (intros c' Hc'; apply Hc; now right). simpl. now rewrite D.
Qed.

Lemma fetch_renewables_ok (st : store V) model issue cs :
  (forall c, In c cs -> exists f, get_renewable_ensembles st model issue (Some (upper c)) = Ok f) ->
  exists l, fetch_renewables st model issue cs = Ok l.
Proof.
  induction cs as [|c cs IH]; intros Hc; [now exists []|]. simpl.
  destruct (Hc c (or_introl eq_refl)) as [f E]. rewrite E. simpl.
  destruct IH as [l El]; [intros c' Hc'; apply Hc; now right|]. rewrite El. simpl.
  eexists; reflexivity.
Qed.

Lemma filter_nonempty_nil (g : string -> frame V) cs :
  (forall c, In c cs -> df_empty (g c) = true) ->
  filter (fun f => negb (df_empty f)) (map g cs) = [].
Proof.
  induction cs as [|c cs IH]; intros Hc; [reflexivity|]. simpl.
  rewrite (Hc c (or_introl eq_refl)). simpl. apply IH. intros c' Hc'; apply Hc; now right.
Qed.

Lemma update_body_aborts (st : store V) model issue countries now :
  update_aborts st model issue countries -> update_body st model issue countries now = Ok None.
Proof.
  unfold update_aborts, update_body. cbv zeta.
  set (cs := default_countries countries). intros [Hr|[Hr Hc]].
  - rewrite (fetch_renewables_empty st model issue cs Hr). reflexivity.
  - destruct (fetch_renewables_ok st model issue cs Hr) as [l El]. rewrite El. simpl.
    destruct l as [|f0 fs]; [reflexivity|].
    rewrite (filter_nonempty_nil (fun c => get_eq_consumption st issue (Some (lower c))) cs Hc).
    reflexivity.
Qed.

Lemma update_current_model (e : engine V) st model issue countries now now' :
  current_model (fst (update e st model issue countries now now')) = Some model.
Proof.
  unfold update. destruct (update_body st model issue countries now) as [[b|]|x]; reflexivity.
Qed.

End UpdateLemmas.

(* ------------------------------------------------------------------ *)
(** ** Small facts used by the properties *)



(** Dividing by 100 then multiplying by 100 gives back a negated value,
    in exact arithmetic. *)
Lemma exact_pct_opp (x : option Q) :
  @v_mul _ Exact (v_div (v_opp x) (v_of_Z 100)) (v_of_Z 100) = v_opp x.
Proof.
  destruct x as [q|]; [|reflexivity]. cbn -[Qred Qmult Qdiv Qopp].
  f_equal. apply Qred_complete. rewrite !Qred_correct. field.
Qed.

Lemma map_zip_with {A B C D} (g : C -> D) (h : A -> B -> C) l1 l2 :
  map g (zip_with h l1 l2) = zip_with (fun a b => g (h a b)) l1 l2.
Proof. unfold zip_with. rewrite map_map. apply map_ext. now intros [a b]. Qed.

(* ------------------------------------------------------------------ *)
(** ** Sorting and de-duplication *)

Section SortLemmas.
Local Open Scope list_scope.
Local Open Scope nat_scope.

Lemma HdRel_insert_by {A} (le : A -> A -> bool) (a x : A) l :
  (forall x y, le x y = false -> le y x = true) ->
  le a x = true -> HdRel (fun u v => le u v = true) a l ->
  HdRel (fun u v => le u v = true) a (insert_by le x l).
Proof.
  intros Ht Hax Ha. destruct l as [|y t]; simpl; [now constructor|].
  destruct (le x y); constructor; auto. now inversion Ha.
Qed.

Lemma sorted_insert_by {A} (le : A -> A -> bool) x l :
  (forall x y, le x y = false -> le y x = true) ->
  Sorted (fun u v => le u v = true) l -> Sorted (fun u v => le u v = true) (insert_by le x l).
Proof.
  intros Ht Hs. induction Hs as [|y t Hs IH Hy]; simpl; [repeat constructor|].
  destruct (le x y) eqn:E.
  - constructor; [now constructor|now constructor].
  - constructor; [exact IH|]. apply HdRel_insert_by; auto.
Qed.

Lemma sorted_sort_by {A} (le : A -> A -> bool) l :
  (forall x y, le x y = false -> le y x = true) ->
  Sorted (fun u v => le u v = true) (sort_by le l).
Proof.
  intros Ht. induction l as [|x t IH]; [constructor|]. unfold sort_by in *; simpl.
  now apply sorted_insert_by.
Qed.

Lemma perm_insert_by {A} (le : A -> A -> bool) x l : Permutation (insert_by le x l) (x :: l).
Proof.
  induction l as [|y t IH]; simpl; [reflexivity|].
  destruct (le x y); [reflexivity|].
  transitivity (y :: x :: t); [now constructor|constructor].
Qed.

Lemma perm_sort_by {A} (le : A -> A -> bool) l : Permutation (sort_by le l) l.
Proof.
  induction l as [|x t IH]; [reflexivity|]. unfold sort_by in *; simpl.
  rewrite perm_insert_by. now constructor.
Qed.

(** Sorting a list that is already sorted changes nothing. *)
Lemma sort_by_sorted_id {A} (le : A -> A -> bool) l :
  Sorted (fun u v => le u v = true) l -> sort_by le l = l.
Proof.
  induction 1 as [|x t Hs IH Hx]; [reflexivity|]. unfold sort_by in *; simpl.
  rewrite IH. destruct t as [|y t]; simpl; [reflexivity|].
  inversion Hx; subst. now rewrite H0.
Qed.

Lemma Zleb_total x y : Z.leb x y = false -> Z.leb y x = true.
Proof. rewrite Z.leb_gt, Z.leb_le. lia. Qed.

Lemma In_dedup_sorted {A} (eqb : A -> A -> bool) x l :
  (forall a b, eqb a b = true -> a = b) -> In x (dedup_sorted eqb l) <-> In x l.
Proof.
  intros He. induction l as [|a t IH]; [reflexivity|].
  destruct t as [|b t]; [reflexivity|].
  change (In x (if eqb a b then dedup_sorted eqb (b :: t) else a :: dedup_sorted eqb (b :: t))
          <-> In x (a :: b :: t)).
  destruct (eqb a b) eqn:E.
  - apply He in E. subst. rewrite IH. split; [intros Hx; now right|]. intros [Hx|Hx]; [now left|exact Hx].
  - change (In x (a :: dedup_sorted eqb (b :: t)) <-> In x (a :: b :: t)).
    cbn [In]. rewrite IH. cbn [In]. tauto.
Qed.

Lemma dedup_sorted_head {A} (eqb : A -> A -> bool) a t :
  (forall a b, eqb a b = true -> a = b) -> exists t', dedup_sorted eqb (a :: t) = a :: t'.
Proof.
  intros He. revert a. induction t as [|b t IH]; intros a; [now exists []|].
  change (exists t', (if eqb a b then dedup_sorted eqb (b :: t) else a :: dedup_sorted eqb (b :: t))
                     = a :: t').
  destruct (eqb a b) eqn:E; [|eexists; reflexivity].
  apply He in E. subst. apply IH.
Qed.

Lemma dedup_Z_strict l : Sorted Z.le l -> Sorted Z.lt (dedup_sorted Z.eqb l).
Proof.
  induction l as [|a t IH]; intros Hs; [constructor|].
  destruct t as [|b t]; [repeat constructor|].
  apply Sorted_inv in Hs as [Hs Ha]. inversion Ha; subst.
  change (Sorted Z.lt (if Z.eqb a b then dedup_sorted Z.eqb (b :: t)
                       else a :: dedup_sorted Z.eqb (b :: t))).
  destruct (Z.eqb a b) eqn:E; [now apply IH|].
  apply Z.eqb_neq in E.
  destruct (dedup_sorted_head Z.eqb b t) as [t' Et]; [apply Z.eqb_eq|].
  rewrite Et. constructor; [rewrite <- Et; now apply IH|]. constructor. lia.
Qed.

(** [uniq_Z]: the distinct values, increasing. *)
Lemma uniq_Z_sorted l : Sorted Z.lt (uniq_Z l).
Proof.
  unfold uniq_Z. apply dedup_Z_strict.
  pose proof (sorted_sort_by Z.leb l Zleb_total) as Hs.
  induction Hs as [|x t Hs IH Hx]; constructor; auto.
  inversion Hx; constructor. now apply Z.leb_le.
Qed.

Lemma In_uniq_Z x l : In x (uniq_Z l) <-> In x l.
Proof.
  unfold uniq_Z. rewrite In_dedup_sorted by apply Z.eqb_eq. apply In_sort_by.
Qed.

Lemma In_uniq_str x l : In x (uniq_str l) <-> In x l.
Proof.
  unfold uniq_str. rewrite In_dedup_sorted by apply String.eqb_eq. apply In_sort_by.
Qed.

Lemma Sorted_lt_NoDup l : Sorted Z.lt l -> NoDup l.
Proof.
  intros Hs. apply Sorted_StronglySorted in Hs; [|intros x y z; lia].
  induction Hs as [|x t Hs IH Hx]; constructor; auto.
  intros Hin. rewrite Forall_forall in Hx. specialize (Hx x Hin). lia.
Qed.

End SortLemmas.

(* ------------------------------------------------------------------ *)
(** ** The shape of the client's tables *)

Section ShapeLemmas.
Context {V : Type} `{Num V}.
Local Open Scope list_scope.
Local Open Scope nat_scope.

Lemma times_pivot_first (long : list (long_row V)) :
  times (pivot_first long)
  = uniq_Z (map (fun '(t, _, _) => t) (filter (fun '(_, _, v) => negb (v_is_nan v)) long)).
Proof. unfold times, pivot_first. simpl. rewrite map_map. apply map_id. Qed.

Lemma wf_pivot_first (long : list (long_row V)) : wf (pivot_first long).
Proof.
  unfold wf, pivot_first. simpl. apply Forall_forall. intros x Hx.
  apply in_map_iff in Hx as [t [<- _]]. simpl. apply length_map.
Qed.

Lemma sorted_rows_of_times (rs : list (Z * list V)) :
  Sorted Z.lt (map fst rs) -> Sorted (fun a b => Z.leb (fst a) (fst b) = true) rs.
Proof.
  induction rs as [|a t IH]; simpl; intros Hs; [constructor|].
  apply Sorted_inv in Hs as [Hs Ha]. constructor; [now apply IH|].
  destruct t as [|b t]; constructor. inversion Ha; subst. apply Z.leb_le. lia.
Qed.

Lemma sort_rows_id (f : frame V) : Sorted Z.lt (times f) -> sort_rows f = f.
Proof.
  intros Hs. unfold sort_rows. rewrite sort_by_sorted_id by (now apply sorted_rows_of_times).
  now destruct f.
Qed.

Lemma times_sort_rows_sorted (f : frame V) : Sorted Z.le (times (sort_rows f)).
Proof.
  unfold times, sort_rows. simpl.
  pose proof (sorted_sort_by (fun a b : Z * list V => Z.leb (fst a) (fst b)) (rows f)) as Hs.
  specialize (Hs (fun x y => Zleb_total (fst x) (fst y))).
  induction Hs as [|x t Hs IH Hx]; simpl; constructor; auto.
  inversion Hx; simpl; constructor. now apply Z.leb_le.
Qed.

Lemma times_rename g (f : frame V) : times (rename_cols g f) = times f.
Proof. reflexivity. Qed.

Lemma times_fillna0 (f : frame V) : times (fillna0 f) = times f.
Proof. unfold times, fillna0. simpl. now rewrite map_map. Qed.

Lemma wf_fillna0 (f : frame V) : wf f -> wf (fillna0 f).
Proof.
  unfold wf, fillna0. simpl. rewrite Forall_map. apply Forall_impl.
  intros r Hr. simpl. now rewrite length_map.
Qed.

Lemma wf_bare : wf (bare (V:=V)).
Proof. constructor. Qed.

Lemma sorted_bare : Sorted Z.lt (times (bare (V:=V))).
Proof. constructor. Qed.

Lemma shaped_bare : shaped (bare (V:=V)).
Proof. split; constructor. Qed.

Lemma shaped_pivot (long : list (long_row V)) : shaped (pivot_first long).
Proof. split; [rewrite times_pivot_first; apply uniq_Z_sorted|apply wf_pivot_first]. Qed.

Lemma get_ensemble_forecasts_shaped (st : store V) model element issue location f :
  get_ensemble_forecasts st model element issue location = Ok f -> shaped f.
Proof.
  unfold get_ensemble_forecasts. cbv zeta.
  destruct (match issue with Some i => Some i | None => get_latest_issue st model element None end)
    as [iss|]; [|intros E; injection E as <-; apply shaped_bare].
  destruct (model_of model) as [d|]; [|discriminate]. cbn [bind].
  destruct (q_ensemble st _ _ _ _ _) as [[|l long]|]; intros E; injection E as <-;
    try apply shaped_bare.
  destruct (shaped_pivot (l :: long)) as [Hs Hw].
  rewrite sort_rows_id by exact Hs. split; [exact Hs|now apply wf_rename].
Qed.

Lemma get_ensemble_by_issue_and_time_shaped (st : store V) model element issue vs ve location :
  shaped (get_ensemble_by_issue_and_time st model element issue vs ve location).
Proof.
  unfold get_ensemble_by_issue_and_time. cbv zeta.
  destruct (q_issue_time st _ _ _ _ _ _) as [[|l long]|]; try apply shaped_bare.
  set (p := rename_cols _ (pivot_first (l :: long))).
  assert (Hp : shaped p) by (destruct (shaped_pivot (l :: long)) as [Hs Hw]; split; [exact Hs|now apply wf_rename]).
  destruct (filter (String.prefix "ens_") (cols p)) as [|c cs]; [exact Hp|].
  destruct Hp as [Hs Hw].
  set (pw := _ || _).
  assert (Hl : List.length (map (fun r => nanmean pw (map (get p r) (c :: cs))) (rows p)) = List.length (rows p))
    by apply length_map.
  split; [rewrite times_set_col by exact Hl; exact Hs|now apply wf_set_col].
Qed.

Lemma get_percentile_forecasts_shaped (st : store V) qp model element issue location f :
  get_percentile_forecasts st qp model element issue location = Some f -> shaped f.
Proof.
  unfold get_percentile_forecasts. cbv zeta.
  destruct (match issue with Some i => Some i | None => get_latest_issue st model element None end)
    as [iss|]; [|intros E; injection E as <-; apply shaped_bare].
  destruct (qp _ _ _ _ _) as [[|l long]|]; intros E; try discriminate; injection E as <-;
    try apply shaped_bare.
  destruct (shaped_pivot (l :: long)) as [Hs Hw].
  rewrite sort_rows_id by exact Hs. split; auto.
Qed.

Lemma get_eq_consumption_shape (st : store V) issue location :
  let f := get_eq_consumption st issue location in
  Sorted Z.le (times f) /\ wf f /\ key_col f = true /\ cols f = ["consumption_mw"%string].
Proof.
  unfold get_eq_consumption. cbv zeta.
  destruct (q_consumption st _) as [[|p ps]|]; try (repeat split; constructor).
  split; [apply times_sort_rows_sorted|]. split; [|split; reflexivity].
  apply wf_sort_rows. unfold wf. cbn [rows cols].
  apply Forall_forall. intros x Hx.
  change (In x (map (fun '(t, v) => (t, [v])) (p :: ps))) in Hx.
  apply in_map_iff in Hx as [[t v] [<- _]]. reflexivity.
Qed.

End ShapeLemmas.

(* ------------------------------------------------------------------ *)
(** ** Joins, totals and sums keep the shape *)

Section JoinShape.
Context {V : Type} `{Num V}.
Local Open Scope list_scope.
Local Open Scope nat_scope.

Lemma rows_at_nonempty (f : frame V) t : In t (times f) -> rows_at f t <> [].
Proof.
  unfold times, rows_at. intros Ht E. apply in_map_iff in Ht as [x [Ex Hx]].
  assert (Hin : In x (filter (fun r => Z.eqb (fst r) t) (rows f))).
  { apply filter_In. split; [exact Hx|]. now apply Z.eqb_eq. }
  rewrite E in Hin. contradiction.
Qed.

Lemma map_fst_flat_map {A B} (F : A -> list (Z * B)) l :
  map fst (flat_map F l) = flat_map (fun x => map fst (F x)) l.
Proof. induction l as [|a t IH]; simpl; [reflexivity|]. now rewrite map_app, IH. Qed.

Lemma flat_map_singletons {A} (F : A -> list A) ks :
  (forall k, In k ks -> F k = [k]) -> flat_map F ks = ks.
Proof.
  induction ks as [|k t IH]; simpl; intros Hk; [reflexivity|].
  rewrite Hk by now left. simpl. f_equal. apply IH. intros j Hj. apply Hk. now right.
Qed.

(** With distinct timestamps on each side, the outer merge has one row per
    timestamp of either side, in increasing order. *)
Lemma merge_outer_times (l r : frame V) sl sr :
  NoDup (times l) -> NoDup (times r) ->
  times (merge_outer l r sl sr) = uniq_Z (times l ++ times r).
Proof.
  intros Hl Hr. unfold merge_outer. cbv zeta. unfold times at 1. cbn [rows].
  rewrite map_fst_flat_map. apply flat_map_singletons. intros t Ht.
  apply In_uniq_Z, in_app_or in Ht.
  pose proof (rows_at_small l t Hl) as Sl. pose proof (rows_at_small r t Hr) as Sr.
  assert (Ne : rows_at l t <> [] \/ rows_at r t <> [])
    by (destruct Ht as [Ht|Ht]; [left|right]; now apply rows_at_nonempty).
  destruct (rows_at l t) as [|a [|a' k]]; destruct (rows_at r t) as [|b [|b' m]];
    simpl in *; try lia; try reflexivity. tauto.
Qed.

Lemma flat_map_small_sorted (rs : list (Z * list V)) (G : Z * list V -> list Z) :
  (forall x, In x rs -> G x = [] \/ G x = [fst x]) ->
  StronglySorted Z.lt (map fst rs) -> StronglySorted Z.lt (flat_map G rs).
Proof.
  induction rs as [|a t IH]; simpl; intros HG Hs; [constructor|].
  apply StronglySorted_inv in Hs as [Hs Ha].
  assert (Ht : StronglySorted Z.lt (flat_map G t)) by (apply IH; auto).
  destruct (HG a (or_introl eq_refl)) as [E | E]; rewrite E; simpl; [exact Ht|].
  constructor; [exact Ht|]. apply Forall_forall. intros y Hy.
  apply in_flat_map in Hy as [x [Hx Hy]].
  destruct (HG x (or_intror Hx)) as [E2|E2]; rewrite E2 in Hy; [contradiction|].
  destruct Hy as [<-|[]]. rewrite Forall_forall in Ha. apply Ha. now apply in_map.
Qed.

(** The inner merge keeps the order of its left side. *)
Lemma merge_inner_sorted (l r : frame V) sl sr :
  Sorted Z.lt (times l) -> NoDup (times r) -> Sorted Z.lt (times (merge_inner l r sl sr)).
Proof.
  intros Hl Hr. apply StronglySorted_Sorted. unfold merge_inner, times. cbn [rows].
  rewrite map_fst_flat_map. apply flat_map_small_sorted.
  - intros x _. pose proof (rows_at_small r (fst x) Hr) as S.
    destruct (rows_at r (fst x)) as [|b [|b' m]]; simpl in *; auto; lia.
  - apply Sorted_StronglySorted; [intros a b c; lia|exact Hl].
Qed.

Lemma total_step_shaped {K} (w s tn : K -> string) ks (df : frame V) :
  shaped df -> shaped (fold_left (total_step w s tn) ks df).
Proof.
  revert df. induction ks as [|k ks IH]; intros df Hd; simpl; [exact Hd|].
  apply IH. unfold total_step.
  destruct (mem (w k) (cols df) && mem (s k) (cols df)); [|exact Hd].
  destruct Hd as [Hs Hw].
  assert (Hl : List.length (zip_with v_add (col df (w k)) (col df (s k))) = List.length (rows df)).
  { rewrite length_zip_with, !length_col. lia. }
  split; [rewrite times_set_col by exact Hl; exact Hs|now apply wf_set_col].
Qed.

Lemma shaped_rename g (f : frame V) : shaped f -> shaped (rename_cols g f).
Proof. intros [Hs Hw]. split; [exact Hs|now apply wf_rename]. Qed.

Lemma shaped_outer (l r : frame V) sl sr :
  shaped l -> shaped r -> shaped (fillna0 (merge_outer l r sl sr)).
Proof.
  intros [Hl Wl] [Hr Wr]. split.
  - rewrite times_fillna0, merge_outer_times by (now apply Sorted_lt_NoDup).
    apply uniq_Z_sorted.
  - apply wf_fillna0, wf_merge_outer; assumption.
Qed.

Lemma combine_ensembles_shaped model (wind solar f : frame V) :
  shaped wind -> shaped solar -> combine_ensembles model wind solar = Ok f -> shaped f.
Proof.
  intros Hw Hs. unfold combine_ensembles.
  destruct (df_empty wind && df_empty solar); [intros E; injection E as <-; apply shaped_bare|].
  cbv zeta.
  assert (Hwr : forall b : bool, shaped (if b then rename_cols (fun c => "wind_" ++ c)%string wind else bare))
    by (intros []; [now apply shaped_rename|apply shaped_bare]).
  assert (Hsr : forall b : bool, shaped (if b then rename_cols (fun c => "solar_" ++ c)%string solar else bare))
    by (intros []; [now apply shaped_rename|apply shaped_bare]).
  generalize (Hwr (negb (df_empty wind))) (Hsr (negb (df_empty solar))).
  generalize (if negb (df_empty wind) then rename_cols (fun c => "wind_" ++ c)%string wind else bare) as wr.
  generalize (if negb (df_empty solar) then rename_cols (fun c => "solar_" ++ c)%string solar else bare) as sr.
  intros sr wr Hw' Hs'.
  destruct (df_empty wr); [intros E; injection E as <-; exact Hs'|].
  destruct (df_empty sr); [intros E; injection E as <-; exact Hw'|].
  destruct (model_of model) as [d|]; [|discriminate]. cbn [bind]. intros E. injection E as <-.
  apply (total_step_shaped wind_name solar_name total_name). now apply shaped_outer.
Qed.

Lemma get_renewable_ensembles_shaped (st : store V) model issue location f :
  get_renewable_ensembles st model issue location = Ok f -> shaped f.
Proof.
  unfold get_renewable_ensembles.
  destruct (get_ensemble_forecasts st model "wind" issue location) as [w|] eqn:Ew; [|discriminate].
  cbn [bind].
  destruct (get_ensemble_forecasts st model "solar" issue location) as [s|] eqn:Es; [|discriminate].
  cbn [bind]. apply combine_ensembles_shaped; eapply get_ensemble_forecasts_shaped; eauto.
Qed.

Lemma frame_add_shaped (f g : frame V) : Sorted Z.lt (times f) -> shaped (frame_add f g).
Proof.
  intros Hf. unfold frame_add. cbv zeta. split.
  - unfold times at 1. cbn [rows]. rewrite map_map. cbn [fst]. rewrite map_id.
    destruct (list_eqb Z.eqb (times f) (times g)); [exact Hf|apply uniq_Z_sorted].
  - unfold wf. cbn [rows cols]. apply Forall_forall. intros x Hx.
    apply in_map_iff in Hx as [t [<- _]]. simpl. apply length_map.
Qed.

Lemma fold_frame_add_shaped (fs : list (frame V)) f0 :
  shaped f0 -> shaped (fold_left frame_add fs f0).
Proof.
  revert f0. induction fs as [|g fs IH]; intros f0 Hf; simpl; [exact Hf|].
  apply IH, frame_add_shaped, Hf.
Qed.

Lemma times_sum_consumption (l : list (frame V)) f :
  sum_consumption l = Ok f ->
  shaped f /\ forall t, In t (times f) <-> exists g, In g l /\ In t (times g).
Proof.
  unfold sum_consumption.
  destruct (existsb _ l); [|discriminate]. intros E. injection E as <-.
  assert (T : times (mk_frame (V:=V) true ["consumption_mw"%string]
     (map (fun t => (t, [kahan_sum (map snd (filter (fun p => Z.eqb (fst p) t)
        (flat_map (fun f => map (fun r => (fst r, get f r "consumption_mw"%string)) (rows f)) l)))]))
        (uniq_Z (map fst (flat_map (fun f => map (fun r => (fst r, get f r "consumption_mw"%string)) (rows f)) l)))))
     = uniq_Z (map fst (flat_map (fun f => map (fun r => (fst r, get f r "consumption_mw"%string)) (rows f)) l))).
  { unfold times. cbn [rows]. rewrite map_map. apply map_id. }
  split; [split|].
  - rewrite T. apply uniq_Z_sorted.
  - unfold wf. cbn [rows cols]. apply Forall_forall. intros x Hx.
    apply in_map_iff in Hx as [t [<- _]]. reflexivity.
  - intros t. rewrite T, In_uniq_Z, map_fst_flat_map, in_flat_map. split.
    + intros [g [Hg Ht]]. exists g. split; [exact Hg|]. rewrite map_map in Ht. exact Ht.
    + intros [g [Hg Ht]]. exists g. split; [exact Hg|]. rewrite map_map. exact Ht.
Qed.

End JoinShape.

(* ------------------------------------------------------------------ *)
(** ** What [update] publishes *)

Section UpdateShape.
Context {V : Type} `{Num V}.
Local Open Scope list_scope.
Local Open Scope nat_scope.

Lemma list_eqb_Z_true l1 l2 : list_eqb Z.eqb l1 l2 = true -> l1 = l2.
Proof.
  revert l2. induction l1 as [|x t IH]; intros [|y u]; simpl; try discriminate; auto.
  intros E. apply andb_prop in E as [E1 E2]. apply Z.eqb_eq in E1. subst. f_equal. auto.
Qed.

Lemma In_times_frame_add (f g : frame V) t :
  In t (times (frame_add f g)) <-> In t (times f) \/ In t (times g).
Proof.
  unfold frame_add. cbv zeta. unfold times at 1. cbn [rows].
  rewrite map_map. cbn [fst]. rewrite map_id.
  destruct (list_eqb Z.eqb (times f) (times g)) eqn:E.
  - apply list_eqb_Z_true in E. rewrite <- E. tauto.
  - rewrite In_uniq_Z. apply in_app_iff.
Qed.

Lemma In_times_fold_frame_add (fs : list (frame V)) f0 t :
  In t (times (fold_left frame_add fs f0)) <-> exists g, In g (f0 :: fs) /\ In t (times g).
Proof.
  revert f0. induction fs as [|g fs IH]; intros f0; simpl.
  - split; [intros Ht; exists f0; auto|intros [g [[<-|[]] Ht]]; exact Ht].
  - rewrite IH. split.
    + intros [g' [[<-|Hg] Ht]].
      * apply In_times_frame_add in Ht.
        destruct Ht as [Ht|Ht]; [exists f0|exists g]; simpl; auto.
      * exists g'. simpl. auto.
    + intros [g' [Hg Ht]]. destruct Hg as [<-|[<-|Hg]].
      * exists (frame_add f0 g). simpl. rewrite In_times_frame_add. auto.
      * exists (frame_add f0 g). simpl. rewrite In_times_frame_add. auto.
      * exists g'. simpl. auto.
Qed.

Lemma fetch_renewables_shaped (st : store V) model issue cs l :
  fetch_renewables st model issue cs = Ok l -> Forall shaped l.
Proof.
  revert l. induction cs as [|c cs IH]; intros l; simpl.
  - intros E. injection E as <-. constructor.
  - destruct (get_renewable_ensembles st model issue (Some (upper c))) as [df|] eqn:Ed;
      cbn [bind]; [|discriminate].
    destruct (fetch_renewables st model issue cs) as [rest|]; cbn [bind]; [|discriminate].
    intros E. injection E as <-. specialize (IH rest eq_refl).
    destruct (df_empty df); [exact IH|]. constructor; [|exact IH].
    eapply get_renewable_ensembles_shaped; eauto.
Qed.

Lemma In_fetch_renewables (st : store V) model issue cs l g :
  fetch_renewables st model issue cs = Ok l -> In g l ->
  exists c, In c cs /\ get_renewable_ensembles st model issue (Some (upper c)) = Ok g
            /\ df_empty g = false.
Proof.
  revert l. induction cs as [|c cs IH]; intros l; simpl.
  - intros E. injection E as <-. intros [].
  - destruct (get_renewable_ensembles st model issue (Some (upper c))) as [df|] eqn:Ed;
      cbn [bind]; [|discriminate].
    destruct (fetch_renewables st model issue cs) as [rest|]; cbn [bind]; [|discriminate].
    intros E. injection E as <-. intros Hg.
    assert (Hr : In g rest -> exists c0, (c = c0 \/ In c0 cs)
              /\ get_renewable_ensembles st model issue (Some (upper c0)) = Ok g /\ df_empty g = false)
      by (intros Hr; destruct (IH rest eq_refl Hr) as [c0 [? ?]]; exists c0; auto).
    destruct (df_empty df) eqn:De; [now apply Hr|].
    destruct Hg as [<-|Hg]; [exists c; auto|now apply Hr].
Qed.

(** The inversion of a published [update_body]. *)
Lemma update_body_some (st : store V) model issue countries now b :
  update_body st model issue countries now = Ok (Some b) ->
  exists f0 fs d,
    fetch_renewables st model issue (default_countries countries) = Ok (f0 :: fs)
    /\ renewables_ens b = fold_left frame_add fs f0
    /\ sum_consumption (filter (fun f => negb (df_empty f))
         (map (fun c => get_eq_consumption st issue (Some (lower c))) (default_countries countries)))
       = Ok (consumption b)
    /\ df_empty (consumption b) = false
    /\ compute_residual_scenarios (consumption b) (renewables_ens b) model = Ok (residual_scenarios b)
    /\ model_of model = Ok d
    /\ metadata b = {| m_model := model; m_model_label := label d;
                       m_issue := match issue with
                                  | None => get_latest_issue st model "wind"
                                      (Some (upper (hd COUNTRY (default_countries countries))))
                                  | Some i => Some i
                                  end;
                       m_updated_at := now; m_n_members := n_members d;
                       m_countries := default_countries countries |}.
Proof.
  unfold update_body. cbv zeta.
  destruct (fetch_renewables st model issue (default_countries countries)) as [l|x] eqn:Ef;
    cbn [bind]; [|discriminate].
  destruct l as [|f0 fs]; [discriminate|].
  destruct (filter _ _) as [|c0 cl] eqn:Ec; [discriminate|].
  destruct (sum_consumption (c0 :: cl)) as [cf|x] eqn:Es; cbn [bind]; [|discriminate].
  destruct (df_empty cf) eqn:De; [discriminate|].
  destruct (compute_residual_scenarios cf (fold_left frame_add fs f0) model) as [rf|x] eqn:Er;
    cbn [bind]; [|discriminate].
  destruct (model_of model) as [d|x] eqn:Em; cbn [bind]; [|discriminate].
  intros E. injection E as <-. exists f0, fs, d. cbn.
  repeat split; auto.
  destruct (default_countries countries); reflexivity.
Qed.

Lemma update_some (e : engine V) st model issue countries now now' b :
  snd (update e st model issue countries now now') = Ok (Some b) ->
  update_body st model issue countries now = Ok (Some b)
  /\ fst (update e st model issue countries now now') = mk_engine (Some now') (Some model) (Some b).
Proof.
  unfold update. destruct (update_body st model issue countries now) as [[b'|]|x];
    cbn; try discriminate. intros E. injection E as <-. auto.
Qed.

Lemma get_eq_consumption_empty (st : store V) issue location :
  df_empty (get_eq_consumption st issue location) = true ->
  rows (get_eq_consumption st issue location) = [].
Proof.
  destruct (get_eq_consumption_shape st issue location) as [_ [_ [Hk _]]].
  unfold df_empty. rewrite Hk. destruct (rows _); [reflexivity|discriminate].
Qed.

End UpdateShape.

Section UpdateTimes.
Context {V : Type} `{Num V}.
Local Open Scope list_scope.
Local Open Scope nat_scope.

Lemma fetch_renewables_In (st : store V) model issue cs l c g :
  fetch_renewables st model issue cs = Ok l -> In c cs ->
  get_renewable_ensembles st model issue (Some (upper c)) = Ok g -> df_empty g = false ->
  In g l.
Proof.
  revert l. induction cs as [|c' cs IH]; intros l; simpl; [intros _ []|].
  destruct (get_renewable_ensembles st model issue (Some (upper c'))) as [df|] eqn:Ed;
    cbn [bind]; [|discriminate].
  destruct (fetch_renewables st model issue cs) as [rest|]; cbn [bind]; [|discriminate].
  intros E Hc Hg Hn. injection E as <-.
  destruct Hc as [<-|Hc].
  - rewrite Ed in Hg. injection Hg as <-. rewrite Hn. now left.
  - specialize (IH rest eq_refl Hc Hg Hn). destruct (df_empty df); [exact IH|now right].
Qed.

Lemma update_times (st : store V) model issue countries now b :
  update_body st model issue countries now = Ok (Some b) ->
  (forall t, In t (times (consumption b)) <->
     exists c, In c (default_countries countries)
               /\ In t (times (get_eq_consumption st issue (Some (lower c)))))
  /\ (forall t, In t (times (renewables_ens b)) <->
     exists c g, In c (default_countries countries)
                 /\ get_renewable_ensembles st model issue (Some (upper c)) = Ok g
                 /\ df_empty g = false /\ In t (times g))
  /\ (forall t, In t (times (residual_scenarios b)) ->
                In t (times (consumption b)) /\ In t (times (renewables_ens b))).
Proof.
  intros Hb. destruct (update_body_some st model issue countries now b Hb)
    as [f0 [fs [d [Hf [Hren [Hsum [_ [Hr _]]]]]]]].
  split; [|split].
  - intros t. destruct (times_sum_consumption _ _ Hsum) as [_ Ht]. rewrite Ht. split.
    + intros [g [Hg Htg]]. apply filter_In in Hg as [Hg _].
      apply in_map_iff in Hg as [c [<- Hc]]. exists c. auto.
    + intros [c [Hc Htg]]. exists (get_eq_consumption st issue (Some (lower c))). split; [|exact Htg].
      apply filter_In. split; [apply (in_map (fun c => get_eq_consumption st issue (Some (lower c)))); exact Hc|].
      destruct (df_empty (get_eq_consumption st issue (Some (lower c)))) eqn:De; [|reflexivity].
      apply get_eq_consumption_empty in De. unfold times in Htg. rewrite De in Htg. contradiction.
  - intros t. rewrite Hren, In_times_fold_frame_add. split.
    + intros [g [Hg Htg]].
      destruct (In_fetch_renewables st model issue _ _ g Hf Hg) as [c [Hc [Eg Ng]]].
      exists c, g. auto.
    + intros [c [g [Hc [Eg [Ng Htg]]]]]. exists g. split; [|exact Htg].
      exact (fetch_renewables_In st model issue _ _ c g Hf Hc Eg Ng).
  - intros t Ht. destruct (compute_residual_times _ _ _ _ Hr) as [E|E].
    + unfold times in Ht. rewrite E in Ht. contradiction.
    + rewrite E in Ht. exact (merge_inner_times_In _ _ _ _ t Ht).
Qed.

End UpdateTimes.

(* ------------------------------------------------------------------ *)
(** ** Member labels *)

Section Digits.
Local Open Scope list_scope.
Local Open Scope nat_scope.

Lemma digit_val_digit d : d < 10 -> digit_val (ascii_of_nat (48 + d)) = Some d.
Proof.
  intros Hd. unfold digit_val. rewrite nat_ascii_embedding by lia.
  replace (Nat.leb 48 (48 + d)) with true by (symmetry; apply Nat.leb_le; lia).
  replace (Nat.leb (48 + d) 57) with true by (symmetry; apply Nat.leb_le; lia).
  simpl. f_equal. lia.
Qed.

Lemma parse_str_nat_aux fuel n acc a :
  n < fuel -> exists e, parse_digits (str_nat_aux fuel n acc) a = parse_digits acc (a * 10 ^ e + n).
Proof.
  revert n acc a. induction fuel as [|f IH]; intros n acc a Hn; [lia|].
  cbn [str_nat_aux]. pose proof (Nat.mod_upper_bound n 10) as Hm.
  destruct (Nat.ltb n 10) eqn:Hl.
  - apply Nat.ltb_lt in Hl. exists 1. cbn [parse_digits].
    rewrite digit_val_digit by lia. rewrite Nat.mod_small by lia. try (f_equal; lia).
  - apply Nat.ltb_ge in Hl.
    destruct (IH (n / 10) (String (ascii_of_nat (48 + n mod 10)) acc) a) as [e He].
    { assert (n / 10 < n) by (apply Nat.div_lt; lia). lia. }
    exists (S e). rewrite He. cbn [parse_digits]. rewrite digit_val_digit by lia.
    f_equal. rewrite (Nat.div_mod_eq n 10) at 3. rewrite Nat.pow_succ_r'. nia.
Qed.

Lemma str_nat_aux_nonempty fuel m c s : str_nat_aux fuel m (String c s) <> EmptyString.
Proof.
  revert m c s. induction fuel as [|k IH]; intros m c s; cbn [str_nat_aux]; [discriminate|].
  destruct (Nat.ltb m 10); [discriminate|]. apply IH.
Qed.

(** [int(str(n)) == n]. *)
Lemma parse_str_nat n : parse_int (str_nat n) = Some n.
Proof.
  unfold str_nat. destruct (parse_str_nat_aux (S n) n EmptyString 0) as [e He]; [lia|].
  assert (Hne : str_nat_aux (S n) n EmptyString <> EmptyString).
  { cbn [str_nat_aux]. destruct (Nat.ltb n 10); [discriminate|]. apply str_nat_aux_nonempty. }
  unfold parse_int. destruct (str_nat_aux (S n) n EmptyString) eqn:E; [contradiction|].
  rewrite He. cbn. reflexivity.
Qed.

Lemma ens_name_str_nat n : ens_name (str_nat n) = ("ens_" ++ fmt02 n)%string.
Proof. unfold ens_name. now rewrite parse_str_nat. Qed.

End Digits.

(* ------------------------------------------------------------------ *)
(** ** Sorted lists and table rows *)

Section SortedLists.
Local Open Scope list_scope.
Local Open Scope nat_scope.

Lemma In_firstn_l {A} n (l : list A) x : In x (firstn n l) -> In x l.
Proof. intros Hx. rewrite <- (firstn_skipn n l). apply in_or_app. now left. Qed.

Lemma StronglySorted_app_rel {A} (R : A -> A -> Prop) l1 l2 x y :
  StronglySorted R (l1 ++ l2) -> In x l1 -> In y l2 -> R x y.
Proof.
  induction l1 as [|a t IH]; simpl; intros Hs Hx Hy; [contradiction|].
  apply StronglySorted_inv in Hs as [Hs Ha]. destruct Hx as [<-|Hx]; [|now apply IH].
  rewrite Forall_forall in Ha. apply Ha, in_or_app. now right.
Qed.

Lemma StronglySorted_app {A} (R : A -> A -> Prop) l1 l2 :
  StronglySorted R l1 -> StronglySorted R l2 ->
  (forall x y, In x l1 -> In y l2 -> R x y) -> StronglySorted R (l1 ++ l2).
Proof.
  induction l1 as [|a t IH]; simpl; intros H1 H2 Hr; [exact H2|].
  apply StronglySorted_inv in H1 as [H1 Ha]. constructor.
  - apply IH; [exact H1|exact H2|]. intros x y Hx Hy. apply Hr; auto.
  - apply Forall_app. split; [exact Ha|]. apply Forall_forall. intros y Hy. apply Hr; auto.
Qed.

Lemma StronglySorted_firstn {A} (R : A -> A -> Prop) n l :
  StronglySorted R l -> StronglySorted R (firstn n l).
Proof.
  revert n. induction l as [|a t IH]; intros [|n] Hs; simpl; try (now constructor).
  apply StronglySorted_inv in Hs as [Hs Ha]. constructor; [now apply IH|].
  rewrite Forall_forall in *. intros y Hy. apply Ha. now apply In_firstn_l in Hy.
Qed.

Lemma rev_sorted_gt l : Sorted Z.lt l -> StronglySorted Z.gt (rev l).
Proof.
  intros Hs. apply Sorted_StronglySorted in Hs; [|intros x y z; lia].
  induction Hs as [|a t Hs IH Ha]; simpl; [constructor|].
  apply StronglySorted_app; [exact IH|repeat constructor|].
  intros x y Hx [<-|[]]. rewrite <- in_rev in Hx. rewrite Forall_forall in Ha.
  specialize (Ha x Hx). lia.
Qed.

Lemma fold_max_spec is i :
  In (fold_left Z.max is i) (i :: is) /\ forall y, In y (i :: is) -> (y <= fold_left Z.max is i)%Z.
Proof.
  revert i. induction is as [|j t IH]; intros i; simpl.
  - split; [now left|]. intros y [<-|[]]. lia.
  - destruct (IH (Z.max i j)) as [Hin Hle]. split.
    + destruct Hin as [E|Hin]; [|auto]. rewrite <- E.
      destruct (Z.max_spec i j) as [[_ ->]|[_ ->]]; auto.
    + intros y Hy. assert (Hm : (y <= Z.max i j)%Z \/ In y t) by (destruct Hy as [<-|[<-|Hy]]; auto; lia).
      destruct Hm as [Hm|Hm]; [specialize (Hle (Z.max i j) (or_introl eq_refl)); lia|].
      apply Hle. now right.
Qed.

End SortedLists.

Section TableLemmas.
Context {V : Type} `{Num V}.
Local Open Scope list_scope.
Local Open Scope nat_scope.

Lemma In_cols_pivot (long : list (long_row V)) c :
  In c (cols (pivot_first long)) -> exists t v, In (t, c, v) long /\ v_is_nan v = false.
Proof.
  unfold pivot_first. cbn [cols]. rewrite In_uniq_str. intros Hc.
  apply in_map_iff in Hc as [[[t m] v] [E Hx]]. cbn in E. subst m.
  apply filter_In in Hx as [Hx Hv]. exists t, v. split; [exact Hx|].
  now apply negb_true_iff in Hv.
Qed.

Lemma In_times_pivot (long : list (long_row V)) t :
  In t (times (pivot_first long)) -> exists m v, In (t, m, v) long /\ v_is_nan v = false.
Proof.
  rewrite times_pivot_first, In_uniq_Z. intros Ht.
  apply in_map_iff in Ht as [[[t' m] v] [E Hx]]. cbn in E. subst t'.
  apply filter_In in Hx as [Hx Hv]. exists m, v. split; [exact Hx|].
  now apply negb_true_iff in Hv.
Qed.

Lemma In_times_sort_rows (f : frame V) t : In t (times (sort_rows f)) <-> In t (times f).
Proof.
  unfold times, sort_rows. cbn [rows]. rewrite !in_map_iff.
  split; intros [x [Ex Hx]]; exists x; split; auto; now apply In_sort_by in Hx || apply In_sort_by.
Qed.

End TableLemmas.

(* ------------------------------------------------------------------ *)
(** ** Column names of the renewables tables *)

Section Names.
Local Open Scope list_scope.
Local Open Scope nat_scope.
Local Open Scope string_scope.

Lemma append_inj_l (a s t : string) : a ++ s = a ++ t -> s = t.
Proof. induction a as [|c a IH]; simpl; [auto|]. intros E. injection E. auto. Qed.

Lemma eqb_append_l (a s t : string) : String.eqb (a ++ s) (a ++ t) = String.eqb s t.
Proof.
  destruct (String.eqb s t) eqn:E.
  - apply String.eqb_eq in E. subst. apply String.eqb_refl.
  - apply String.eqb_neq. intros E'. apply append_inj_l in E'. apply String.eqb_neq in E. auto.
Qed.

Lemma mem_map_append (a s : string) l : mem (a ++ s) (map (append a) l) = mem s l.
Proof.
  induction l as [|x t IH]; simpl; [reflexivity|]. unfold mem in *. simpl.
  now rewrite eqb_append_l, IH.
Qed.

(** [int(f"{n:02d}") == n]. *)
Lemma parse_fmt02 n : parse_int (fmt02 n) = Some n.
Proof.
  unfold fmt02. destruct (Nat.ltb n 10); [|apply parse_str_nat].
  pose proof (parse_str_nat n) as Hp. unfold parse_int in *. cbn [append].
  destruct (str_nat n) eqn:E; [discriminate|]. exact Hp.
Qed.

Lemma fmt02_inj i j : fmt02 i = fmt02 j -> i = j.
Proof. intros E. pose proof (parse_fmt02 i) as Hi. rewrite E, parse_fmt02 in Hi. congruence. Qed.

Lemma NoDup_map_inj {A B} (g : A -> B) l :
  (forall x y, g x = g y -> x = y) -> NoDup l -> NoDup (map g l).
Proof.
  intros Hg Hl. induction Hl as [|x t Hx Ht IH]; simpl; constructor; [|exact IH].
  intros Hin. apply in_map_iff in Hin as [y [E Hy]]. apply Hg in E. subst. contradiction.
Qed.

Lemma total_name_inj i j : total_name i = total_name j -> i = j.
Proof. unfold total_name. intros E. apply append_inj_l, fmt02_inj in E. exact E. Qed.

End Names.

Section TotalCols.
Context {V : Type} `{Num V}.
Local Open Scope list_scope.
Local Open Scope nat_scope.

(** The columns the [total_ren_*] loops leave. *)
Lemma cols_total_fold {K} (w s tn : K -> string) ks (df : frame V) :
  NoDup (map tn ks) ->
  (forall k, In k ks -> ~ In (tn k) (cols df)) ->
  (forall k j, In k ks -> In j ks -> w k <> tn j /\ s k <> tn j) ->
  cols (fold_left (total_step w s tn) ks df)
  = (cols df ++ map tn (filter (fun k => mem (w k) (cols df) && mem (s k) (cols df)) ks))%list.
Proof.
  revert df. induction ks as [|k ks IH]; intros df Hn Hf Hws; simpl; [now rewrite app_nil_r|].
  inversion Hn as [|? ? Hk Hn']; subst.
  assert (Hf' : forall j, In j ks -> tn j <> tn k).
  { intros j Hj E. apply Hk. rewrite <- E. now apply in_map. }
  unfold total_step at 2.
  destruct (mem (w k) (cols df) && mem (s k) (cols df)) eqn:Ec.
  - rewrite IH; cycle 1.
    + exact Hn'.
    + intros j Hj. rewrite cols_set_col_new by (apply Hf; now left).
      rewrite in_app_iff. intros [Hin|[E|[]]]; [exact (Hf j (or_intror Hj) Hin)|].
      exact (Hf' j Hj (eq_sym E)).
    + intros j i Hj Hi. apply Hws; now right.
    + rewrite cols_set_col_new by (apply Hf; now left).
      rewrite <- app_assoc. cbn. f_equal. f_equal. f_equal.
      apply filter_ext_in. intros j Hj.
      assert (Hm : forall x, x <> tn k -> mem x (cols df ++ [tn k]) = mem x (cols df)).
      { intros x Hx. unfold mem. rewrite existsb_app. cbn.
        replace (String.eqb x (tn k)) with false by (symmetry; now apply String.eqb_neq).
        now rewrite orb_false_r. }
      destruct (Hws j k (or_intror Hj) (or_introl eq_refl)) as [Hw Hs].
      rewrite !Hm by assumption. reflexivity.
  - rewrite IH; [reflexivity|exact Hn'| |].
    + intros j Hj. apply Hf. now right.
    + intros j i Hj Hi. apply Hws; now right.
Qed.

End TotalCols.

Section RenewableCols.
Context {V : Type} `{Num V}.
Local Open Scope list_scope.
Local Open Scope nat_scope.
Local Open Scope string_scope.

Lemma times_total_fold {K} (w s tn : K -> string) ks (df : frame V) :
  wf df -> times (fold_left (total_step w s tn) ks df) = times df.
Proof.
  revert df. induction ks as [|k ks IH]; intros df Hw; simpl; [reflexivity|].
  unfold total_step at 2. destruct (mem (w k) (cols df) && mem (s k) (cols df)); [|now apply IH].
  assert (Hl : List.length (zip_with v_add (col df (w k)) (col df (s k))) = List.length (rows df)).
  { rewrite length_zip_with, !length_col. lia. }
  rewrite IH by (now apply wf_set_col). now apply times_set_col.
Qed.

Lemma df_empty_rename g (f : frame V) : df_empty (rename_cols g f) = df_empty f.
Proof. unfold df_empty, rename_cols. cbn. destruct (rows f); [reflexivity|]. now destruct (cols f). Qed.

Lemma merge_cols_disjoint lc rc sl sr :
  (forall c, In c lc -> ~ In c rc) -> merge_cols lc rc sl sr = (lc ++ rc)%list.
Proof.
  intros Hd. unfold merge_cols. f_equal.
  - rewrite <- (map_id lc) at 2. apply map_ext_in. intros c Hc.
    destruct (mem c rc) eqn:E; [|reflexivity]. apply mem_In in E. exfalso. exact (Hd c Hc E).
  - rewrite <- (map_id rc) at 2. apply map_ext_in. intros c Hc.
    destruct (mem c lc) eqn:E; [|reflexivity]. apply mem_In in E. exfalso. exact (Hd c E Hc).
Qed.

Lemma In_map_append a l x : In x (map (append a) l) -> exists y, x = a ++ y.
Proof. intros Hx. apply in_map_iff in Hx as [y [<- _]]. now exists y. Qed.

Lemma mem_map_other a b x l :
  (forall y, b ++ x <> a ++ y) -> mem (b ++ x) (map (append a) l) = false.
Proof.
  intros Hne. destruct (mem _ _) eqn:E; [|reflexivity].
  apply mem_In, In_map_append in E as [y E]. exfalso. exact (Hne y E).
Qed.

End RenewableCols.

(* ------------------------------------------------------------------ *)
(** ** Timestamps of the delta tables *)

Section DeltaTimes.
Context {V : Type} `{Num V}.
Local Open Scope list_scope.
Local Open Scope nat_scope.
Local Open Scope string_scope.

Lemma dedup_strict l : Sorted Z.lt l -> dedup_sorted Z.eqb l = l.
Proof.
  induction l as [|x t IH]; [reflexivity|]. intros Hs. destruct t as [|y t]; [reflexivity|].
  inversion Hs as [|? ? Hs' Hr]; subst. inversion Hr; subst.
  change (dedup_sorted Z.eqb (x :: y :: t))
    with (if Z.eqb x y then dedup_sorted Z.eqb (y :: t) else x :: dedup_sorted Z.eqb (y :: t)).
  rewrite (proj2 (Z.eqb_neq x y)) by lia. now rewrite IH.
Qed.

Lemma uniq_Z_sorted_id l : Sorted Z.lt l -> uniq_Z l = l.
Proof.
  intros Hs. unfold uniq_Z. rewrite sort_by_sorted_id; [now apply dedup_strict|].
  induction Hs as [|x t Hs IH Hx]; constructor; [exact IH|].
  inversion Hx; constructor. now apply Z.leb_le, Z.lt_le_incl.
Qed.

Lemma filter_false_nil {A} (l : list A) : filter (fun _ => false) l = [].
Proof. induction l; simpl; auto. Qed.

Lemma key_empty_rows (f : frame V) : key_col f = true -> df_empty f = true -> rows f = [].
Proof. unfold df_empty. intros Hk. destruct (rows f); [reflexivity|]. now rewrite Hk. Qed.

Lemma times_select (f : frame V) names : times (select f names) = times f.
Proof. unfold times, select. cbn [rows]. now rewrite map_map. Qed.

Lemma existsb_Z_In t l : existsb (Z.eqb t) l = true <-> In t l.
Proof.
  rewrite existsb_exists. split; [intros [x [Hx E]]; apply Z.eqb_eq in E; now subst|].
  intros Hx. exists t. split; [exact Hx|]. apply Z.eqb_refl.
Qed.

(** The inner merge keeps the left rows whose timestamp the right side has. *)
Lemma times_merge_inner (l r : frame V) sl sr :
  NoDup (times r) ->
  times (merge_inner l r sl sr) = filter (fun t => existsb (Z.eqb t) (times r)) (times l).
Proof.
  intros Hr. unfold merge_inner, times at 1 3. cbn [rows]. rewrite map_fst_flat_map.
  induction (rows l) as [|lr ls IH]; [reflexivity|]. cbn [flat_map map filter].
  rewrite IH. pose proof (rows_at_small r (fst lr) Hr) as Hs.
  destruct (existsb (Z.eqb (fst lr)) (times r)) eqn:E.
  - apply existsb_Z_In, rows_at_nonempty in E.
    destruct (rows_at r (fst lr)) as [|a [|b k]]; [contradiction|reflexivity|cbn in Hs; lia].
  - destruct (rows_at r (fst lr)) as [|a k] eqn:Ea; [reflexivity|].
    assert (Ha : In a (rows_at r (fst lr))) by (rewrite Ea; now left).
    unfold rows_at in Ha. apply filter_In in Ha as [Ha Et]. apply Z.eqb_eq in Et.
    assert (Hin : In (fst lr) (times r)) by (rewrite <- Et; now apply in_map).
    apply existsb_Z_In in Hin. congruence.
Qed.

Lemma ebit_key (st : store V) model element issue vs ve location :
  df_empty (get_ensemble_by_issue_and_time st model element issue vs ve location) = true ->
  times (get_ensemble_by_issue_and_time st model element issue vs ve location) = [].
Proof.
  unfold get_ensemble_by_issue_and_time. cbv zeta.
  destruct (q_issue_time _ _ _ _ _ _ _) as [[|x xs]|]; try reflexivity.
  destruct (filter _ _); intros E; unfold times; rewrite key_empty_rows; auto.
  now rewrite key_col_set_col.
Qed.

Lemma forecast_delta_times_eq (st : store V) model element issue_new issue_old vs ve
    countries location :
  let loc := Some (upper (default_location countries location)) in
  times (compute_forecast_delta st model element issue_new issue_old vs ve countries location)
  = filter (fun t => existsb (Z.eqb t)
               (times (get_ensemble_by_issue_and_time st model element issue_new vs ve loc)))
      (times (get_ensemble_by_issue_and_time st model element issue_old vs ve loc)).
Proof.
  cbv zeta. unfold compute_forecast_delta. cbv zeta.
  set (o := get_ensemble_by_issue_and_time st model element issue_old vs ve _).
  set (n := get_ensemble_by_issue_and_time st model element issue_new vs ve _).
  assert (Hn : NoDup (times n)) by (apply Sorted_lt_NoDup, get_ensemble_by_issue_and_time_shaped).
  destruct (df_empty o) eqn:Eo; cbn [orb].
  { unfold o in Eo |- *. now rewrite ebit_key. }
  destruct (df_empty n) eqn:En.
  { unfold n in En |- *. rewrite ebit_key by exact En. cbn. symmetry. apply filter_false_nil. }
  set (c0 := merge_inner (select o ["ens_mean"]) (select n ["ens_mean"]) "_old" "_new").
  assert (Tc : times c0 = filter (fun t => existsb (Z.eqb t) (times n)) (times o)).
  { unfold c0. rewrite times_merge_inner; rewrite ?times_select; auto. }
  destruct (df_empty c0) eqn:Ec.
  { rewrite <- Tc. unfold times at 2. now rewrite key_empty_rows. }
  rewrite <- Tc. rewrite times_rename.
  set (c1 := set_col c0 "delta" _).
  assert (T1 : times c1 = times c0)
    by (apply times_set_col; now rewrite length_zip_with, !length_col, Nat.min_id).
  rewrite times_set_col, T1; [reflexivity|].
  rewrite length_zip_with, !length_col. lia.
Qed.

End DeltaTimes.

Section ResidualDeltaTimes.
Context {V : Type} `{Num V}.
Local Open Scope list_scope.
Local Open Scope nat_scope.
Local Open Scope string_scope.

Lemma sorted_filter_lt (p : Z -> bool) l : Sorted Z.lt l -> Sorted Z.lt (filter p l).
Proof.
  intros Hs. apply StronglySorted_Sorted. apply Sorted_StronglySorted in Hs; [|intros x y z; lia].
  induction Hs as [|x t Hs IH Hx]; simpl; [constructor|].
  destruct (p x); [|exact IH]. constructor; [exact IH|].
  rewrite Forall_forall in *. intros y Hy. apply filter_In in Hy as [Hy _]. auto.
Qed.

Lemma forecast_delta_key (st : store V) model element issue_new issue_old vs ve countries location :
  let d := compute_forecast_delta st model element issue_new issue_old vs ve countries location in
  d = bare \/ key_col d = true.
Proof.
  cbv zeta. unfold compute_forecast_delta. cbv zeta.
  destruct (_ || _); [now left|]. destruct (df_empty _); [now left|]. right.
  cbn [rename_cols key_col]. now rewrite !key_col_set_col.
Qed.

Lemma residual_tail_times (result out : frame V) :
  key_col result = true -> Sorted Z.lt (times result) ->
  out = (if df_empty result then bare else
         let result := sort_rows result in
         let result := set_col result "wind_delta" (map fill0 (col result "wind_delta")) in
         let result := set_col result "solar_delta" (map fill0 (col result "solar_delta")) in
         let result := set_col result "residual_delta"
               (zip_with (fun a b => v_opp (v_add a b))
                  (col result "wind_delta") (col result "solar_delta")) in
         set_col result "residual_delta_pct"
           (map (fun r => v_mul (v_div r (v_of_Z 100)) (v_of_Z 100)) (col result "residual_delta"))) ->
  times out = times result.
Proof.
  intros Hk Hs ->. destruct (df_empty result) eqn:E.
  { unfold times at 2. now rewrite key_empty_rows. }
  cbv zeta. rewrite sort_rows_id by exact Hs.
  set (f1 := set_col result "wind_delta" _).
  assert (T1 : times f1 = times result) by (apply times_set_col; now rewrite length_map, length_col).
  set (f2 := set_col f1 "solar_delta" _).
  assert (T2 : times f2 = times f1) by (apply times_set_col; now rewrite length_map, length_col).
  set (f3 := set_col f2 "residual_delta" _).
  assert (T3 : times f3 = times f2)
    by (apply times_set_col; now rewrite length_zip_with, !length_col, Nat.min_id).
  rewrite times_set_col, T3, T2, T1; [reflexivity|]. now rewrite length_map, length_col.
Qed.

Lemma residual_load_delta_times_eq (st : store V) model issue_new issue_old vs ve
    countries location :
  let loc := Some (default_location countries location) in
  times (compute_residual_load_delta st model issue_new issue_old vs ve countries location)
  = uniq_Z (times (compute_forecast_delta st model "wind" issue_new issue_old vs ve countries loc)
            ++ times (compute_forecast_delta st model "solar" issue_new issue_old vs ve countries loc)).
Proof.
  cbv zeta. unfold compute_residual_load_delta. cbv zeta.
  pose proof (forecast_delta_key st model "wind" issue_new issue_old vs ve countries
                (Some (default_location countries location))) as Kw.
  pose proof (forecast_delta_key st model "solar" issue_new issue_old vs ve countries
                (Some (default_location countries location))) as Ks.
  pose proof (forecast_delta_times_eq st model "wind" issue_new issue_old vs ve countries
                (Some (default_location countries location))) as Tw.
  pose proof (forecast_delta_times_eq st model "solar" issue_new issue_old vs ve countries
                (Some (default_location countries location))) as Ts.
  cbv zeta in Kw, Ks, Tw, Ts.
  set (wd := compute_forecast_delta st model "wind" _ _ _ _ _ _) in *.
  set (sd := compute_forecast_delta st model "solar" _ _ _ _ _ _) in *.
  assert (Sw : Sorted Z.lt (times wd))
    by (rewrite Tw; apply sorted_filter_lt, get_ensemble_by_issue_and_time_shaped).
  assert (Ss : Sorted Z.lt (times sd))
    by (rewrite Ts; apply sorted_filter_lt, get_ensemble_by_issue_and_time_shaped).
  assert (Ew0 : df_empty wd = true -> times wd = [])
    by (intros E; destruct Kw as [->|Kw]; [reflexivity|unfold times; now rewrite key_empty_rows]).
  assert (Es0 : df_empty sd = true -> times sd = [])
    by (intros E; destruct Ks as [->|Ks]; [reflexivity|unfold times; now rewrite key_empty_rows]).
  assert (Kw1 : df_empty wd = false -> key_col wd = true)
    by (intros E; destruct Kw as [->|Kw]; [discriminate|exact Kw]).
  assert (Ks1 : df_empty sd = false -> key_col sd = true)
    by (intros E; destruct Ks as [->|Ks]; [discriminate|exact Ks]).
  destruct (df_empty wd) eqn:Ew; destruct (df_empty sd) eqn:Es; cbn [andb negb].
  - rewrite Ew0, Es0 by reflexivity. reflexivity.
  - rewrite Ew0 by reflexivity. cbn [app]. rewrite uniq_Z_sorted_id by exact Ss.
    erewrite residual_tail_times; [| | |reflexivity].
    + unfold rename1. rewrite times_set_col, times_rename, times_select by (now rewrite length_map).
      reflexivity.
    + rewrite key_col_set_col. now apply Ks1.
    + unfold rename1. rewrite times_set_col, times_rename, times_select by (now rewrite length_map).
      exact Ss.
  - rewrite Es0 by reflexivity. rewrite app_nil_r, uniq_Z_sorted_id by exact Sw.
    erewrite residual_tail_times; [| | |reflexivity].
    + unfold rename1. rewrite times_set_col, times_rename, times_select by (now rewrite length_map).
      reflexivity.
    + rewrite key_col_set_col. now apply Kw1.
    + unfold rename1. rewrite times_set_col, times_rename, times_select by (now rewrite length_map).
      exact Sw.
  - assert (Tm : times (merge_outer (rename1 "delta" "wind_delta" (select wd ["delta"]))
                          (rename1 "delta" "solar_delta" (select sd ["delta"])) "_x" "_y")
                 = uniq_Z (times wd ++ times sd)).
    { rewrite merge_outer_times; unfold rename1; rewrite ?times_rename, ?times_select;
        auto using Sorted_lt_NoDup. }
    erewrite residual_tail_times; [exact Tm|reflexivity| |reflexivity].
    rewrite Tm. apply uniq_Z_sorted.
Qed.

End ResidualDeltaTimes.

(* ------------------------------------------------------------------ *)
(** ** The values of the residual-load delta table *)

Section ResidualDeltaValues.
Context {V : Type} `{Num V}.
Local Open Scope list_scope.
Local Open Scope nat_scope.
Local Open Scope string_scope.

Lemma find_rows_at (f : frame V) t :
  find (fun r => Z.eqb (fst r) t) (rows f) = hd_error (rows_at f t).
Proof.
  unfold rows_at. induction (rows f) as [|r rs IH]; simpl; [reflexivity|].
  destruct (Z.eqb (fst r) t); [reflexivity|exact IH].
Qed.

Lemma lookup_rows_at (f : frame V) t c :
  lookup f t c = match hd_error (rows_at f t) with Some r => get f r c | None => v_nan end.
Proof. unfold lookup. now rewrite find_rows_at. Qed.

Lemma col_lookup (f : frame V) c : NoDup (times f) -> col f c = map (fun t => lookup f t c) (times f).
Proof.
  unfold col, lookup, times. intros Hn. rewrite map_map.
  assert (G : forall rs : list (Z * list V), NoDup (map fst rs) ->
            map (fun r => get f r c) rs
            = map (fun r => match find (fun r' => Z.eqb (fst r') (fst r)) rs with
                            | Some r' => get f r' c | None => v_nan end) rs).
  { induction rs as [|r rs IH]; intros Hd; [reflexivity|].
    inversion Hd as [|? ? Hr Hrs]; subst. cbn [map find]. rewrite Z.eqb_refl. f_equal.
    rewrite IH by exact Hrs. apply map_ext_in. intros r' Hr'.
    destruct (Z.eqb (fst r) (fst r')) eqn:E; [|reflexivity].
    apply Z.eqb_eq in E. exfalso. apply Hr. rewrite E. now apply in_map. }
  exact (G (rows f) Hn).
Qed.

Lemma lookup_delta (W : frame V) a t :
  lookup (rename1 "delta" a (select W ["delta"])) t a = lookup W t "delta".
Proof.
  unfold lookup, rename1, rename_cols, select. cbn [rows cols map].
  rewrite String.eqb_refl.
  induction (rows W) as [|r rs IH]; cbn [map find]; [reflexivity|].
  cbn [fst]. destruct (Z.eqb (fst r) t); [|exact IH].
  unfold get at 1. cbn [cols index_of]. rewrite String.eqb_refl. reflexivity.
Qed.

Lemma flat_map_single_map {A B} (F : A -> list B) (G : A -> B) l :
  (forall x, In x l -> F x = [G x]) -> flat_map F l = map G l.
Proof.
  induction l as [|x t IH]; simpl; intros Hx; [reflexivity|].
  rewrite Hx by now left. simpl. f_equal. apply IH. intros y Hy. apply Hx. now right.
Qed.

Lemma rows_at_one (f : frame V) t :
  NoDup (times f) -> rows_at f t = [] \/ exists r, rows_at f t = [r] /\ In r (rows f) /\ fst r = t.
Proof.
  intros Hn. pose proof (rows_at_small f t Hn) as S.
  destruct (rows_at f t) as [|r [|r' k]] eqn:E; [now left| |simpl in S; lia].
  right. exists r. split; [reflexivity|]. apply rows_at_In. rewrite E. now left.
Qed.

Lemma get_single (f : frame V) r a :
  cols f = [a] -> wf f -> In r (rows f) -> snd r = [get f r a].
Proof.
  intros Hc Hw Hr. unfold wf in Hw. rewrite Forall_forall in Hw.
  pose proof (Hw r Hr) as L. rewrite Hc in L.
  unfold get. rewrite Hc. cbn [index_of]. rewrite String.eqb_refl.
  destruct (snd r) as [|x [|y k]]; simpl in L; try discriminate. reflexivity.
Qed.

(** Two one-column tables with distinct timestamps merge, row by row, into
    the cells found at each timestamp of either side (NaN where missing). *)
Lemma merge_outer_rows1 (l r : frame V) a b sl sr :
  NoDup (times l) -> NoDup (times r) -> cols l = [a] -> cols r = [b] -> wf l -> wf r ->
  rows (merge_outer l r sl sr)
  = map (fun t => (t, [lookup l t a; lookup r t b])) (uniq_Z (times l ++ times r)).
Proof.
  intros Nl Nr Cl Cr Wl Wr. unfold merge_outer. cbv zeta. cbn [rows].
  apply flat_map_single_map. intros t Ht.
  rewrite !lookup_rows_at, Cl, Cr. cbn [List.length repeat].
  apply In_uniq_Z, in_app_or in Ht.
  assert (Ne : rows_at l t <> [] \/ rows_at r t <> [])
    by (destruct Ht as [Ht|Ht]; [left|right]; now apply rows_at_nonempty).
  destruct (rows_at_one l t Nl) as [El|[x [El [Ix Fx]]]];
    destruct (rows_at_one r t Nr) as [Er|[y [Er [Iy Fy]]]]; rewrite El, Er in *;
    cbn [hd_error map flat_map]; try tauto.
  - rewrite (get_single r y b Cr Wr Iy). reflexivity.
  - rewrite (get_single l x a Cl Wl Ix). reflexivity.
  - rewrite (get_single l x a Cl Wl Ix), (get_single r y b Cr Wr Iy). reflexivity.
Qed.

(** The tail of [compute_residual_load_delta] keeps the timestamps and
    fills the NaN of the two delta columns with 0. *)
Lemma residual_tail_vals (result out : frame V) :
  key_col result = true -> wf result -> Sorted Z.lt (times result) ->
  out = (if df_empty result then bare else
         let result := sort_rows result in
         let result := set_col result "wind_delta" (map fill0 (col result "wind_delta")) in
         let result := set_col result "solar_delta" (map fill0 (col result "solar_delta")) in
         let result := set_col result "residual_delta"
               (zip_with (fun a b => v_opp (v_add a b))
                  (col result "wind_delta") (col result "solar_delta")) in
         set_col result "residual_delta_pct"
           (map (fun r => v_mul (v_div r (v_of_Z 100)) (v_of_Z 100)) (col result "residual_delta"))) ->
  times out = times result
  /\ col out "wind_delta" = map fill0 (col result "wind_delta")
  /\ col out "solar_delta" = map fill0 (col result "solar_delta").
Proof.
  intros Hk Hw Hs Ho. split; [eapply residual_tail_times; eauto|]. subst out.
  destruct (df_empty result) eqn:E.
  { unfold col. rewrite (key_empty_rows result Hk E). split; reflexivity. }
  cbv zeta. rewrite sort_rows_id by exact Hs.
  set (f1 := set_col result "wind_delta" (map fill0 (col result "wind_delta"))).
  assert (L1 : List.length (map fill0 (col result "wind_delta")) = List.length (rows result))
    by (now rewrite length_map, length_col).
  assert (W1 : wf f1) by (apply wf_set_col; auto).
  assert (R1 : List.length (rows f1) = List.length (rows result)) by (apply length_rows_set_col; auto).
  set (f2 := set_col f1 "solar_delta" (map fill0 (col f1 "solar_delta"))).
  assert (L2 : List.length (map fill0 (col f1 "solar_delta")) = List.length (rows f1))
    by (now rewrite length_map, length_col).
  assert (W2 : wf f2) by (apply wf_set_col; auto).
  set (vals3 := zip_with (fun a b => v_opp (v_add a b)) (col f2 "wind_delta") (col f2 "solar_delta")).
  set (f3 := set_col f2 "residual_delta" vals3).
  assert (L3 : List.length vals3 = List.length (rows f2)).
  { unfold vals3. rewrite length_zip_with, !length_col. lia. }
  assert (W3 : wf f3) by (apply wf_set_col; auto).
  set (vals4 := map (fun r => v_mul (v_div r (v_of_Z 100)) (v_of_Z 100)) (col f3 "residual_delta")).
  assert (L4 : List.length vals4 = List.length (rows f3)).
  { unfold vals4. now rewrite length_map, length_col. }
  rewrite !col_set_col_other by (auto; discriminate).
  unfold f3. rewrite !col_set_col_other by (auto; discriminate).
  unfold f2. rewrite col_set_col_same by auto. rewrite col_set_col_other by (auto; discriminate).
  unfold f1. rewrite col_set_col_same by auto. rewrite col_set_col_other by (auto; discriminate).
  split; reflexivity.
Qed.

Lemma lookup_no_rows (f : frame V) t c : rows f = [] -> lookup f t c = v_nan.
Proof. intros E. unfold lookup. now rewrite E. Qed.

Lemma fill0_zero : fill0 (v_of_Z 0) = v_of_Z 0.
Proof. unfold fill0. now destruct (v_is_nan (v_of_Z 0)). Qed.

Lemma times_delta1 (W : frame V) a : times (rename1 "delta" a (select W ["delta"])) = times W.
Proof. unfold rename1. now rewrite times_rename, times_select. Qed.

Lemma wf_delta1 (W : frame V) a : wf (rename1 "delta" a (select W ["delta"])).
Proof. apply wf_rename, wf_select. Qed.

(** One side present: the other side's column is all 0. *)
Lemma one_side_vals (Hnan : v_is_nan v_nan = true) (P E : frame V) a b out :
  a <> b -> key_col P = true -> Sorted Z.lt (times P) -> rows E = [] ->
  out = (let result := set_col (rename1 "delta" a (select P ["delta"])) b
                         (map (fun _ => v_of_Z 0) (rows (rename1 "delta" a (select P ["delta"])))) in
         if df_empty result then bare else
         let result := sort_rows result in
         let result := set_col result "wind_delta" (map fill0 (col result "wind_delta")) in
         let result := set_col result "solar_delta" (map fill0 (col result "solar_delta")) in
         let result := set_col result "residual_delta"
               (zip_with (fun a b => v_opp (v_add a b))
                  (col result "wind_delta") (col result "solar_delta")) in
         set_col result "residual_delta_pct"
           (map (fun r => v_mul (v_div r (v_of_Z 100)) (v_of_Z 100)) (col result "residual_delta"))) ->
  (a = "wind_delta" /\ b = "solar_delta" \/ a = "solar_delta" /\ b = "wind_delta") ->
  times out = times P
  /\ col out a = map (fun t => fill0 (lookup P t "delta")) (times out)
  /\ col out b = map (fun t => fill0 (lookup E t "delta")) (times out).
Proof.
  intros Hab Hk Hs He Ho Hn. cbv zeta in Ho.
  set (p := rename1 "delta" a (select P ["delta"])) in *.
  set (r0 := set_col p b (map (fun _ => v_of_Z 0) (rows p))) in *.
  assert (Lp : List.length (map (fun _ : Z * list V => v_of_Z 0) (rows p)) = List.length (rows p))
    by apply length_map.
  assert (Tr : times r0 = times P) by (unfold r0; rewrite times_set_col by exact Lp; apply times_delta1).
  assert (Wr : wf r0) by (apply wf_set_col; [apply wf_delta1|exact Lp]).
  assert (Kr : key_col r0 = true) by (unfold r0; now rewrite key_col_set_col).
  destruct (residual_tail_vals r0 out Kr Wr ltac:(now rewrite Tr) Ho) as [To [Ca Cb]].
  rewrite To, Tr. split; [reflexivity|].
  assert (Cra : col r0 a = col p a) by (apply col_set_col_other; auto; apply wf_delta1).
  assert (Crb : col r0 b = map (fun _ => v_of_Z 0) (rows p)) by (apply col_set_col_same; auto; apply wf_delta1).
  assert (Cpa : col p a = map (fun t => lookup P t "delta") (times P)).
  { assert (Tp : times p = times P) by apply times_delta1.
    rewrite col_lookup by (rewrite Tp; now apply Sorted_lt_NoDup).
    rewrite Tp. apply map_ext. intros t. apply lookup_delta. }
  destruct Hn as [[-> ->]|[-> ->]]; split.
  - rewrite Ca, Cra, Cpa, map_map. reflexivity.
  - rewrite Cb, Crb, map_map. unfold times, p, rename1, rename_cols, select. cbn [rows].
    rewrite !map_map. apply map_ext. intros r. rewrite lookup_no_rows by exact He.
    unfold fill0 at 2. rewrite Hnan. apply fill0_zero.
  - rewrite Cb, Cra, Cpa, map_map. reflexivity.
  - rewrite Ca, Crb, map_map. unfold times, p, rename1, rename_cols, select. cbn [rows].
    rewrite !map_map. apply map_ext. intros r. rewrite lookup_no_rows by exact He.
    unfold fill0 at 2. rewrite Hnan. apply fill0_zero.
Qed.

Lemma residual_load_delta_vals (Hnan : v_is_nan v_nan = true) (st : store V) model
    issue_new issue_old vs ve countries location :
  let loc := Some (default_location countries location) in
  let wd := compute_forecast_delta st model "wind" issue_new issue_old vs ve countries loc in
  let sd := compute_forecast_delta st model "solar" issue_new issue_old vs ve countries loc in
  let res := compute_residual_load_delta st model issue_new issue_old vs ve countries location in
  col res "wind_delta" = map (fun t => fill0 (lookup wd t "delta")) (times res)
  /\ col res "solar_delta" = map (fun t => fill0 (lookup sd t "delta")) (times res).
Proof.
  cbv zeta. unfold compute_residual_load_delta. cbv zeta.
  pose proof (forecast_delta_key st model "wind" issue_new issue_old vs ve countries
                (Some (default_location countries location))) as Kw.
  pose proof (forecast_delta_key st model "solar" issue_new issue_old vs ve countries
                (Some (default_location countries location))) as Ks.
  pose proof (forecast_delta_times_eq st model "wind" issue_new issue_old vs ve countries
                (Some (default_location countries location))) as Tw.
  pose proof (forecast_delta_times_eq st model "solar" issue_new issue_old vs ve countries
                (Some (default_location countries location))) as Ts.
  cbv zeta in Kw, Ks, Tw, Ts.
  set (wd := compute_forecast_delta st model "wind" _ _ _ _ _ _) in *.
  set (sd := compute_forecast_delta st model "solar" _ _ _ _ _ _) in *.
  assert (Sw : Sorted Z.lt (times wd))
    by (rewrite Tw; apply sorted_filter_lt, get_ensemble_by_issue_and_time_shaped).
  assert (Ss : Sorted Z.lt (times sd))
    by (rewrite Ts; apply sorted_filter_lt, get_ensemble_by_issue_and_time_shaped).
  assert (Ew0 : df_empty wd = true -> rows wd = [])
    by (intros E; destruct Kw as [->|Kw]; [reflexivity|now apply key_empty_rows]).
  assert (Es0 : df_empty sd = true -> rows sd = [])
    by (intros E; destruct Ks as [->|Ks]; [reflexivity|now apply key_empty_rows]).
  assert (Kw1 : df_empty wd = false -> key_col wd = true)
    by (intros E; destruct Kw as [->|Kw]; [discriminate|exact Kw]).
  assert (Ks1 : df_empty sd = false -> key_col sd = true)
    by (intros E; destruct Ks as [->|Ks]; [discriminate|exact Ks]).
  clearbody wd sd.
  destruct (df_empty wd) eqn:Ew; destruct (df_empty sd) eqn:Es; cbn [andb negb].
  - split; reflexivity.
  - destruct (one_side_vals Hnan sd wd "solar_delta" "wind_delta" _ ltac:(discriminate)
                (Ks1 eq_refl) Ss (Ew0 eq_refl) eq_refl (or_intror (conj eq_refl eq_refl)))
      as [_ [Cs Cw]].
    split; [exact Cw|exact Cs].
  - destruct (one_side_vals Hnan wd sd "wind_delta" "solar_delta" _ ltac:(discriminate)
                (Kw1 eq_refl) Sw (Es0 eq_refl) eq_refl (or_introl (conj eq_refl eq_refl)))
      as [_ [Cw Cs]].
    split; [exact Cw|exact Cs].
  - set (w := rename1 "delta" "wind_delta" (select wd ["delta"])).
    set (s := rename1 "delta" "solar_delta" (select sd ["delta"])).
    set (m := merge_outer w s "_x" "_y").
    assert (Nw : NoDup (times w)) by (unfold w; rewrite times_delta1; now apply Sorted_lt_NoDup).
    assert (Ns : NoDup (times s)) by (unfold s; rewrite times_delta1; now apply Sorted_lt_NoDup).
    assert (Rm : rows m = map (fun t => (t, [lookup w t "wind_delta"; lookup s t "solar_delta"]))
                            (uniq_Z (times w ++ times s)))
      by (apply merge_outer_rows1; auto; apply wf_delta1).
    assert (Tm : times m = uniq_Z (times w ++ times s))
      by (unfold times at 1; rewrite Rm, map_map; apply map_id).
    assert (Cm : cols m = ["wind_delta"; "solar_delta"]) by reflexivity.
    assert (Wm : wf m) by (apply wf_merge_outer; apply wf_delta1).
    assert (Sm : Sorted Z.lt (times m)) by (rewrite Tm; apply uniq_Z_sorted).
    match goal with |- col ?o "wind_delta" = _ /\ _ =>
      destruct (residual_tail_vals m o eq_refl Wm Sm eq_refl) as [To [Cw Cs]] end.
    rewrite To, Cw, Cs, Tm. unfold col. rewrite Rm, !map_map. split; apply map_ext; intros t.
    + unfold get. rewrite Cm. cbn -[lookup]. unfold w. now rewrite lookup_delta.
    + unfold get. rewrite Cm. cbn -[lookup]. unfold s. now rewrite lookup_delta.
Qed.

End ResidualDeltaValues.


(* ------------------------------------------------------------------ *)
(** ** The percentile labels *)

Section PercentileLabels.
Local Open Scope list_scope.
Local Open Scope nat_scope.
Lemma pct_labels_nodup : NoDup (METDESK_PERCENTILE_MEMBERS ++ METDESK_SPECIAL_MEMBERS).
Proof.
  cbn. repeat constructor; cbn; intros Hin; repeat destruct Hin as [Hin|Hin]; try discriminate Hin;
    exact Hin.
Qed.
End PercentileLabels.

(** * Properties of the engine and the database client *)

Local Open Scope nat_scope.
Local Open Scope string_scope.

(** C1: for a consumption table and a renewables table that share a
    timestamp, [_compute_residual_scenarios] succeeds, keeps the timestamps
    of the inner merge, and for every member [i] in [1..N] whose column
    [total_ren_ens_i] exists in the merge writes [residual_ens_i] equal row
    by row to [consumption_mw - total_ren_ens_i]; on consumption
    [100,110,120,130] and two members with totals 10 and 20 it gives
    [residual_ens_01 = [90,100,110,120]], [residual_ens_02 = [80,90,100,110]],
    and [ens_mean] and [ens_P50] both [[85,95,105,115]]. *)
Theorem C1_residual_columns {V : Type} `{Num V} (cons ren : frame V) model d :
  table_ok cons -> table_ok ren ->
  In "consumption_mw" (cols cons) -> ~ In "consumption_mw" (cols ren) ->
  AVAILABLE_MODELS model = Some d ->
  rows (merge_inner cons ren "_x" "_y") <> [] ->
  (exists res,
      compute_residual_scenarios cons ren model = Ok res
      /\ times res = times (merge_inner cons ren "_x" "_y")
      /\ forall i, 1 <= i <= n_members d -> In (total_name i) (cols (merge_inner cons ren "_x" "_y")) ->
           In (residual_name i) (cols res)
           /\ col res (residual_name i) = residual_of (merge_inner cons ren "_x" "_y") i)
  /\ (exists res,
      compute_residual_scenarios cons1 ren1 "eceps" = Ok res
      /\ col res "residual_ens_01" = [90%float; 100%float; 110%float; 120%float]
      /\ col res "residual_ens_02" = [80%float; 90%float; 100%float; 110%float]
      /\ col res "ens_mean" = [85%float; 95%float; 105%float; 115%float]
      /\ col res "ens_P50" = [85%float; 95%float; 105%float; 115%float]).
Proof.
  intros Hc Hr Hcc Hcr Hd Hne. split.
  - destruct (compute_residual_spec cons ren model d Hc Hr Hcc Hcr Hd Hne)
      as [res [E [_ [T [Hres _]]]]].
    exists res. split; [exact E|]. split; [exact T|]. exact Hres.
  - eexists. split; [vm_compute; reflexivity|].
    vm_compute. repeat split.
Qed.

Lemma C1_residual_columns_witness :
  table_ok cons1 /\ table_ok ren1
  /\ In "consumption_mw" (cols cons1) /\ ~ In "consumption_mw" (cols ren1)
  /\ AVAILABLE_MODELS "eceps" = Some {| label := "ECMWF ENS (eceps)"; n_members := 50 |}
  /\ rows (merge_inner cons1 ren1 "_x" "_y") <> []
  /\ exists res, compute_residual_scenarios cons1 ren1 "eceps" = Ok res
       /\ col res (residual_name 1) = residual_of (merge_inner cons1 ren1 "_x" "_y") 1.
Proof.
  assert (Hc : table_ok cons1) by (split; [reflexivity|vm_compute; repeat constructor]).
  assert (Hr : table_ok ren1) by (split; [reflexivity|vm_compute; repeat constructor]).
  assert (Hcc : In "consumption_mw" (cols cons1)) by (simpl; left; reflexivity).
  assert (Hcr : ~ In "consumption_mw" (cols ren1)) by (simpl; intuition discriminate).
  assert (Hd : AVAILABLE_MODELS "eceps" = Some {| label := "ECMWF ENS (eceps)"; n_members := 50 |})
    by reflexivity.
  assert (Hne : rows (merge_inner cons1 ren1 "_x" "_y") <> []) by (vm_compute; discriminate).
  do 6 (split; [assumption|]).
  destruct (C1_residual_columns cons1 ren1 "eceps" _ Hc Hr Hcc Hcr Hd Hne) as [[res [E [_ Hres]]] _].
  exists res. split; [exact E|]. apply Hres; [simpl; lia|vm_compute; auto].
Defined.

(** C2: when every requested country's renewables fetch returns an empty
    table, or every renewables fetch succeeds and every consumption fetch
    returns an empty table, [update] returns the empty dictionary without
    raising and leaves [self.scenarios] (with its metadata) as it was. *)
Theorem C2_abort_keeps_scenarios {V : Type} `{Num V} (e : engine V) st model issue countries now now' :
  update_aborts st model issue countries ->
  snd (update e st model issue countries now now') = Ok None
  /\ scenarios (fst (update e st model issue countries now now')) = scenarios e.
Proof.
  intros Ha. unfold update. rewrite (update_body_aborts st model issue countries now Ha).
  split; reflexivity.
Qed.

Lemma C2_abort_keeps_scenarios_witness :
  update_aborts (V:=float) empty_store "eceps" None None
  /\ snd (update engine_eceps empty_store "eceps" None None 1%Z 2%Z) = Ok None
  /\ scenarios (fst (update engine_eceps empty_store "eceps" None None 1%Z 2%Z)) = Some bundle_eceps.
Proof.
  assert (Ha : update_aborts (V:=float) empty_store "eceps" None None).
  { left. intros c Hc. destruct Hc as [<-|[]]. exists bare. split; vm_compute; reflexivity. }
  split; [exact Ha|].
  exact (C2_abort_keeps_scenarios engine_eceps empty_store "eceps" None None 1%Z 2%Z Ha).
Defined.

(** C3 (wind present, solar absent): [get_renewable_ensembles] returns the
    renamed wind table early, with no [total_ren_ens_01] column, and the
    whole [update] then publishes residual scenarios with no
    [residual_ens_01] column (no column at all). *)
Theorem C3_wind_only_no_totals :
  (exists ren, get_renewable_ensembles wind_only_store "eceps" None (Some "FR") = Ok ren
     /\ cols ren = ["wind_ens_01"] /\ mem (total_name 1) (cols ren) = false)
  /\ (exists b, snd (update init_engine wind_only_store "eceps" None None 0%Z 1%Z) = Ok (Some b)
     /\ mem (residual_name 1) (cols (residual_scenarios b)) = false
     /\ cols (residual_scenarios b) = []
     /\ List.length (rows (residual_scenarios b)) = 1).
Proof.
  split.
  - eexists. split; [vm_compute; reflexivity|]. vm_compute. split; reflexivity.
  - eexists. split; [vm_compute; reflexivity|]. vm_compute. repeat split.
Qed.

(** C8: when [get_ensemble_forecasts] finds no issue, or the one member
    query it then sends (resolved issue, location default [COUNTRY], the
    model's member labels "1".."N") fails or returns no row, it returns
    [pd.DataFrame()]: a table, not [None], but with no column at all, so no
    [utc_datetime] column. *)
Theorem C8_empty_ensemble_no_columns {V : Type} `{Num V} (st : store V) model element issue location :
  (match issue with Some i => Some i | None => get_latest_issue st model element None end = None
   \/ exists iss d,
        match issue with Some i => Some i | None => get_latest_issue st model element None end
          = Some iss
        /\ AVAILABLE_MODELS model = Some d
        /\ (q_ensemble st model element iss (match location with Some l => l | None => COUNTRY end)
               (map str_nat (seq 1 (n_members d))) = None
            \/ q_ensemble st model element iss (match location with Some l => l | None => COUNTRY end)
                 (map str_nat (seq 1 (n_members d))) = Some [])) ->
  get_ensemble_forecasts st model element issue location = Ok bare
  /\ key_col (bare (V:=V)) = false /\ cols (bare (V:=V)) = [] /\ rows (bare (V:=V)) = [].
Proof.
  intros Hc. split; [|repeat split].
  unfold get_ensemble_forecasts. cbv zeta.
  destruct Hc as [Hc|[iss [d [Hi [Hm Hq]]]]]; [rewrite Hc; reflexivity|].
  rewrite Hi. unfold model_of. rewrite Hm. cbn [bind].
  destruct Hq as [E|E]; rewrite E; reflexivity.
Qed.

Lemma C8_empty_ensemble_no_columns_witness :
  get_ensemble_forecasts (V:=float) empty_store "eceps" "wind" None None = Ok bare
  /\ get_ensemble_forecasts (V:=float) wind_only_store "eceps" "solar" None None = Ok bare
  /\ key_col (bare (V:=float)) = false.
Proof.
  destruct (C8_empty_ensemble_no_columns (V:=float) empty_store "eceps" "wind" None None
              (or_introl eq_refl)) as [E [K _]].
  split; [exact E|split; [|exact K]].
  destruct (C8_empty_ensemble_no_columns (V:=float) wind_only_store "eceps" "solar" None None)
    as [E2 _]; [|exact E2].
  right. exists 0%Z. eexists. split; [reflexivity|]. split; [reflexivity|].
  right. reflexivity.
Defined.

(** C8, against the claim: with no issue in the store the table returned
    has no [utc_datetime] column. *)
Lemma C8_no_timestamp_column :
  exists f, get_ensemble_forecasts (V:=float) empty_store "eceps" "wind" None None = Ok f
    /\ key_col f = false /\ cols f = [].
Proof. exists bare. split; vm_compute; [reflexivity|split; reflexivity]. Qed.

(** C9: [update] sets [current_model] to the requested model before
    fetching anything, so when it returns [{}] early [current_model] names
    the new model while [self.scenarios] still holds the previous run, whose
    metadata can name another model. *)
Theorem C9_model_overwritten_on_abort {V : Type} `{Num V} (e : engine V) st model issue countries now now' :
  update_aborts st model issue countries ->
  let e' := fst (update e st model issue countries now now') in
  current_model e' = Some model
  /\ scenarios e' = scenarios e
  /\ (forall b, scenarios e = Some b -> m_model (metadata b) <> model ->
        option_map (fun b => m_model (metadata b)) (scenarios e') <> current_model e').
Proof.
  intros Ha e'.
  assert (Ee : e' = mk_engine (last_update e) (Some model) (scenarios e)).
  { unfold e', update. now rewrite (update_body_aborts st model issue countries now Ha). }
  rewrite Ee. simpl. split; [reflexivity|]. split; [reflexivity|].
  intros b Hb Hm. rewrite Hb. simpl. intros E. apply Hm. now injection E.
Qed.

Lemma C9_model_overwritten_on_abort_witness :
  update_aborts (V:=float) empty_store "ec46" None None
  /\ current_model (fst (update engine_eceps empty_store "ec46" None None 1%Z 2%Z)) = Some "ec46"
  /\ scenarios (fst (update engine_eceps empty_store "ec46" None None 1%Z 2%Z)) = Some bundle_eceps
  /\ option_map (fun b => m_model (metadata b))
       (scenarios (fst (update engine_eceps empty_store "ec46" None None 1%Z 2%Z)))
     <> current_model (fst (update engine_eceps empty_store "ec46" None None 1%Z 2%Z)).
Proof.
  assert (Ha : update_aborts (V:=float) empty_store "ec46" None None).
  { left. intros c Hc. destruct Hc as [<-|[]]. exists bare. split; vm_compute; reflexivity. }
  destruct (C9_model_overwritten_on_abort engine_eceps empty_store "ec46" None None 1%Z 2%Z Ha)
    as [Hm [Hs Hd]].
  split; [exact Ha|]. split; [exact Hm|]. split; [exact Hs|].
  apply (Hd bundle_eceps); [reflexivity|discriminate].
Defined.

(** C4: in every table returned by [compute_forecast_delta], [delta] is
    [new_mean - old_mean] row by row and [delta_pct] is
    [delta / (old_mean + 0.1) * 100]; with an old mean of 0 and a new mean
    of 5 the row has [delta = 5] and [delta_pct = 5000] exactly. *)
Theorem C4_forecast_delta {V : Type} `{Num V} (st : store V) model element
    issue_new issue_old valid_start valid_end countries location :
  (let res := compute_forecast_delta st model element issue_new issue_old valid_start valid_end
                countries location in
   col res "delta" = zip_with v_sub (col res "new_mean") (col res "old_mean")
   /\ col res "delta_pct"
      = zip_with (fun d o => v_mul (v_div d (v_add o tenth)) (v_of_Z 100))
          (col res "delta") (col res "old_mean"))
  /\ (let res := compute_forecast_delta (delta_store [(0%Z, 0%float)] [(0%Z, 5%float)] [] [])
                   "eceps" "wind" 2 1 0 10 None None in
      col res "old_mean" = [0%float] /\ col res "delta" = [5%float]
      /\ col res "delta_pct" = [5000%float]).
Proof.
  split.
  - apply forecast_delta_cols.
  - vm_compute. repeat split.
Qed.

(** C5: for every call of [compute_residual_load_delta] (NaN being NaN in
    the number type), the rows are the sorted union of the timestamps of the
    wind and solar delta tables; [wind_delta] and [solar_delta] are the
    [delta] of that side at the timestamp, 0 when the side has no row there
    (or a NaN delta); and [residual_delta = -(wind_delta + solar_delta)] row
    by row.  On concrete inputs: wind 3 and solar 2 give -5; a window with
    wind rows only gives [solar_delta = 0]; disjoint hours get 0 on the
    missing side. *)
Theorem C5_residual_load_delta {V : Type} `{Num V} (Hnan : v_is_nan v_nan = true) (st : store V)
    model issue_new issue_old valid_start valid_end countries location :
  (let loc := Some (default_location countries location) in
   let wd := compute_forecast_delta st model "wind" issue_new issue_old valid_start valid_end
               countries loc in
   let sd := compute_forecast_delta st model "solar" issue_new issue_old valid_start valid_end
               countries loc in
   let res := compute_residual_load_delta st model issue_new issue_old valid_start valid_end
                countries location in
   times res = uniq_Z (app (times wd) (times sd))
   /\ col res "wind_delta" = map (fun t => fill0 (lookup wd t "delta")) (times res)
   /\ col res "solar_delta" = map (fun t => fill0 (lookup sd t "delta")) (times res)
   /\ col res "residual_delta"
      = zip_with (fun a b => v_opp (v_add a b)) (col res "wind_delta") (col res "solar_delta"))
  /\ (let res := compute_residual_load_delta
                   (delta_store [(0%Z, 0%float)] [(0%Z, 3%float)] [(0%Z, 0%float)] [(0%Z, 2%float)])
                   "eceps" 2 1 0 10 None None in
      col res "wind_delta" = [3%float] /\ col res "solar_delta" = [2%float]
      /\ col res "residual_delta" = [(-5)%float])
  /\ (let res := compute_residual_load_delta
                   (delta_store [(0%Z, 0%float)] [(0%Z, 3%float)] [] [])
                   "eceps" 2 1 0 10 None None in
      times res = [0%Z] /\ col res "wind_delta" = [3%float] /\ col res "solar_delta" = [0%float]
      /\ col res "residual_delta" = [(-3)%float])
  /\ (let res := compute_residual_load_delta
                   (delta_store [(0%Z, 0%float)] [(0%Z, 3%float)] [(1%Z, 0%float)] [(1%Z, 2%float)])
                   "eceps" 2 1 0 10 None None in
      times res = [0%Z; 1%Z] /\ col res "wind_delta" = [3%float; 0%float]
      /\ col res "solar_delta" = [0%float; 2%float]
      /\ col res "residual_delta" = [(-3)%float; (-2)%float]).
Proof.
  split.
  - cbv zeta.
    destruct (residual_load_delta_vals Hnan st model issue_new issue_old valid_start valid_end
                countries location) as [Cw Cs].
    split; [apply residual_load_delta_times_eq|].
    split; [exact Cw|]. split; [exact Cs|]. apply residual_load_delta_cols.
  - split; [|split]; vm_compute; repeat split.
Qed.

Lemma C5_residual_load_delta_witness :
  @v_is_nan float _ v_nan = true
  /\ times (compute_residual_load_delta
             (delta_store [(0%Z, 0%float)] [(0%Z, 3%float)] [(1%Z, 0%float)] [(1%Z, 2%float)])
             "eceps" 2 1 0 10 None None)
     = uniq_Z (app (times (compute_forecast_delta
                       (delta_store [(0%Z, 0%float)] [(0%Z, 3%float)] [(1%Z, 0%float)] [(1%Z, 2%float)])
                       "eceps" "wind" 2 1 0 10 None (Some (default_location None None))))
                   (times (compute_forecast_delta
                       (delta_store [(0%Z, 0%float)] [(0%Z, 3%float)] [(1%Z, 0%float)] [(1%Z, 2%float)])
                       "eceps" "solar" 2 1 0 10 None (Some (default_location None None))))).
Proof.
  split; [reflexivity|].
  destruct (@C5_residual_load_delta float Float64 eq_refl
              (delta_store [(0%Z, 0%float)] [(0%Z, 3%float)] [(1%Z, 0%float)] [(1%Z, 2%float)])
              "eceps" 2 1 0 10 None None) as [[T _] _].
  exact T.
Defined.




(** C7: when the timestamps of each input are distinct (the consumption
    table is grouped by [utc_datetime] and the renewables table is a pivot
    on it), the table returned by [_compute_residual_scenarios] has at most
    [min] of the two row counts, and each of its timestamps occurs in both
    inputs. *)
Theorem C7_inner_join_rows {V : Type} `{Num V} (cons ren : frame V) model :
  NoDup (times cons) -> NoDup (times ren) ->
  match compute_residual_scenarios cons ren model with
  | Ok res =>
      (List.length (rows res) <= Nat.min (List.length (rows cons)) (List.length (rows ren)))%nat
      /\ forall t, In t (times res) -> In t (times cons) /\ In t (times ren)
  | Err _ => True
  end.
Proof.
  intros Hl Hr.
  destruct (compute_residual_scenarios cons ren model) as [res|e] eqn:E; [|exact I].
  assert (Hlen : forall f : frame V, List.length (rows f) = List.length (times f))
    by (intros f; unfold times; now rewrite length_map).
  pose proof (merge_inner_length cons ren "_x" "_y" Hl Hr) as Hm.
  destruct (compute_residual_times cons ren model res E) as [R|T].
  - rewrite R. unfold times at 1. rewrite R. simpl. split; [lia|intros t []].
  - split.
    + rewrite Hlen, T, <- Hlen. exact Hm.
    + intros t Ht. rewrite T in Ht. exact (merge_inner_times_In cons ren "_x" "_y" t Ht).
Qed.

Lemma C7_inner_join_rows_witness :
  NoDup (times cons1) /\ NoDup (times ren1)
  /\ exists res, compute_residual_scenarios cons1 ren1 "eceps" = Ok res
       /\ (List.length (rows res) <= Nat.min (List.length (rows cons1)) (List.length (rows ren1)))%nat.
Proof.
  assert (Hl : NoDup (times cons1)) by (vm_compute; repeat constructor; simpl; intuition discriminate).
  assert (Hr : NoDup (times ren1)) by (vm_compute; repeat constructor; simpl; intuition discriminate).
  split; [exact Hl|]. split; [exact Hr|].
  pose proof (C7_inner_join_rows cons1 ren1 "eceps" Hl Hr) as Hm.
  destruct (compute_residual_scenarios cons1 ren1 "eceps") as [res|e] eqn:E.
  - exists res. split; [reflexivity|]. exact (proj1 Hm).
  - vm_compute in E. discriminate E.
Defined.

(** C10, corrected: [residual_delta_pct] is [residual_delta / 100 * 100]
    computed in the number type of the frames; with exact rationals it
    equals [residual_delta] at every row. *)
Theorem C10_residual_delta_pct {V : Type} `{Num V} (st : store V) model
    issue_new issue_old valid_start valid_end countries location :
  (let res := compute_residual_load_delta st model issue_new issue_old valid_start valid_end
                countries location in
   col res "residual_delta_pct"
   = map (fun r => v_mul (v_div r (v_of_Z 100)) (v_of_Z 100)) (col res "residual_delta"))
  /\ forall stq : store (option Q),
       let res := compute_residual_load_delta stq model issue_new issue_old valid_start valid_end
                    countries location in
       col res "residual_delta_pct" = col res "residual_delta".
Proof.
  split; [apply residual_load_delta_cols|].
  intros stq res.
  destruct (residual_load_delta_cols stq model issue_new issue_old valid_start valid_end
              countries location) as [A B].
  fold res in A, B. rewrite B, A, map_zip_with.
  unfold zip_with. apply map_ext. intros [a b]. apply exact_pct_opp.
Qed.

(** C10 counterexample: in double precision, a wind drop of 7 MW gives
    [residual_delta = 7] but [residual_delta_pct = 7 / 100 * 100 =
    7.000000000000001], the double just above 7, written 0x1.c000000000001p+2. *)
Lemma C10_float_pct_differs :
  let res := compute_residual_load_delta (delta_store [(0%Z, 7%float)] [(0%Z, 0%float)] [] [])
               "eceps" 2 1 0 10 None None in
  col res "residual_delta" = [7%float]
  /\ col res "residual_delta_pct" = [0x1.c000000000001p+2%float]
  /\ PrimFloat.eqb 7%float 0x1.c000000000001p+2%float = false.
Proof. vm_compute. repeat split. Qed.


(* ================================================================== *)
(** * Further properties of the engine and the client *)

(** X1: when [update] publishes a bundle, the engine holds it with the
    model and the second clock reading as [last_update], its residual table
    is [_compute_residual_scenarios] of its consumption and renewables
    tables, and its metadata carry the configured label and member count of
    the model, the first clock reading as [updated_at], the
    countries asked for (default [[COUNTRY]]) and the issue asked for, or
    else the latest wind issue of the first country. *)
Theorem update_publishes_consistent {V : Type} `{Num V} (e : engine V) st model issue countries now now' b :
  snd (update e st model issue countries now now') = Ok (Some b) ->
  fst (update e st model issue countries now now') = mk_engine (Some now') (Some model) (Some b)
  /\ compute_residual_scenarios (consumption b) (renewables_ens b) model = Ok (residual_scenarios b)
  /\ (exists d, AVAILABLE_MODELS model = Some d
        /\ m_model_label (metadata b) = label d /\ m_n_members (metadata b) = n_members d)
  /\ m_model (metadata b) = model
  /\ m_updated_at (metadata b) = now
  /\ m_countries (metadata b) = default_countries countries
  /\ m_issue (metadata b) = match issue with
                            | Some i => Some i
                            | None => get_latest_issue st model "wind"
                                        (Some (upper (hd COUNTRY (default_countries countries))))
                            end.
Proof.
  intros Hs. destruct (update_some e st model issue countries now now' b Hs) as [Hb He].
  destruct (update_body_some st model issue countries now b Hb)
    as [f0 [fs [d [_ [_ [_ [_ [Hr [Hm Hmd]]]]]]]]].
  rewrite Hmd. cbn. split; [exact He|]. split; [exact Hr|]. split.
  - exists d. unfold model_of in Hm. destruct (AVAILABLE_MODELS model) as [d'|]; [|discriminate].
    injection Hm as ->. auto.
  - repeat split; destruct issue; reflexivity.
Qed.

Lemma update_publishes_consistent_witness :
  exists b, snd (update init_engine wind_only_store "eceps" None None 0%Z 1%Z) = Ok (Some b)
  /\ m_countries (metadata b) = ["FR"].
Proof.
  destruct (snd (update init_engine wind_only_store "eceps" None None 0%Z 1%Z)) as [[b|]|x] eqn:E;
    [|vm_compute in E; discriminate|vm_compute in E; discriminate].
  exists b. split; [reflexivity|].
  destruct (update_publishes_consistent init_engine wind_only_store "eceps" None None 0%Z 1%Z b E)
    as [_ [_ [_ [_ [_ [Hc _]]]]]].
  exact Hc.
Defined.

(** X2: for a model missing from [AVAILABLE_MODELS], [update] never
    publishes a bundle; the engine keeps its scenarios and its last update
    time, and only records the requested model. *)
Theorem update_unknown_model {V : Type} `{Num V} (e : engine V) st model issue countries now now' :
  AVAILABLE_MODELS model = None ->
  (forall b, snd (update e st model issue countries now now') <> Ok (Some b))
  /\ scenarios (fst (update e st model issue countries now now')) = scenarios e
  /\ last_update (fst (update e st model issue countries now now')) = last_update e
  /\ current_model (fst (update e st model issue countries now now')) = Some model.
Proof.
  intros Hn.
  assert (Hb : forall b, update_body st model issue countries now <> Ok (Some b)).
  { intros b Hb. destruct (update_body_some st model issue countries now b Hb)
      as [_ [_ [d [_ [_ [_ [_ [_ [Hm _]]]]]]]]].
    unfold model_of in Hm. rewrite Hn in Hm. discriminate. }
  unfold update. destruct (update_body st model issue countries now) as [[b|]|x] eqn:E.
  - exfalso. exact (Hb b eq_refl).
  - cbn. repeat split. discriminate.
  - cbn. repeat split. discriminate.
Qed.

Lemma update_unknown_model_witness :
  AVAILABLE_MODELS "foo" = None
  /\ scenarios (fst (update engine_eceps wind_only_store "foo" None None 1%Z 2%Z)) = Some bundle_eceps.
Proof.
  assert (Hn : AVAILABLE_MODELS "foo" = None) by reflexivity.
  split; [exact Hn|].
  destruct (update_unknown_model engine_eceps wind_only_store "foo" None None 1%Z 2%Z Hn)
    as [_ [Hs _]].
  exact Hs.
Defined.

(** X3: in a published bundle the consumption, renewables and residual
    tables have strictly increasing timestamps, the first two have rows of
    the right width, and the residual table has no more rows than either
    of them. *)
Theorem update_tables_sorted {V : Type} `{Num V} (e : engine V) st model issue countries now now' b :
  snd (update e st model issue countries now now') = Ok (Some b) ->
  Sorted Z.lt (times (consumption b)) /\ wf (consumption b)
  /\ Sorted Z.lt (times (renewables_ens b)) /\ wf (renewables_ens b)
  /\ Sorted Z.lt (times (residual_scenarios b))
  /\ List.length (rows (residual_scenarios b))
       <= Nat.min (List.length (rows (consumption b))) (List.length (rows (renewables_ens b))).
Proof.
  intros Hs. destruct (update_some e st model issue countries now now' b Hs) as [Hb _].
  destruct (update_body_some st model issue countries now b Hb)
    as [f0 [fs [d [Hf [Hren [Hsum [_ [Hr _]]]]]]]].
  destruct (times_sum_consumption _ _ Hsum) as [[Cs Cw] _].
  pose proof (fetch_renewables_shaped st model issue _ _ Hf) as Fs.
  apply Forall_inv in Fs.
  destruct (fold_frame_add_shaped fs f0 Fs) as [Rs Rw]. rewrite <- Hren in Rs, Rw.
  do 4 (split; [assumption|]).
  destruct (compute_residual_times _ _ _ _ Hr) as [E|E].
  - unfold times. rewrite E. split; [constructor|cbn; lia].
  - rewrite E, (length_rows_times _ _ E). split.
    + apply merge_inner_sorted; [exact Cs|now apply Sorted_lt_NoDup].
    + apply merge_inner_length; now apply Sorted_lt_NoDup.
Qed.

Lemma update_tables_sorted_witness :
  exists b, snd (update init_engine wind_only_store "eceps" None None 0%Z 1%Z) = Ok (Some b)
  /\ Sorted Z.lt (times (residual_scenarios b)).
Proof.
  destruct (snd (update init_engine wind_only_store "eceps" None None 0%Z 1%Z)) as [[b|]|x] eqn:E;
    [|vm_compute in E; discriminate|vm_compute in E; discriminate].
  exists b. split; [reflexivity|].
  destruct (update_tables_sorted init_engine wind_only_store "eceps" None None 0%Z 1%Z b E)
    as [_ [_ [_ [_ [Hs _]]]]].
  exact Hs.
Defined.

(** X4: in a published bundle the consumption timestamps are those of
    the countries' consumption tables together, the renewables timestamps
    those of the countries' non-empty renewables tables together, and every
    residual timestamp is both a consumption and a renewables timestamp. *)
Theorem update_timestamps {V : Type} `{Num V} (e : engine V) st model issue countries now now' b :
  snd (update e st model issue countries now now') = Ok (Some b) ->
  (forall t, In t (times (consumption b)) <->
     exists c, In c (default_countries countries)
               /\ In t (times (get_eq_consumption st issue (Some (lower c)))))
  /\ (forall t, In t (times (renewables_ens b)) <->
     exists c g, In c (default_countries countries)
                 /\ get_renewable_ensembles st model issue (Some (upper c)) = Ok g
                 /\ df_empty g = false /\ In t (times g))
  /\ (forall t, In t (times (residual_scenarios b)) ->
                In t (times (consumption b)) /\ In t (times (renewables_ens b))).
Proof.
  intros Hs. destruct (update_some e st model issue countries now now' b Hs) as [Hb _].
  exact (update_times st model issue countries now b Hb).
Qed.

Lemma update_timestamps_witness :
  exists b, snd (update init_engine wind_only_store "eceps" None None 0%Z 1%Z) = Ok (Some b)
  /\ In 0%Z (times (consumption b)).
Proof.
  destruct (snd (update init_engine wind_only_store "eceps" None None 0%Z 1%Z)) as [[b|]|x] eqn:E;
    [|vm_compute in E; discriminate|vm_compute in E; discriminate].
  exists b. split; [reflexivity|].
  destruct (update_timestamps init_engine wind_only_store "eceps" None None 0%Z 1%Z b E) as [Hc _].
  apply Hc. exists "FR". split; [now left|]. vm_compute. now left.
Defined.

(** X5: over the forecasts table, every column [get_ensemble_forecasts]
    returns is a member [ens_01 .. ens_N] of a configured model with [N]
    members, and every timestamp is at most two days old and is the
    [utc_datetime] of a non-NULL row of the requested location, model,
    element and issue (the latest one when none is given). *)
Theorem ensemble_from_table {V : Type} `{Num V} (tbl : list (md_row V)) eqt now
    model element issue location f :
  get_ensemble_forecasts (metdesk_store tbl eqt now) model element issue location = Ok f ->
  (forall c, In c (cols f) ->
     exists d i, AVAILABLE_MODELS model = Some d /\ 1 <= i <= n_members d
                 /\ c = "ens_" ++ fmt02 i)
  /\ (forall t, In t (times f) ->
     (now - two_days <= t)%Z
     /\ exists r, In r tbl /\ md_utc r = t
        /\ md_location r = match location with Some l => l | None => COUNTRY end
        /\ md_model r = model /\ md_element r = element
        /\ Some (md_issue r) = match issue with
                               | Some i => Some i
                               | None => get_latest_issue (metdesk_store tbl eqt now) model element None
                               end
        /\ v_is_nan (md_value r) = false).
Proof.
  unfold get_ensemble_forecasts. cbv zeta.
  destruct (match issue with Some i => Some i | None => _ end) as [iss|] eqn:Ei;
    [|intros E; injection E as <-; split; intros ? []].
  destruct (model_of model) as [d|x] eqn:Em; cbn [bind]; [|discriminate].
  cbn [q_ensemble metdesk_store].
  set (loc := match location with Some l => l | None => COUNTRY end).
  destruct (sql_ensemble tbl now model element iss loc (map str_nat (seq 1 (n_members d))))
    as [|x xs] eqn:Eq; intros E; injection E as <-; [split; intros ? []|].
  assert (Hrow : forall t m v, In (t, m, v) (x :: xs) ->
     exists r, In r tbl /\ md_utc r = t /\ md_member r = m /\ md_value r = v
       /\ md_where loc model element r = true /\ md_issue r = iss
       /\ In m (map str_nat (seq 1 (n_members d))) /\ (now - two_days <= t)%Z).
  { intros t m v Hx. rewrite <- Eq in Hx. unfold sql_ensemble in Hx.
    apply In_firstn_l, In_sort_by, in_map_iff in Hx as [r [Er Hr]].
    unfold long_of in Er. injection Er as Et Em' Ev.
    apply filter_In in Hr as [Hr Hc].
    apply andb_prop in Hc as [Hc Ht]. apply andb_prop in Hc as [Hc Hm].
    apply andb_prop in Hc as [Hw Hi].
    exists r. rewrite <- Em', <- Et. repeat split; auto.
    - now apply Z.eqb_eq.
    - now apply mem_In.
    - now apply Z.leb_le. }
  split.
  - intros c Hc. cbn [cols sort_rows rename_cols] in Hc.
    apply in_map_iff in Hc as [m [<- Hm]].
    destruct (In_cols_pivot _ _ Hm) as [t [v [Hx _]]].
    destruct (Hrow t m v Hx) as [r [_ [_ [_ [_ [_ [_ [Hs _]]]]]]]].
    apply in_map_iff in Hs as [i [<- Hi]]. apply in_seq in Hi.
    exists d, i. unfold model_of in Em.
    destruct (AVAILABLE_MODELS model); [|discriminate]. injection Em as ->.
    split; [reflexivity|]. split; [lia|]. apply ens_name_str_nat.
  - intros t Ht. rewrite In_times_sort_rows in Ht.
    destruct (In_times_pivot (x :: xs) t Ht) as [m [v [Hx Hv]]].
    destruct (Hrow t m v Hx) as [r [Hr [Et [_ [Ev [Hw [Hi [_ Hn]]]]]]]].
    split; [exact Hn|]. exists r.
    unfold md_where in Hw. apply andb_prop in Hw as [Hw He]. apply andb_prop in Hw as [Hl Hm].
    apply String.eqb_eq in Hl, Hm, He.
    repeat split; auto. rewrite Hi. reflexivity. congruence.
Qed.

Lemma ensemble_from_table_witness :
  exists f, get_ensemble_forecasts (metdesk_store one_row_tbl [] 0%Z) "eceps" "wind" None None = Ok f
  /\ forall c, In c (cols f) -> exists d i, AVAILABLE_MODELS "eceps" = Some d /\ 1 <= i <= n_members d
                                            /\ c = "ens_" ++ fmt02 i.
Proof.
  destruct (get_ensemble_forecasts (metdesk_store one_row_tbl [] 0%Z) "eceps" "wind" None None)
    as [f|x] eqn:E; [|vm_compute in E; discriminate].
  exists f. split; [reflexivity|].
  exact (proj1 (ensemble_from_table one_row_tbl [] 0%Z "eceps" "wind" None None f E)).
Defined.

(** X6: over the consumption table, [get_eq_consumption] returns at most
    500 rows in non-decreasing time order, each from a row of the requested
    country (case-insensitive, default [fr]) at most two days old; a recent
    row of that country that is left out is no later than any kept one. *)
Theorem consumption_from_table {V : Type} `{Num V} (tbl : list (md_row V)) eqt now issue location :
  let f := get_eq_consumption (metdesk_store tbl eqt now) issue location in
  let loc := match location with Some l => l | None => "fr" end in
  List.length (rows f) <= 500
  /\ Sorted Z.le (times f)
  /\ (forall t, In t (times f) ->
        (now - two_days <= t)%Z /\ exists r, In r eqt /\ eq_utc r = t /\ lower (eq_country r) = loc)
  /\ (forall r, In r eqt -> lower (eq_country r) = loc -> (now - two_days <= eq_utc r)%Z ->
        In (eq_utc r) (times f) \/ forall t, In t (times f) -> (eq_utc r <= t)%Z).
Proof.
  cbv zeta. split; [|split; [apply get_eq_consumption_shape|]];
    unfold get_eq_consumption; cbv zeta; cbn [q_consumption metdesk_store];
    set (loc := match location with Some l => l | None => "fr" end);
    unfold sql_consumption;
    set (L := sort_by _ _).
  - destruct (firstn 500 L) as [|p ps] eqn:E; [cbn; apply Nat.leb_le; reflexivity|].
    unfold sort_rows. cbn [rows].
    rewrite (Permutation_length (perm_sort_by (fun a b : Z * list V => Z.leb (fst a) (fst b)) _)), length_map, <- E.
    apply firstn_le_length.
  - assert (Hk : forall t, In t (times (match firstn 500 L with
        | [] => mk_frame (V:=V) true ["consumption_mw"] []
        | _ :: _ => sort_rows (mk_frame true ["consumption_mw"]
                      (map (fun '(t, v) => (t, [v])) (firstn 500 L)))
        end)) <-> In t (map fst (firstn 500 L))).
    { intros t. destruct (firstn 500 L) as [|p ps]; [reflexivity|].
      rewrite In_times_sort_rows. unfold times. cbn [rows]. rewrite map_map.
      rewrite (map_ext _ fst); [reflexivity|]. now intros [? ?]. }
    assert (HL : forall p, In p L <-> exists r, In r eqt
        /\ (String.eqb (lower (eq_country r)) loc && Z.leb (now - two_days) (eq_utc r)) = true
        /\ p = (eq_utc r, coalesce (eq_fcst_latest r) (eq_act r))).
    { intros p. unfold L. rewrite In_sort_by, in_map_iff. split.
      - intros [r [<- Hr]]. apply filter_In in Hr as [Hr Hc]. exists r. auto.
      - intros [r [Hr [Hc ->]]]. exists r. split; [reflexivity|]. now apply filter_In. }
    split.
    + intros t Ht. apply Hk, in_map_iff in Ht as [p [<- Hp]].
      apply In_firstn_l, HL in Hp as [r [Hr [Hc ->]]].
      apply andb_prop in Hc as [Hl Hn]. apply String.eqb_eq in Hl. apply Z.leb_le in Hn.
      split; [exact Hn|]. exists r. auto.
    + intros r Hr Hl Hn.
      assert (Hp : In (eq_utc r, coalesce (eq_fcst_latest r) (eq_act r)) L).
      { apply HL. exists r. split; [exact Hr|]. split; [|reflexivity].
        apply andb_true_intro. split; [now apply String.eqb_eq|now apply Z.leb_le]. }
      rewrite <- (firstn_skipn 500 L) in Hp. apply in_app_or in Hp as [Hp|Hp].
      * left. apply Hk. change (eq_utc r) with (fst (eq_utc r, coalesce (eq_fcst_latest r) (eq_act r))).
        now apply in_map.
      * right. intros t Ht. apply Hk, in_map_iff in Ht as [q [<- Hq]].
        assert (Hs : StronglySorted (fun a b : Z * V => Z.leb (fst b) (fst a) = true) L).
        { apply Sorted_StronglySorted.
          - intros a b c Hab Hbc. apply Z.leb_le in Hab, Hbc. apply Z.leb_le. lia.
          - apply sorted_sort_by. intros a b Hab. apply Zleb_total, Hab. }
        rewrite <- (firstn_skipn 500 L) in Hs.
        pose proof (StronglySorted_app_rel _ _ _ _ _ Hs Hq Hp) as Hle.
        apply Z.leb_le in Hle. exact Hle.
Qed.

(** X7: over the forecasts table, [get_available_issues] lists at most 10
    issues in strictly decreasing order, each the issue of a wind row of
    the model and (upper-cased) location, and the first one is the issue
    [_get_latest_issue] returns. *)
Theorem available_issues_from_table {V : Type} `{Num V} (tbl : list (md_row V)) eqt now
    model location :
  let l := engine_get_available_issues (metdesk_issues_query tbl) model location in
  let loc := match location with
             | Some x => if String.eqb x "" then Some x else Some (upper x)
             | None => None
             end in
  StronglySorted Z.gt l /\ List.length l <= 10
  /\ (forall i, In i l -> exists r, In r tbl /\ md_issue r = i
        /\ md_where (match loc with Some x => x | None => COUNTRY end) model "wind" r = true)
  /\ hd_error l = get_latest_issue (metdesk_store tbl eqt now) model "wind" loc.
Proof.
  cbv zeta. unfold engine_get_available_issues, get_available_issues, get_latest_issue.
  cbn [metdesk_issues_query q_latest_issue metdesk_store].
  set (loc := match match location with
                    | Some x => if String.eqb x "" then Some x else Some (upper x)
                    | None => None end with Some x => x | None => COUNTRY end).
  unfold sql_issues, sql_latest_issue.
  set (m := map md_issue (filter (md_where loc model "wind") tbl)).
  pose proof (rev_sorted_gt _ (uniq_Z_sorted m)) as Hs.
  split; [now apply StronglySorted_firstn|].
  split; [apply firstn_le_length|].
  split.
  - intros i Hi. apply In_firstn_l in Hi. rewrite <- in_rev, In_uniq_Z in Hi.
    unfold m in Hi. apply in_map_iff in Hi as [r [<- Hr]]. apply filter_In in Hr as [Hr Hw].
    exists r. auto.
  - destruct (rev (uniq_Z m)) as [|x rs] eqn:Er.
    + destruct m as [|i is] eqn:Em; [reflexivity|].
      assert (Hi : In i (rev (uniq_Z (i :: is)))) by (rewrite <- in_rev, In_uniq_Z; now left).
      rewrite Er in Hi. contradiction.
    + cbn [firstn hd_error].
      assert (Hx : In x m) by (rewrite <- In_uniq_Z, in_rev, Er; now left).
      assert (Hmax : forall y, In y m -> (y <= x)%Z).
      { intros y Hy. rewrite <- In_uniq_Z, in_rev, Er in Hy.
        apply StronglySorted_inv in Hs as [_ Ha]. rewrite Forall_forall in Ha.
        destruct Hy as [<-|Hy]; [lia|]. specialize (Ha y Hy). lia. }
      destruct m as [|i is]; [contradiction|].
      destruct (fold_max_spec is i) as [Hin Hle]. f_equal.
      specialize (Hle x Hx). specialize (Hmax _ Hin). lia.
Qed.

(** X8: when the wind and solar ensemble fetches both return non-empty
    tables, [get_renewable_ensembles] returns the [wind_*] columns, then the
    [solar_*] columns, then [total_ren_ens_i] for each member [i] in
    [1..N] present in both, and the sorted union of the two tables'
    timestamps. *)
Theorem renewable_ensembles_layout {V : Type} `{Num V} (st : store V) model issue location
    wind solar f :
  get_ensemble_forecasts st model "wind" issue location = Ok wind ->
  get_ensemble_forecasts st model "solar" issue location = Ok solar ->
  df_empty wind = false -> df_empty solar = false ->
  get_renewable_ensembles st model issue location = Ok f ->
  exists d, AVAILABLE_MODELS model = Some d
  /\ cols f = app (map (fun c => "wind_" ++ c) (cols wind))
                 (app (map (fun c => "solar_" ++ c) (cols solar))
                    (map total_name (filter (fun i => mem ("ens_" ++ fmt02 i) (cols wind)
                                                      && mem ("ens_" ++ fmt02 i) (cols solar))
                                       (seq 1 (n_members d)))))
  /\ times f = uniq_Z (times wind ++ times solar).
Proof.
  intros Ew Es Nw Ns. unfold get_renewable_ensembles. rewrite Ew, Es. cbn [bind].
  unfold combine_ensembles. rewrite Nw, Ns. change (false && false) with false.
  change (negb false) with true. cbv beta iota zeta.
  rewrite !df_empty_rename, Nw, Ns. cbv beta iota.
  destruct (model_of model) as [d|x] eqn:Em; cbn [bind]; [|discriminate].
  match goal with |- Ok ?t = Ok f -> _ => remember t as g eqn:Eg end.
  intros E. injection E as <-. subst g. exists d.
  split; [unfold model_of in Em; destruct (AVAILABLE_MODELS model); congruence|].
  set (W := rename_cols (fun c => "wind_" ++ c) wind).
  set (S := rename_cols (fun c => "solar_" ++ c) solar).
  assert (Hd : forall c, In c (cols W) -> ~ In c (cols S)).
  { intros c Hc Hc'. apply In_map_append in Hc as [y ->], Hc' as [z E]. discriminate E. }
  assert (Hcols : cols (fillna0 (merge_outer W S "_x" "_y")) = (cols W ++ cols S)%list)
    by (apply merge_cols_disjoint, Hd).
  destruct (get_ensemble_forecasts_shaped st _ _ _ _ _ Ew) as [Sw Ww].
  destruct (get_ensemble_forecasts_shaped st _ _ _ _ _ Es) as [Ss Ws].
  split.
  - change add_total with (total_step (V:=V) wind_name solar_name total_name).
    rewrite cols_total_fold.
    + rewrite Hcols, <- app_assoc. f_equal. f_equal. f_equal. apply filter_ext. intros i.
      unfold mem at 1 2. rewrite !existsb_app. fold (mem (wind_name i) (cols W)).
      fold (mem (wind_name i) (cols S)). fold (mem (solar_name i) (cols W)).
      fold (mem (solar_name i) (cols S)).
      unfold W, S. cbn [cols rename_cols].
      change (wind_name i) with ("wind_" ++ ("ens_" ++ fmt02 i)).
      change (solar_name i) with ("solar_" ++ ("ens_" ++ fmt02 i)).
      rewrite !mem_map_append, !mem_map_other by (intros y; discriminate).
      now rewrite !orb_false_r.
    + apply NoDup_map_inj; [exact total_name_inj|apply seq_NoDup].
    + intros k _. rewrite Hcols. intros Hk. apply in_app_or in Hk as [Hk|Hk];
        apply In_map_append in Hk as [y E]; discriminate E.
    + intros k j _ _. split; discriminate.
  - change add_total with (total_step (V:=V) wind_name solar_name total_name).
    rewrite times_total_fold by (apply wf_fillna0, wf_merge_outer; now apply wf_rename).
    rewrite times_fillna0, merge_outer_times by (now apply Sorted_lt_NoDup).
    reflexivity.
Qed.

Lemma renewable_ensembles_layout_witness :
  exists wind solar f,
    get_ensemble_forecasts both_store "eceps" "wind" None None = Ok wind
    /\ get_ensemble_forecasts both_store "eceps" "solar" None None = Ok solar
    /\ df_empty wind = false /\ df_empty solar = false
    /\ get_renewable_ensembles both_store "eceps" None None = Ok f
    /\ times f = uniq_Z (times wind ++ times solar).
Proof.
  destruct (get_ensemble_forecasts both_store "eceps" "wind" None None) as [w|x] eqn:Ew;
    [|vm_compute in Ew; discriminate].
  destruct (get_ensemble_forecasts both_store "eceps" "solar" None None) as [s|x] eqn:Es;
    [|vm_compute in Es; discriminate].
  destruct (get_renewable_ensembles both_store "eceps" None None) as [f|x] eqn:Ef;
    [|vm_compute in Ef; discriminate].
  assert (Nw : df_empty w = false) by (vm_compute in Ew; injection Ew as <-; reflexivity).
  assert (Ns : df_empty s = false) by (vm_compute in Es; injection Es as <-; reflexivity).
  exists w, s, f. do 5 (split; [first [assumption|reflexivity]|]).
  destruct (renewable_ensembles_layout both_store "eceps" None None w s f Ew Es Nw Ns Ef)
    as [d [_ [_ Ht]]].
  exact Ht.
Defined.

(** X9: [get_renewable_percentiles] returns, when only the wind table is
    non-empty, its [wind_*] columns and its timestamps; when both are
    non-empty, the [wind_*] columns, the [solar_*] columns, then
    [total_ren_p] for each percentile or special member [p] present in
    both, in the configured order, and the sorted union of the timestamps. *)
Theorem renewable_percentiles_layout {V : Type} `{Num V} (st : store V) qp model issue
    wind solar f :
  get_percentile_forecasts st qp model "wind" issue None = Some wind ->
  get_percentile_forecasts st qp model "solar" issue None = Some solar ->
  get_renewable_percentiles st qp model issue = Some f ->
  (df_empty wind = false -> df_empty solar = true ->
     cols f = map (fun c => "wind_" ++ c) (cols wind) /\ times f = times wind)
  /\ (df_empty wind = false -> df_empty solar = false ->
     cols f = app (map (fun c => "wind_" ++ c) (cols wind))
                (app (map (fun c => "solar_" ++ c) (cols solar))
                   (map (fun p => "total_ren_" ++ p)
                      (filter (fun p => mem p (cols wind) && mem p (cols solar))
                         (METDESK_PERCENTILE_MEMBERS ++ METDESK_SPECIAL_MEMBERS))))
     /\ times f = uniq_Z (times wind ++ times solar)).
Proof.
  intros Ew Es Ef. unfold get_renewable_percentiles in Ef. rewrite Ew, Es in Ef.
  destruct (get_percentile_forecasts_shaped st qp _ _ _ _ _ Ew) as [Sw Ww].
  destruct (get_percentile_forecasts_shaped st qp _ _ _ _ _ Es) as [Ss Ws].
  split; intros Nw Ns; rewrite Nw, Ns in Ef; change (false && _) with false in Ef;
    change (negb false) with true in Ef; cbv beta iota zeta in Ef;
    rewrite df_empty_rename, Nw in Ef; cbv beta iota in Ef.
  - change (negb true) with false in Ef. cbv beta iota in Ef. rewrite Ns in Ef.
    cbv beta iota in Ef.
    match type of Ef with Some ?t = Some f => remember t as g eqn:Eg end.
    injection Ef as <-. subst g. split; reflexivity.
  - rewrite df_empty_rename, Ns in Ef. cbv beta iota in Ef.
    match type of Ef with Some ?t = Some f => remember t as g eqn:Eg end.
    injection Ef as <-. subst g.
    set (W := rename_cols (fun c => "wind_" ++ c) wind).
    set (S := rename_cols (fun c => "solar_" ++ c) solar).
    assert (Hd : forall c, In c (cols W) -> ~ In c (cols S)).
    { intros c Hc Hc'. apply In_map_append in Hc as [y ->], Hc' as [z E]. discriminate E. }
    assert (Hcols : cols (fillna0 (merge_outer W S "_x" "_y")) = (cols W ++ cols S)%list)
      by (apply merge_cols_disjoint, Hd).
    change add_total_pct with (total_step (V:=V) (fun p => "wind_" ++ p) (fun p => "solar_" ++ p)
                                 (fun p => "total_ren_" ++ p)).
    split.
    + rewrite cols_total_fold.
      * rewrite Hcols, <- app_assoc. f_equal. f_equal. f_equal. apply filter_ext. intros p.
        unfold mem at 1 2. rewrite !existsb_app.
        fold (mem ("wind_" ++ p) (cols W)). fold (mem ("wind_" ++ p) (cols S)).
        fold (mem ("solar_" ++ p) (cols W)). fold (mem ("solar_" ++ p) (cols S)).
        unfold W, S. cbn [cols rename_cols].
        rewrite !mem_map_append, !mem_map_other by (intros y; discriminate).
        now rewrite !orb_false_r.
      * apply NoDup_map_inj; [apply append_inj_l|apply pct_labels_nodup].
      * intros k _. rewrite Hcols. intros Hk. apply in_app_or in Hk as [Hk|Hk];
          apply In_map_append in Hk as [y E]; discriminate E.
      * intros k j _ _. split; discriminate.
    + rewrite times_total_fold by (apply wf_fillna0, wf_merge_outer; now apply wf_rename).
      rewrite times_fillna0, merge_outer_times by (now apply Sorted_lt_NoDup).
      reflexivity.
Qed.

Lemma renewable_percentiles_layout_witness :
  exists wind solar f,
    get_percentile_forecasts (metdesk_store pct_tbl [] 0%Z) (metdesk_pct_query pct_tbl)
      "eceps" "wind" None None = Some wind
    /\ get_percentile_forecasts (metdesk_store pct_tbl [] 0%Z) (metdesk_pct_query pct_tbl)
      "eceps" "solar" None None = Some solar
    /\ get_renewable_percentiles (metdesk_store pct_tbl [] 0%Z) (metdesk_pct_query pct_tbl)
      "eceps" None = Some f
    /\ times f = uniq_Z (times wind ++ times solar).
Proof.
  destruct (get_percentile_forecasts (metdesk_store pct_tbl [] 0%Z) (metdesk_pct_query pct_tbl)
      "eceps" "wind" None None) as [w|] eqn:Ew; [|vm_compute in Ew; discriminate].
  destruct (get_percentile_forecasts (metdesk_store pct_tbl [] 0%Z) (metdesk_pct_query pct_tbl)
      "eceps" "solar" None None) as [s|] eqn:Es; [|vm_compute in Es; discriminate].
  destruct (get_renewable_percentiles (metdesk_store pct_tbl [] 0%Z) (metdesk_pct_query pct_tbl)
      "eceps" None) as [f|] eqn:Ef; [|vm_compute in Ef; discriminate].
  assert (Nw : df_empty w = false) by (vm_compute in Ew; injection Ew as <-; reflexivity).
  assert (Ns : df_empty s = false) by (vm_compute in Es; injection Es as <-; reflexivity).
  exists w, s, f. do 3 (split; [reflexivity|]).
  destruct (renewable_percentiles_layout _ _ "eceps" None w s f Ew Es Ef) as [_ Hb].
  exact (proj2 (Hb Nw Ns)).
Defined.

(** X10: over the forecasts table, every column [get_percentile_forecasts]
    returns is a configured percentile or special member, and is the member
    of some non-NULL row of the requested model, element and location. *)
Theorem percentile_columns_from_table {V : Type} `{Num V} (tbl : list (md_row V)) eqt now
    model element issue location f :
  get_percentile_forecasts (metdesk_store tbl eqt now) (metdesk_pct_query tbl)
    model element issue location = Some f ->
  Forall (fun c => In c (METDESK_PERCENTILE_MEMBERS ++ METDESK_SPECIAL_MEMBERS)
                   /\ exists r, In r tbl /\ md_member r = c /\ md_model r = model
                      /\ md_element r = element
                      /\ md_location r = match location with Some l => l | None => COUNTRY end
                      /\ v_is_nan (md_value r) = false)
    (cols f).
Proof.
  unfold get_percentile_forecasts. cbv zeta.
  destruct (match issue with Some i => Some i | None => _ end) as [iss|];
    [|intros E; injection E as <-; constructor].
  cbn [metdesk_pct_query].
  destruct (sql_percentiles tbl model element iss _ _) as [|x xs] eqn:Eq;
    intros E; injection E as <-; [constructor|].
  apply Forall_forall. intros c Hc. cbn [cols sort_rows] in Hc.
  destruct (In_cols_pivot _ _ Hc) as [t [v [Hx Hv]]].
  rewrite <- Eq in Hx. unfold sql_percentiles in Hx.
  apply In_sort_by, in_map_iff in Hx as [r [Er Hr]].
  unfold long_of in Er. injection Er as Et Em Ev.
  apply filter_In in Hr as [Hr Hc'].
  apply andb_prop in Hc' as [Hc' Hm]. apply andb_prop in Hc' as [Hw _].
  unfold md_where in Hw. apply andb_prop in Hw as [Hw He]. apply andb_prop in Hw as [Hl Hmo].
  apply String.eqb_eq in Hl, Hmo, He. apply mem_In in Hm. rewrite Em in Hm.
  split; [exact Hm|]. exists r. repeat split; auto. congruence.
Qed.

Lemma percentile_columns_from_table_witness :
  exists f, get_percentile_forecasts (metdesk_store pct_tbl [] 0%Z) (metdesk_pct_query pct_tbl)
              "eceps" "wind" None None = Some f
  /\ Forall (fun c => In c (METDESK_PERCENTILE_MEMBERS ++ METDESK_SPECIAL_MEMBERS)) (cols f).
Proof.
  destruct (get_percentile_forecasts (metdesk_store pct_tbl [] 0%Z) (metdesk_pct_query pct_tbl)
      "eceps" "wind" None None) as [f|] eqn:E; [|vm_compute in E; discriminate].
  exists f. split; [reflexivity|].
  pose proof (percentile_columns_from_table pct_tbl [] 0%Z "eceps" "wind" None None f E) as Hf.
  revert Hf. apply Forall_impl. intros c [Hc _]. exact Hc.
Defined.

(** X11: every table the client returns is shaped (strictly increasing
    timestamps, rows of the right width): an ensemble fetch, a fetch of one
    issue between two times, a percentile fetch, a renewables fetch; the
    consumption fetch has non-decreasing timestamps and the one column
    [consumption_mw]. *)
Theorem fetch_shapes {V} `{Num V} (st : store V) :
  (forall model element issue location f,
     get_ensemble_forecasts st model element issue location = Ok f -> shaped f) /\
  (forall model element issue vs ve location,
     shaped (get_ensemble_by_issue_and_time st model element issue vs ve location)) /\
  (forall qp model element issue location f,
     get_percentile_forecasts st qp model element issue location = Some f -> shaped f) /\
  (forall model issue location f,
     get_renewable_ensembles st model issue location = Ok f -> shaped f) /\
  (forall issue location,
     let f := get_eq_consumption st issue location in
     Sorted Z.le (times f) /\ wf f /\ key_col f = true /\ cols f = ["consumption_mw"%string]).
Proof.
  split; [exact (get_ensemble_forecasts_shaped st)|].
  split; [exact (get_ensemble_by_issue_and_time_shaped st)|].
  split; [exact (get_percentile_forecasts_shaped st)|].
  split; [exact (get_renewable_ensembles_shaped st)|].
  exact (get_eq_consumption_shape st).
Qed.

Lemma fetch_shapes_witness :
  exists f, get_ensemble_forecasts wind_only_store "eceps" "wind" None None = Ok f /\ shaped f.
Proof.
  destruct (get_ensemble_forecasts wind_only_store "eceps" "wind" None None) as [f|] eqn:E;
    [|vm_compute in E; discriminate].
  exists f. split; [reflexivity|]. exact (proj1 (fetch_shapes wind_only_store) _ _ _ _ _ E).
Defined.

(** X12: the member label [str(n)] of the ensemble query parses back to
    [n], is renamed to [ens_] followed by [n] on two digits, and that
    two-digit number parses back to [n]. *)
Theorem member_labels (n : nat) :
  parse_int (str_nat n) = Some n /\
  ens_name (str_nat n) = ("ens_" ++ fmt02 n)%string /\
  parse_int (fmt02 n) = Some n.
Proof. split; [apply parse_str_nat|split; [apply ens_name_str_nat|apply parse_fmt02]]. Qed.

(** X13: the timestamps of [compute_forecast_delta] are those of the old
    issue's table that also occur in the new issue's table, in order, and
    are strictly increasing. *)
Theorem forecast_delta_times {V} `{Num V} (st : store V) model element issue_new issue_old vs ve
    countries location :
  let loc := Some (upper (default_location countries location)) in
  let d := compute_forecast_delta st model element issue_new issue_old vs ve countries location in
  times d
  = filter (fun t => existsb (Z.eqb t)
               (times (get_ensemble_by_issue_and_time st model element issue_new vs ve loc)))
      (times (get_ensemble_by_issue_and_time st model element issue_old vs ve loc))
  /\ Sorted Z.lt (times d).
Proof.
  cbv zeta. rewrite forecast_delta_times_eq. split; [reflexivity|].
  apply sorted_filter_lt, get_ensemble_by_issue_and_time_shaped.
Qed.

(** X14: the timestamps of [compute_residual_load_delta] are the sorted
    union of those of the wind and solar forecast deltas, strictly
    increasing. *)
Theorem residual_load_delta_times {V} `{Num V} (st : store V) model issue_new issue_old vs ve
    countries location :
  let loc := Some (default_location countries location) in
  let d := compute_residual_load_delta st model issue_new issue_old vs ve countries location in
  times d
  = uniq_Z (times (compute_forecast_delta st model "wind" issue_new issue_old vs ve countries loc)
            ++ times (compute_forecast_delta st model "solar" issue_new issue_old vs ve countries loc))
  /\ Sorted Z.lt (times d).
Proof.
  cbv zeta. rewrite residual_load_delta_times_eq. split; [reflexivity|]. apply uniq_Z_sorted.
Qed.
